(** * qfrm exotic options: Shout, Chooser and Bermudan pricing

    A shallow embedding of [Shout.py], [chooser.py] and
    [qfrm/options/Bermudan.py].  Python floats are read as real numbers
    (exact arithmetic), numpy arrays as lists of reals, or of reals and
    nan where numpy computes one, Python exceptions as the [Raise] case
    of [result].  The collaborators that live outside
    these three files ([OptionValuation.LT_specs], numpy's random
    generator, [numpy.polyfit], scipy's normal CDF) are taken as
    parameters of the functions that call them; [PriceSpec] is a record
    of the fields the three files read and write. *)

From Stdlib Require Import Reals Lra Lia List ZArith Bool String Ascii.
From Stdlib Require Import Zfloor Sorted.
Import ListNotations.
Open Scope R_scope.

(** ** Python values *)

(** The exceptions the modelled code can meet; [InvalidParameter] and
    [UnsupportedMethod] are the error kinds the specification names. *)
Inductive exn : Type :=
| ValueError
| TypeError
| ZeroDivisionError
| OverflowError
| AttributeError
| IndexError
| InvalidParameter
| UnsupportedMethod.

Inductive result (A : Type) : Type :=
| Ok (a : A)
| Raise (e : exn).
Arguments Ok {A} a.
Arguments Raise {A} e.

Definition bind {A B : Type} (c : result A) (k : A -> result B) : result B :=
  match c with
  | Ok a => k a
  | Raise e => Raise e
  end.

Notation "x <- c ;; k" := (bind c (fun x => k))
  (at level 61, c at next level, right associativity).

(** A float that numpy produced: a real, or one of inf, -inf, nan. *)
Inductive npfloat : Type :=
| Fin (x : R)
| NonFinite.

(** ** numpy arrays of one dimension *)
Module Np.

Definition vec := list R.

Fixpoint map2 {A B C : Type} (f : A -> B -> C) (a : list A) (b : list B) : list C :=
  match a, b with
  | x :: a', y :: b' => f x y :: map2 f a' b'
  | _, _ => []
  end.

(** [a + b], [a * b] and [np.maximum(a, b)] on arrays of one shape. *)
Definition add (a b : vec) : vec := map2 Rplus a b.
Definition sub (a b : vec) : vec := map2 Rminus a b.
Definition mul (a b : vec) : vec := map2 Rmult a b.
Definition maximum (a b : vec) : vec := map2 Rmax a b.

(** A scalar against an array: [c * a], [a - c], [c - a], [np.maximum(a, c)]. *)
Definition scal (c : R) (a : vec) : vec := map (Rmult c) a.
Definition sub_scalar (a : vec) (c : R) : vec := map (fun x => x - c) a.
Definition scalar_sub (c : R) (a : vec) : vec := map (fun x => c - x) a.
Definition maximum_scalar (a : vec) (c : R) : vec := map (fun x => Rmax x c) a.

(** [np.arange(n)] as integers, and [c ** ks] for an integer array [ks]. *)
Definition arange (n : nat) : list nat := seq 0 n.
Definition pow_arr (c : R) (ks : list nat) : vec := map (pow c) ks.
Definition to_float (ks : list nat) : vec := map INR ks.

Fixpoint sum (a : vec) : R :=
  match a with
  | [] => 0
  | x :: a' => x + sum a'
  end.

(** [np.cumsum]: running totals, started from [acc]. *)
Fixpoint cumsum_from (acc : R) (a : vec) : vec :=
  match a with
  | [] => []
  | x :: a' => (acc + x) :: cumsum_from (acc + x) a'
  end.
Definition cumsum (a : vec) : vec := cumsum_from 0 a.

(** [np.mean] of a non-empty array. *)
Definition mean (a : vec) : R := sum a / INR (List.length a).

(** Arrays whose entries may be nan.  In the Monte Carlo method, where
    they are used, an entry that is not a real is a nan: [np.sqrt] of a
    negative number, and whatever is computed from one. *)
Definition nvec := list npfloat.

Definition fin1 (f : R -> R) (a : npfloat) : npfloat :=
  match a with
  | Fin x => Fin (f x)
  | NonFinite => NonFinite
  end.

Definition fin2 (f : R -> R -> R) (a b : npfloat) : npfloat :=
  match a, b with
  | Fin x, Fin y => Fin (f x y)
  | _, _ => NonFinite
  end.

Definition nadd : npfloat -> npfloat -> npfloat := fin2 Rplus.
Definition nmul : npfloat -> npfloat -> npfloat := fin2 Rmult.

(** [a > b]: false when either side is nan. *)
Definition gt (a b : npfloat) : bool :=
  match a, b with
  | Fin x, Fin y => if Rlt_dec y x then true else false
  | _, _ => false
  end.

(** The reals of an array that holds no nan. *)
Fixpoint finite (a : nvec) : option vec :=
  match a with
  | [] => Some []
  | Fin x :: a' =>
      match finite a' with
      | Some r => Some (x :: r)
      | None => None
      end
  | NonFinite :: _ => None
  end.

(** [np.polyval(c, x)]: highest degree first. *)
Definition polyval (c : nvec) (x : npfloat) : npfloat :=
  fold_left (fun acc ci => nadd (nmul acc x) ci) c (Fin 0).

(** [x in t] for a tuple of floats. *)
Definition Reqb (x y : R) : bool := if Req_dec_T x y then true else false.
Definition contains (t : vec) (x : R) : bool := existsb (Reqb x) t.

End Np.

(** ** The option object and the lattice parameters *)

Record Stock : Type := mkStock { S0 : R; vol : R; q : R }.

Inductive right_t : Type := call | put.

Record OptionValuation : Type := mkOption {
  ref : Stock;
  right : right_t;
  K : R;
  T : R;
  rf_r : R
}.

(** Modelled from the spec: the sign of the right (section 6), +1 for
    a call and -1 for a put. *)
Definition signCP (self : OptionValuation) : R :=
  match right self with
  | call => 1
  | put => -1
  end.

(** What [self.LT_specs(n)] returns; the method itself is not part of
    the three files, so the record is an input of every [_calc_LT]. *)
Record LT : Type := mkLT {
  dt : R;
  u : R;
  d : R;
  a : R;
  p : R;
  df_T : R;
  df_dt : R
}.

(** Modelled from the spec: [OptionValuation.LT_specs], the lattice
    parameter builder of section 4.1 (dt = T/n, u = exp(sigma sqrt dt),
    d = 1/u, a = exp((r-q) dt), p = (a-d)/(u-d), df_dt = exp(-r dt),
    df_T = exp(-r T)).  It is used to show that the lattices of the
    examples below are ones the builder produces. *)
Definition LT_specs (self : OptionValuation) (n : nat) : LT :=
  let dt := T self / INR n in
  let u := exp (vol (ref self) * sqrt dt) in
  let d := 1 / u in
  let a := exp ((rf_r self - q (ref self)) * dt) in
  mkLT dt u d a ((a - d) / (u - d)) (exp (- rf_r self * T self)) (exp (- rf_r self * dt)).

(** Modelled from the spec: the builder's failures (section 4.1), an
    [InvalidParameter] when sigma <= 0, T <= 0, n < 1 or the computed
    [p] falls outside [0, 1]. *)
Definition LT_specs_checked (self : OptionValuation) (n : Z) : result LT :=
  if Rle_dec (vol (ref self)) 0 then Raise InvalidParameter
  else if Rle_dec (T self) 0 then Raise InvalidParameter
  else if (n <? 1)%Z then Raise InvalidParameter
  else
    let sp := LT_specs self (Z.to_nat n) in
    if Rlt_dec (p sp) 0 then Raise InvalidParameter
    else if Rlt_dec 1 (p sp) then Raise InvalidParameter
    else Ok sp.

Definition tree := list Np.vec.

(** ** The lattice state shared by the three backward inductions *)

(** The loop variables [S], [O], [S_tree], [O_tree]. *)
Record lattice : Type := mkLattice {
  S_ : Np.vec;
  O_ : Np.vec;
  S_tree : tree;
  O_tree : tree
}.

(** [S = S0 * d ** arange(n, -1, -1) * u ** arange(0, n + 1)] *)
Definition terminal_S (self : OptionValuation) (sp : LT) (n : nat) : Np.vec :=
  Np.mul (Np.scal (S0 (ref self)) (Np.pow_arr (d sp) (rev (Np.arange (n + 1)))))
         (Np.pow_arr (u sp) (Np.arange (n + 1))).

(** [maximum(self.signCP * (S - self.K), 0)] *)
Definition payout (self : OptionValuation) (S : Np.vec) : Np.vec :=
  Np.maximum_scalar (Np.scal (signCP self) (Np.sub_scalar S (K self))) 0.

(** [_['df_dt'] * ((1 - _['p']) * O[:i] + _['p'] * O[1:])] *)
Definition prior_O (sp : LT) (i : nat) (O : Np.vec) : Np.vec :=
  Np.scal (df_dt sp)
          (Np.add (Np.scal (1 - p sp) (firstn i O)) (Np.scal (p sp) (skipn 1 O))).

(** [_['d'] * S[1:i+1]] *)
Definition prior_S (sp : LT) (i : nat) (S : Np.vec) : Np.vec :=
  Np.scal (d sp) (firstn i (skipn 1 S)).

Definition init_lattice (self : OptionValuation) (sp : LT) (n : nat) : lattice :=
  let S := terminal_S self sp n in
  let O := payout self S in
  mkLattice S O [S] [O].

(** ** The price specification object *)

(** A numpy matrix, kept by column; its entries may be nan. *)
Definition matrix := list Np.nvec.

(** Modelled from the spec: the price specification object of
    section 3 ([PriceSpec] is not part of the three files), the final
    price plus the diagnostic payload.  It keeps the keyword arguments
    it is given that are not [None]; a field that was never set is
    [None] here.  [deg_R] is the argument [R] of [Bermudan.calc_px]. *)
Record PriceSpec : Type := mkPriceSpec {
  method : string;
  nsteps : option Z;
  npaths : option nat;
  keep_hist : bool;
  deg_R : option Z;
  seed : option Z;
  px : option npfloat;
  sub_method : option string;
  LT_specs_used : option LT;
  ref_tree : option tree;
  opt_tree : option tree;
  stock_price_paths : option matrix;
  payouts : option matrix;
  terminal_payouts : option matrix
}.

(** [PriceSpec(method=..., nsteps=..., npaths=..., keep_hist=..., R=..., seed=...)] *)
Definition new_PriceSpec (method : string) (nsteps : option Z) (npaths : option nat)
    (keep_hist : bool) (deg_R seed : option Z) : PriceSpec :=
  mkPriceSpec method nsteps npaths keep_hist deg_R seed
              None None None None None None None None.

(** [px_spec.add(px=..., sub_method=..., LT_specs=..., ref_tree=..., opt_tree=...)] *)
Definition add_LT (ps : PriceSpec) (v : npfloat) (sub : string) (sp : LT)
    (rt ot : option tree) : PriceSpec :=
  mkPriceSpec (method ps) (nsteps ps) (npaths ps) (keep_hist ps) (deg_R ps) (seed ps)
              (Some v) (Some sub) (Some sp)
              (match rt with Some t => Some t | None => ref_tree ps end)
              (match ot with Some t => Some t | None => opt_tree ps end)
              (stock_price_paths ps) (payouts ps) (terminal_payouts ps).

(** The keyword [method='LT'] that Shout and Bermudan add to the same
    call: the name the caller gave is overwritten. *)
Definition add_method (ps : PriceSpec) (m : string) : PriceSpec :=
  mkPriceSpec m (nsteps ps) (npaths ps) (keep_hist ps) (deg_R ps) (seed ps)
              (px ps) (sub_method ps) (LT_specs_used ps) (ref_tree ps) (opt_tree ps)
              (stock_price_paths ps) (payouts ps) (terminal_payouts ps).

(** [getattr(self.px_spec, 'nsteps', 3)] *)
Definition get_nsteps (ps : PriceSpec) : Z :=
  match nsteps ps with
  | Some n => n
  | None => 3%Z
  end.

(** [method.upper()] on the ASCII letters. *)
Definition upper_ascii (c : ascii) : ascii :=
  let n := nat_of_ascii c in
  if andb (Nat.leb 97 n) (Nat.leb n 122) then ascii_of_nat (n - 32) else c.

Fixpoint upper (s : string) : string :=
  match s with
  | EmptyString => EmptyString
  | String c s' => String (upper_ascii c) (upper s')
  end.

(** Modelled from the spec: [float(Util.demote(O))]; [Util] is not
    part of the three files, and section 4.3 says the array has length
    1 at the end and holds the root price. *)
Definition demote (O1 : Np.vec) : result R :=
  match O1 with
  | [x] => Ok x
  | _ => Raise TypeError
  end.

(** [math.sqrt]: a domain error below zero. *)
Definition math_sqrt (x : R) : result R :=
  if Rlt_dec x 0 then Raise ValueError else Ok (sqrt x).

(** [x / y] on Python floats. *)
Definition py_div (x y : R) : result R :=
  if Req_dec_T y 0 then Raise ZeroDivisionError else Ok (x / y).

(** [int(x)]: the integer part, rounded towards zero. *)
Definition py_int (x : R) : Z :=
  if Rle_dec 0 x then Zfloor x else Zceil x.

(** ** Chooser *)
Module Chooser.

Record state : Type := mkState {
  tau : option R;
  px_spec : PriceSpec
}.

(** One pass of the loop body of the [keep_hist] branch. *)
Definition step (sp : LT) (i : nat) (l : lattice) : lattice :=
  let O1 := prior_O sp i (O_ l) in
  let S1 := prior_S sp i (S_ l) in
  mkLattice S1 O1 (S1 :: S_tree l) (O1 :: O_tree l).

(** [for i in range(n, 0, -1)] *)
Fixpoint loop (sp : LT) (i : nat) (l : lattice) : lattice :=
  match i with
  | O => l
  | S i' => loop sp i' (step sp i l)
  end.

(** [numpy.log] of a scalar: -inf at zero and nan below it, with a warning only. *)
Definition np_log (x : R) : npfloat :=
  if Rlt_dec 0 x then Fin (ln x) else NonFinite.

(** [csl = insert(cumsum(log(arange(n) + 1)), 0, 0)] *)
Definition csl (n : nat) : Np.vec :=
  0 :: Np.cumsum (map ln (map (fun k => k + 1) (Np.to_float (Np.arange n)))).

(** [tmp = csl[n] - csl - csl[::-1] + log(p) * arange(n + 1)
            + log(1 - p) * arange(n + 1)[::-1]], given the two logarithms. *)
Definition tmp (n : nat) (lp lq : R) : Np.vec :=
  Np.add (Np.add (Np.sub (Np.scalar_sub (nth n (csl n) 0) (csl n)) (rev (csl n)))
                 (Np.scal lp (Np.to_float (Np.arange (n + 1)))))
         (Np.scal lq (rev (Np.to_float (Np.arange (n + 1))))).

(** The [else] branch: [out = _['df_T'] * sum(exp(tmp) * tuple(O))].
    Both [log(p) * arange(n + 1)] and [log(1 - p) * arange(n + 1)[::-1]]
    hold a product with 0, so a logarithm that is not finite makes an
    entry of [tmp], and with it the sum, nan. *)
Definition closed_form (sp : LT) (n : nat) (O1 : Np.vec) : npfloat :=
  match np_log (p sp), np_log (1 - p sp) with
  | Fin lp, Fin lq => Fin (df_T sp * Np.sum (Np.mul (map exp (tmp n lp lq)) O1))
  | _, _ => NonFinite
  end.

(** The price and the two trees [_calc_LT] hands to [px_spec.add]. *)
Definition LT_out (self : OptionValuation) (sp : LT) (n : nat) (hist : bool)
    : npfloat * option tree * option tree :=
  let l0 := init_lattice self sp n in
  if hist then
    let l := loop sp n l0 in
    (Fin (nth 0 (nth 0 (O_tree l) []) 0), Some (S_tree l), Some (O_tree l))
  else
    (closed_form sp n (O_ l0), None, None).

Section Calls.

(** [self.LT_specs] and the closed form [_calc_BS], which the
    specification leaves to its collaborators. *)
Variable LT_specs_method : OptionValuation -> Z -> result LT.
Variable BS_method : OptionValuation -> state -> result state.

(** With a negative [n] the terminal arrays are empty: [O_tree[0][0]]
    and [csl[n]] are out of range, and only [n = -1] without history
    gets through, summing an empty array. *)
Definition _calc_LT (self : OptionValuation) (st : state) : result state :=
  let n := get_nsteps (px_spec st) in
  sp <- LT_specs_method self n ;;
  let sub := "binomial tree; Hull Ch.135"%string in
  if (n <? 0)%Z then
    if keep_hist (px_spec st) then Raise IndexError
    else if (n =? -1)%Z then
      Ok (mkState (tau st) (add_LT (px_spec st) (Fin (df_T sp * 0)) sub sp None None))
    else Raise IndexError
  else
    let '(out, rt, ot) := LT_out self sp (Z.to_nat n) (keep_hist (px_spec st)) in
    Ok (mkState (tau st) (add_LT (px_spec st) out sub sp rt ot)).

Definition _calc_MC (self : OptionValuation) (st : state) : result state := Ok st.

Definition _calc_FD (self : OptionValuation) (st : state) : result state := Ok st.

(** [getattr(self, '_calc_' + method.upper())()] *)
Definition dispatch (self : OptionValuation) (st : state) : result state :=
  let m := upper (method (px_spec st)) in
  if String.eqb m "BS" then BS_method self st
  else if String.eqb m "LT" then _calc_LT self st
  else if String.eqb m "MC" then _calc_MC self st
  else if String.eqb m "FD" then _calc_FD self st
  else Raise AttributeError.

Definition calc_px (self : OptionValuation) (tau : option R) (method : string)
    (nsteps : option Z) (npaths : option nat) (keep_hist : bool) (st : state)
    : result state :=
  dispatch self (mkState tau (new_PriceSpec method nsteps npaths keep_hist None None)).

End Calls.

End Chooser.

(** ** Shout *)
Module Shout.

Record state : Type := mkState { px_spec : PriceSpec }.

Section Calls.

(** [scipy.stats.norm.cdf] and [self.LT_specs]. *)
Variable Phi : R -> R.
Variable LT_specs_method : OptionValuation -> Z -> result LT.

(** [d1 = (0 + (self.rf_r + self.ref.vol ** 2 / 2) * tleft)
          / (self.ref.vol * math.sqrt(tleft))] *)
Definition d1_of (self : OptionValuation) (tleft : R) : result R :=
  sq <- math_sqrt tleft ;;
  py_div (0 + (rf_r self + vol (ref self) ^ 2 / 2) * tleft) (vol (ref self) * sq).

(** [d2 = d1 - self.ref.vol * math.sqrt(tleft)] *)
Definition d2_of (self : OptionValuation) (tleft d1 : R) : R :=
  d1 - vol (ref self) * sqrt tleft.

(** The array [Shout] of the loop body, node by node. *)
Definition shout_value (self : OptionValuation) (tleft d1 d2 : R) (s : R) : R :=
  signCP self * s / exp (q (ref self) * tleft) * Phi (signCP self * d1)
  - signCP self * s / exp (rf_r self * tleft) * Phi (signCP self * d2)
  + signCP self * (s - K self) / exp (rf_r self * tleft).

Definition step (self : OptionValuation) (sp : LT) (n i : nat) (l : lattice)
    : result lattice :=
  let left := (n - i + 1)%nat in
  let tleft := INR left * dt sp in
  d1 <- d1_of self tleft ;;
  let d2 := d2_of self tleft d1 in
  let O1 := prior_O sp i (O_ l) in
  let S1 := prior_S sp i (S_ l) in
  let Shout := map (shout_value self tleft d1 d2) S1 in
  let Payout := Np.maximum_scalar Shout 0 in
  let O2 := Np.maximum O1 Payout in
  Ok (mkLattice S1 O2 (S1 :: S_tree l) (O2 :: O_tree l)).

(** [for i in range(n, 0, -1)] *)
Fixpoint loop (self : OptionValuation) (sp : LT) (n i : nat) (l : lattice)
    : result lattice :=
  match i with
  | O => Ok l
  | S i' => l' <- step self sp n i l ;; loop self sp n i' l'
  end.

(** The lattice after the loop, for a step count [n >= 0]. *)
Definition LT_lattice (self : OptionValuation) (sp : LT) (n : nat) : result lattice :=
  loop self sp n n (init_lattice self sp n).

(** With a negative [n] the arrays are empty and [float] has nothing
    to convert. *)
Definition _calc_LT (self : OptionValuation) (st : state) : result state :=
  let n := get_nsteps (px_spec st) in
  sp <- LT_specs_method self n ;;
  if (n <? 0)%Z then Raise TypeError
  else
    l <- LT_lattice self sp (Z.to_nat n) ;;
    v <- demote (O_ l) ;;
    let hist := keep_hist (px_spec st) in
    Ok (mkState (add_method
                   (add_LT (px_spec st) (Fin v) "binomial tree; Hull Ch.13" sp
                           (if hist then Some (S_tree l) else None)
                           (if hist then Some (O_tree l) else None))
                   "LT")).

Definition _calc_BS (self : OptionValuation) (st : state) : result state := Ok st.

Definition _calc_MC (self : OptionValuation) (st : state) : result state := Ok st.

Definition _calc_FD (self : OptionValuation) (st : state) : result state := Ok st.

(** Modelled from the spec: [OptionValuation.calc_px], which
    [Shout.calc_px] forwards to; as its docstring says, the parameters
    are saved to a fresh [PriceSpec] and the pricing function named by
    [method] is called. *)
Definition calc_px (self : OptionValuation) (method : string) (nsteps : option Z)
    (npaths : option nat) (keep_hist : bool) (st : state) : result state :=
  let st' := mkState (new_PriceSpec method nsteps npaths keep_hist None None) in
  let m := upper method in
  if String.eqb m "BS" then _calc_BS self st'
  else if String.eqb m "LT" then _calc_LT self st'
  else if String.eqb m "MC" then _calc_MC self st'
  else if String.eqb m "FD" then _calc_FD self st'
  else Raise AttributeError.

End Calls.

End Shout.

(** ** Bermudan *)
Module Bermudan.

(** numpy's global generator, read as the standard normal draws it has
    still to hand out. *)
Definition generator := nat -> R.

(** What a call can change: the generator, [self.tex], [self.px_spec]. *)
Record state : Type := mkState {
  rng : generator;
  tex : Np.vec;
  px_spec : PriceSpec
}.

(** A method of the object: it may change the state and may raise. *)
Definition M (A : Type) : Type := state -> state * result A.

Definition ret {A : Type} (x : A) : M A := fun st => (st, Ok x).
Definition raise {A : Type} (e : exn) : M A := fun st => (st, Raise e).
Definition lift {A : Type} (c : result A) : M A := fun st => (st, c).
Definition get : M state := fun st => (st, Ok st).
Definition put (st' : state) : M unit := fun _ => (st', Ok tt).

Definition bindM {A B : Type} (c : M A) (k : A -> M B) : M B :=
  fun st =>
    match c st with
    | (st', Ok x) => k x st'
    | (st', Raise e) => (st', Raise e)
    end.

Notation "x <~ c ;; k" := (bindM c (fun x => k))
  (at level 61, c at next level, right associativity).

Definition set_rng (g : generator) : M unit :=
  fun st => (mkState g (tex st) (px_spec st), Ok tt).
Definition set_tex (t : Np.vec) : M unit :=
  fun st => (mkState (rng st) t (px_spec st), Ok tt).
Definition set_px_spec (ps : PriceSpec) : M unit :=
  fun st => (mkState (rng st) (tex st) ps, Ok tt).

(** *** [calc_px]: the schedule and the step count *)

(** [max(tex)] *)
Definition py_max (t : Np.vec) : result R :=
  match t with
  | [] => Raise ValueError
  | x :: t' => Ok (fold_left Rmax t' x)
  end.

Definition epsilon : R := / 10 ^ 11.

Definition Rltb (x y : R) : bool := if Rlt_dec x y then true else false.

(** The schedule [calc_px] stores, and whether its entries went through
    a numpy array on the way:
    [if deltaT < epsilon: tex = tuple(np.asarray(tex)[np.asarray(tex) < self.T]) + (self.T,)]
    [elif deltaT > epsilon: tex = tex[:-1] + (self.T,)] *)
Definition normalize (self : OptionValuation) (Tmax : R) (t : Np.vec) : bool * Np.vec :=
  let deltaT := T self - Tmax in
  if Rlt_dec deltaT epsilon then
    (true, filter (fun x => Rltb x (T self)) t ++ [T self])
  else if Rlt_dec epsilon deltaT then
    (false, removelast t ++ [T self])
  else (false, t).

(** [int(T / (tex[i + 1] - tex[i]))].  A zero gap between two Python
    floats is a [ZeroDivisionError]; between numpy floats the quotient
    is inf (or nan when [T] is 0), which [int] refuses. *)
Definition steps_of_gap (numpy : bool) (Tmax x y : R) : result Z :=
  if Req_dec_T (y - x) 0 then
    if numpy then
      if Req_dec_T Tmax 0 then Raise ValueError else Raise OverflowError
    else Raise ZeroDivisionError
  else Ok (py_int (Tmax / (y - x))).

(** [map(lambda i: int(T / (tex[i + 1] - tex[i])), range(len(tex) - 1))] *)
Fixpoint steps_of_gaps (numpy : bool) (Tmax : R) (t : Np.vec) : result (list Z) :=
  match t with
  | x :: ((y :: _) as t') =>
      k <- steps_of_gap numpy Tmax x y ;;
      ks <- steps_of_gaps numpy Tmax t' ;;
      Ok (k :: ks)
  | _ => Ok []
  end.

(** [max] of a tuple of integers. *)
Definition py_max_int (ks : list Z) : result Z :=
  match ks with
  | [] => Raise ValueError
  | k :: ks' => Ok (fold_left Z.max ks' k)
  end.

Definition knsteps (numpy : bool) (Tmax : R) (t : Np.vec) (nsteps : option Z) : result Z :=
  ks <- steps_of_gaps numpy Tmax t ;;
  k <- py_max_int ks ;;
  match nsteps with
  | Some n => Ok (k * n)%Z
  | None => Ok k
  end.

(** *** [_calc_LT] *)

(** One pass of the loop body: exercise is allowed when [i * dt] is a
    scheduled time. *)
Definition step (self : OptionValuation) (sp : LT) (t : Np.vec) (i : nat) (l : lattice)
    : lattice :=
  let O1 := prior_O sp i (O_ l) in
  let S1 := prior_S sp i (S_ l) in
  let Payout := payout self S1 in
  let O2 := if Np.contains t (INR i * dt sp) then Np.maximum O1 Payout else O1 in
  mkLattice S1 O2 (S1 :: S_tree l) (O2 :: O_tree l).

(** [for i in range(n, 0, -1)] *)
Fixpoint loop (self : OptionValuation) (sp : LT) (t : Np.vec) (i : nat) (l : lattice)
    : lattice :=
  match i with
  | O => l
  | S i' => loop self sp t i' (step self sp t i l)
  end.

(** The lattice after the loop, for a step count [n >= 0]. *)
Definition LT_lattice (self : OptionValuation) (sp : LT) (t : Np.vec) (n : nat) : lattice :=
  loop self sp t n (init_lattice self sp n).

(** *** [_calc_MC] *)

(** [delta_T_array()]: each scheduled time minus the one before it,
    the first minus 0. *)
Fixpoint delta_Ts_from (previous_tex : R) (t : Np.vec) : Np.vec :=
  match t with
  | [] => []
  | x :: t' => (x - previous_tex) :: delta_Ts_from x t'
  end.
Definition delta_T_array (t : Np.vec) : Np.vec := delta_Ts_from 0 t.

(** [np.random.normal(loc=0.0, scale=1.0, size=npaths)] *)
Definition normal (g : generator) (npaths : nat) : Np.vec * generator :=
  (map g (seq 0 npaths), fun j => g (npaths + j)%nat).

(** [np.sqrt]: nan below zero, with a warning only. *)
Definition np_sqrt (x : R) : npfloat :=
  if Rlt_dec x 0 then NonFinite else Fin (sqrt x).

(** The factor [discount] of one path over one gap: nan when the gap
    is negative. *)
Definition discount (self : OptionValuation) (delta_T z : R) : npfloat :=
  let drift := rf_r self - q (ref self) in
  Np.fin1 (fun s => exp ((drift - 0.5 * vol (ref self) ^ 2) * delta_T
                         + vol (ref self) * z * s))
          (np_sqrt delta_T).

(** The columns [paths[:, 1]], [paths[:, 2]], ... from the column
    before the first of them. *)
Fixpoint propagate (self : OptionValuation) (npaths : nat) (delta_Ts : Np.vec)
    (column : Np.nvec) (g : generator) : matrix * generator :=
  match delta_Ts with
  | [] => ([], g)
  | delta_T :: rest =>
      let '(random_samples, g') := normal g npaths in
      let next := Np.map2 Np.nmul column (map (discount self delta_T) random_samples) in
      let '(columns, g'') := propagate self npaths rest next g' in
      (next :: columns, g'')
  end.

(** [generate_stock_price_paths(delta_Ts)]; the matrix is kept by
    column, so [paths[:, k]] is its [k]-th entry. *)
Definition generate_stock_price_paths (self : OptionValuation) (npaths : nat)
    (delta_Ts : Np.vec) (g : generator) : matrix * generator :=
  let start := repeat (Fin (S0 (ref self))) npaths in
  let '(columns, g') := propagate self npaths delta_Ts start g in
  (start :: columns, g').

(** [payout(stock_price)], on one column: [np.maximum] keeps a nan. *)
Definition payout (self : OptionValuation) (stock_price : Np.nvec) : Np.nvec :=
  map (Np.fin1 (fun s => Rmax (signCP self * (s - K self)) 0)) stock_price.

(** [m[:, k] = column] *)
Fixpoint set_column (m : matrix) (k : nat) (column : Np.nvec) : matrix :=
  match m, k with
  | [], _ => []
  | _ :: m', O => column :: m'
  | c :: m', S k' => c :: set_column m' k' column
  end.

(** [m[:, k]] for a column the matrix has. *)
Definition column (m : matrix) (k : nat) : Np.nvec := nth k m [].

(** [m[:, k]] where the matrix may be too narrow. *)
Definition get_column (m : matrix) (k : nat) : result Np.nvec :=
  match nth_error m k with
  | Some c => Ok c
  | None => Raise IndexError
  end.

(** [np.where(condition, x, y)] with [condition = x > continuation_price] *)
Fixpoint exercise_or_hold (x continuation_price y : Np.nvec) : Np.nvec :=
  match x, continuation_price, y with
  | xi :: x', ci :: c', yi :: y' =>
      (if Np.gt xi ci then xi else yi) :: exercise_or_hold x' c' y'
  | _, _, _ => []
  end.

(** [np.mean]: nan for an empty array and for one that holds a nan. *)
Definition np_mean (v : Np.nvec) : npfloat :=
  match v, Np.finite v with
  | _ :: _, Some r => Fin (Np.mean r)
  | _, _ => NonFinite
  end.

(** [px_spec.add(px=price)] *)
Definition add_px (ps : PriceSpec) (v : npfloat) : PriceSpec :=
  mkPriceSpec (method ps) (nsteps ps) (npaths ps) (keep_hist ps) (deg_R ps) (seed ps)
              (Some v) (sub_method ps) (LT_specs_used ps) (ref_tree ps) (opt_tree ps)
              (stock_price_paths ps) (payouts ps) (terminal_payouts ps).

(** [px_spec.add(terminal_payouts=..., payouts=..., stock_price_paths=...)] *)
Definition add_MC_hist (ps : PriceSpec) (tp po paths : matrix) : PriceSpec :=
  mkPriceSpec (method ps) (nsteps ps) (npaths ps) (keep_hist ps) (deg_R ps) (seed ps)
              (px ps) (sub_method ps) (LT_specs_used ps) (ref_tree ps) (opt_tree ps)
              (Some paths) (Some po) (Some tp).

Section Calls.

(** [self.LT_specs], [np.random.seed] (the generator a seed selects, or
    the error for a seed numpy refuses) and [np.polyfit]. *)
Variable LT_specs_method : OptionValuation -> Z -> result LT.
Variable np_random_seed : Z -> result generator.
Variable np_polyfit : Np.nvec -> Np.nvec -> Z -> result Np.nvec.

(** One pass of the regression loop, at exercise date [tex_index]. *)
Definition regress (deg : Z) (paths po : matrix) (tex_index : nat) (tp : matrix)
    : result matrix :=
  MSE_coefficients <-
    np_polyfit (column paths tex_index) (column tp (tex_index + 1)) deg ;;
  let continuation_price := map (Np.polyval MSE_coefficients) (column paths tex_index) in
  let x := column po tex_index in
  let y := column tp (tex_index + 1) in
  Ok (set_column tp tex_index (exercise_or_hold x continuation_price y)).

(** [for tex_index in range(len(self.tex) - 1, 1, -1)], entered at
    [tex_index]. *)
Fixpoint backward (deg : Z) (paths po : matrix) (tex_index : nat) (tp : matrix)
    : result matrix :=
  match tex_index with
  | O => Ok tp
  | S below =>
      if (tex_index <? 2)%nat then Ok tp
      else tp' <- regress deg paths po tex_index tp ;;
           backward deg paths po below tp'
  end.

Definition _calc_MC (self : OptionValuation) : M unit :=
  st <~ get ;;
  npaths <~ lift (match npaths (px_spec st) with
                  | Some k => Ok k
                  | None => Raise AttributeError
                  end) ;;
  deg <~ lift (match deg_R (px_spec st) with
               | Some r => Ok r
               | None => Raise AttributeError
               end) ;;
  let '(paths, g) :=
    generate_stock_price_paths self npaths (delta_T_array (tex st)) (rng st) in
  _ <~ set_rng g ;;
  let po := map (payout self) paths in
  tp <~ lift (backward deg paths po (List.length (tex st) - 1) po) ;;
  first <~ lift (get_column tp 1) ;;
  let tp := set_column tp 0 first in
  let price := np_mean (column tp 0) in
  st <~ get ;;
  _ <~ set_px_spec (add_px (px_spec st) price) ;;
  if keep_hist (px_spec st) then
    st <~ get ;;
    set_px_spec (add_MC_hist (px_spec st) tp po paths)
  else ret tt.

(** *** The other methods and the entry point *)

(** With a negative [n] the arrays are empty and [float] has nothing
    to convert. *)
Definition _calc_LT (self : OptionValuation) : M unit :=
  st <~ get ;;
  let n := get_nsteps (px_spec st) in
  sp <~ lift (LT_specs_method self n) ;;
  if (n <? 0)%Z then raise TypeError
  else
    let l := LT_lattice self sp (tex st) (Z.to_nat n) in
    v <~ lift (demote (O_ l)) ;;
    let hist := keep_hist (px_spec st) in
    set_px_spec (add_method
                   (add_LT (px_spec st) (Fin v) "binomial tree; Hull Ch.13" sp
                           (if hist then Some (S_tree l) else None)
                           (if hist then Some (O_tree l) else None))
                   "LT").

Definition _calc_BS (self : OptionValuation) : M unit := ret tt.

Definition _calc_FD (self : OptionValuation) : M unit := ret tt.

(** [getattr(self, '_calc_' + method.upper())()] *)
Definition dispatch (self : OptionValuation) (method : string) : M unit :=
  let m := upper method in
  if String.eqb m "BS" then _calc_BS self
  else if String.eqb m "LT" then _calc_LT self
  else if String.eqb m "MC" then _calc_MC self
  else if String.eqb m "FD" then _calc_FD self
  else raise AttributeError.

Definition calc_px (self : OptionValuation) (method : string) (tex : Np.vec)
    (nsteps : option Z) (npaths : option nat) (keep_hist : bool) (deg : option Z)
    (seed : Z) : M unit :=
  g <~ lift (np_random_seed seed) ;;
  _ <~ set_rng g ;;
  Tmax <~ lift (py_max tex) ;;
  let '(numpy, tex') := normalize self Tmax tex in
  _ <~ set_tex tex' ;;
  k <~ lift (knsteps numpy Tmax tex' nsteps) ;;
  _ <~ set_px_spec (new_PriceSpec method (Some k) npaths keep_hist deg (Some seed)) ;;
  dispatch self method.

End Calls.

End Bermudan.

(** * Properties *)

(** ** Arrays *)
Section ArrayFacts.

Import Np.

Lemma length_map2 {A B C : Type} (f : A -> B -> C) (a : list A) (b : list B) :
  List.length (map2 f a b) = Nat.min (List.length a) (List.length b).
Proof.
  revert b; induction a as [|x a IH]; intros [|y b]; simpl; auto.
Qed.

Lemma nth_map2 {A B C : Type} (f : A -> B -> C) (a : list A) (b : list B)
    (j : nat) (da : A) (db : B) (dc : C) :
  (j < List.length a)%nat -> (j < List.length b)%nat ->
  nth j (map2 f a b) dc = f (nth j a da) (nth j b db).
Proof.
  revert b j; induction a as [|x a IH]; intros [|y b] [|j]; simpl; intros Ha Hb;
    try lia; auto.
  apply IH; lia.
Qed.

Lemma length_scal (c : R) (a : vec) : List.length (scal c a) = List.length a.
Proof. apply length_map. Qed.

(** The dot product [sum(a * b)]. *)
Definition dot (a b : vec) : R := sum (mul a b).

Lemma sum_cons (x : R) (a : vec) : sum (x :: a) = x + sum a.
Proof. reflexivity. Qed.

Lemma dot_nil_r (a : vec) : dot a [] = 0.
Proof. destruct a; reflexivity. Qed.

Lemma dot_cons (x y : R) (a b : vec) : dot (x :: a) (y :: b) = x * y + dot a b.
Proof. reflexivity. Qed.

Lemma scal_cons (c x : R) (a : vec) : scal c (x :: a) = c * x :: scal c a.
Proof. reflexivity. Qed.

Lemma add_cons (x y : R) (a b : vec) : add (x :: a) (y :: b) = (x + y) :: add a b.
Proof. reflexivity. Qed.

Lemma dot_scal_l (c : R) (a b : vec) : dot (scal c a) b = c * dot a b.
Proof.
  revert b; induction a as [|x a IH]; intros [|y b];
    rewrite ?scal_cons, ?dot_cons, ?dot_nil_r; try (unfold dot; simpl; ring).
  rewrite IH; ring.
Qed.

Lemma dot_scal_r (c : R) (a b : vec) : dot a (scal c b) = c * dot a b.
Proof.
  revert b; induction a as [|x a IH]; intros [|y b];
    rewrite ?scal_cons, ?dot_cons, ?dot_nil_r; try (unfold dot; simpl; ring).
  rewrite IH; ring.
Qed.

Lemma dot_add_l (a b c : vec) :
  List.length a = List.length b -> dot (add a b) c = dot a c + dot b c.
Proof.
  revert b c; induction a as [|x a IH]; intros [|y b] [|z c] H; simpl in H;
    try discriminate; rewrite ?add_cons, ?dot_cons, ?dot_nil_r;
    try (unfold dot; simpl; ring).
  rewrite IH by lia; ring.
Qed.

Lemma dot_add_r (a b c : vec) :
  List.length b = List.length c -> dot a (add b c) = dot a b + dot a c.
Proof.
  revert b c; induction a as [|x a IH]; intros [|y b] [|z c] H; simpl in H;
    try discriminate; rewrite ?add_cons, ?dot_cons, ?dot_nil_r;
    try (unfold dot; simpl; ring).
  rewrite IH by lia; ring.
Qed.

(** A trailing zero weight, and entries past the weights, do not count. *)
Lemma dot_snoc_zero (a b : vec) : dot (a ++ [0]) b = dot a b.
Proof.
  revert b; induction a as [|x a IH]; intros [|y b]; simpl app;
    rewrite ?dot_cons, ?dot_nil_r; try reflexivity.
  - unfold dot; simpl. destruct b; simpl; ring.
  - rewrite IH; ring.
Qed.

Lemma dot_firstn (a b : vec) : dot a (firstn (List.length a) b) = dot a b.
Proof.
  revert b; induction a as [|x a IH]; intros [|y b]; simpl List.length;
    simpl firstn; rewrite ?dot_cons, ?dot_nil_r; try reflexivity.
  rewrite IH; ring.
Qed.

Lemma nth_scal (c : R) (a : vec) (j : nat) : nth j (scal c a) 0 = c * nth j a 0.
Proof.
  transitivity (nth j (map (Rmult c) a) (c * 0)).
  - unfold scal. f_equal. ring.
  - apply map_nth.
Qed.

Lemma sum_ext_nth (a b : vec) :
  List.length a = List.length b ->
  (forall j, (j < List.length a)%nat -> nth j a 0 = nth j b 0) -> a = b.
Proof.
  intros Hl Hn; apply (nth_ext a b 0 0); auto.
Qed.

Lemma nth_cumsum_from (acc : R) (a : vec) (j : nat) :
  (j < List.length a)%nat ->
  nth j (cumsum_from acc a) 0 = acc + sum (firstn (S j) a).
Proof.
  revert acc j; induction a as [|x a IH]; intros acc j Hj; simpl in Hj; [lia|].
  destruct j as [|j].
  - simpl. destruct a; simpl; lra.
  - change (nth (S j) (cumsum_from acc (x :: a)) 0)
      with (nth j (cumsum_from (acc + x) a) 0).
    rewrite IH by lia.
    change (firstn (S (S j)) (x :: a)) with (x :: firstn (S j) a).
    rewrite sum_cons. lra.
Qed.

Lemma length_cumsum_from (acc : R) (a : vec) :
  List.length (cumsum_from acc a) = List.length a.
Proof. revert acc; induction a; intros; simpl; auto. Qed.

End ArrayFacts.

Lemma C_n_0 (n : nat) : C n 0 = 1.
Proof.
  unfold C. rewrite Nat.sub_0_r. change (INR (fact 0)) with 1.
  field. apply INR_fact_neq_0.
Qed.

Lemma C_n_n (n : nat) : C n n = 1.
Proof.
  unfold C. rewrite Nat.sub_diag. change (INR (fact 0)) with 1.
  field. apply INR_fact_neq_0.
Qed.

(** ** The lattice *)
Section LatticeFacts.

Import Np.

Variable sp : LT.

Lemma length_prior_O (i : nat) (O1 : vec) :
  List.length O1 = S i -> List.length (prior_O sp i O1) = i.
Proof.
  intros H. unfold prior_O, add.
  rewrite length_scal, length_map2, !length_scal, length_firstn, length_skipn. lia.
Qed.

Lemma length_prior_S (i : nat) (S1 : vec) :
  List.length S1 = S i -> List.length (prior_S sp i S1) = i.
Proof.
  intros H. unfold prior_S.
  rewrite length_scal, length_firstn, length_skipn. lia.
Qed.

Lemma length_payout (self : OptionValuation) (S1 : vec) :
  List.length (payout self S1) = List.length S1.
Proof. unfold payout, maximum_scalar, scal, sub_scalar. now rewrite !length_map. Qed.

Lemma length_terminal_S (self : OptionValuation) (n : nat) :
  List.length (terminal_S self sp n) = S n.
Proof.
  unfold terminal_S, mul, pow_arr, arange.
  rewrite length_map2, length_scal, !length_map, length_rev, length_seq. lia.
Qed.

(** The option values alone: [i] passes of the discounted expectation. *)
Fixpoint back (i : nat) (O1 : vec) : vec :=
  match i with
  | O => O1
  | S i' => back i' (prior_O sp i O1)
  end.

(** The weights of the terminal payouts in the root value,
    built by Pascal's rule. *)
Fixpoint bw (n : nat) : vec :=
  match n with
  | O => [1]
  | S n' => add (scal (1 - p sp) (bw n' ++ [0])) (scal (p sp) (0 :: bw n'))
  end.

Lemma length_bw (n : nat) : List.length (bw n) = S n.
Proof.
  induction n as [|n IH]; [reflexivity|].
  change (bw (S n))
    with (add (scal (1 - p sp) (bw n ++ [0])) (scal (p sp) (0 :: bw n))).
  unfold add. rewrite length_map2, !length_scal, length_app. simpl List.length. lia.
Qed.

Lemma dot_bw_step (n : nat) (O1 : vec) :
  List.length O1 = S (S n) ->
  dot (bw n) (prior_O sp (S n) O1) = df_dt sp * dot (bw (S n)) O1.
Proof.
  intros HO. unfold prior_O.
  rewrite dot_scal_r, dot_add_r, !dot_scal_r.
  2:{ rewrite !length_scal, length_firstn, length_skipn. lia. }
  replace (firstn (S n) O1) with (firstn (List.length (bw n)) O1)
    by now rewrite length_bw.
  rewrite dot_firstn.
  change (bw (S n))
    with (add (scal (1 - p sp) (bw n ++ [0])) (scal (p sp) (0 :: bw n))).
  rewrite dot_add_l, !dot_scal_l, dot_snoc_zero.
  2:{ rewrite !length_scal, length_app. simpl List.length. rewrite length_bw. lia. }
  destruct O1 as [|x O']; [discriminate|].
  simpl skipn. rewrite dot_cons. ring.
Qed.

Lemma back_binomial (n : nat) (O1 : vec) :
  List.length O1 = S n -> back n O1 = [df_dt sp ^ n * dot (bw n) O1].
Proof.
  revert O1; induction n as [|n IH]; intros O1 HO.
  - destruct O1 as [|x [|y O']]; try discriminate.
    simpl. unfold dot. simpl. f_equal. ring.
  - change (back (S n) O1) with (back n (prior_O sp (S n) O1)).
    rewrite IH by (apply length_prior_O; exact HO).
    rewrite dot_bw_step by exact HO.
    f_equal. simpl. ring.
Qed.

Lemma nth_bw (n j : nat) :
  (j <= n)%nat -> nth j (bw n) 0 = C n j * p sp ^ j * (1 - p sp) ^ (n - j).
Proof.
  revert j; induction n as [|n IH]; intros j Hj.
  - assert (j = 0)%nat by lia; subst. rewrite C_n_0. simpl. ring.
  - change (bw (S n))
      with (add (scal (1 - p sp) (bw n ++ [0])) (scal (p sp) (0 :: bw n))).
    unfold add.
    rewrite (nth_map2 Rplus _ _ j 0 0 0)
      by (rewrite length_scal, ?length_app; simpl List.length;
          rewrite length_bw; lia).
    rewrite !nth_scal.
    destruct j as [|j].
    + rewrite app_nth1 by (rewrite length_bw; lia).
      rewrite IH by lia. simpl nth.
      rewrite !C_n_0, !Nat.sub_0_r. simpl pow. ring.
    + simpl nth at 2.
      destruct (Nat.eq_dec j n) as [->|Hne].
      * rewrite app_nth2 by (rewrite length_bw; lia).
        rewrite length_bw, Nat.sub_diag. simpl nth at 1.
        rewrite IH by lia. rewrite !Nat.sub_diag, !C_n_n.
        simpl pow. ring.
      * rewrite app_nth1 by (rewrite length_bw; lia).
        rewrite !IH by lia.
        rewrite <- (pascal n j) by lia.
        replace (S n - S j)%nat with (S (n - S j)) by lia.
        replace (n - j)%nat with (S (n - S j)) by lia.
        simpl pow. ring.
Qed.

End LatticeFacts.

(** ** Chooser: the closed form and the backward induction *)
Section ChooserFacts.

Import Np.

Lemma sum_firstn_S (l : vec) (j : nat) :
  (j < List.length l)%nat -> sum (firstn (S j) l) = sum (firstn j l) + nth j l 0.
Proof.
  revert j; induction l as [|x l IH]; intros j Hj; simpl in Hj; [lia|].
  destruct j as [|j].
  - simpl. ring.
  - change (firstn (S (S j)) (x :: l)) with (x :: firstn (S j) l).
    change (firstn (S j) (x :: l)) with (x :: firstn j l).
    rewrite !sum_cons. change (nth (S j) (x :: l) 0) with (nth j l 0).
    rewrite IH by lia. ring.
Qed.

(** The logarithms [log(arange(n) + 1)]. *)
Definition logs (n : nat) : vec := map ln (map (fun k => k + 1) (to_float (arange n))).

Lemma length_logs (n : nat) : List.length (logs n) = n.
Proof. unfold logs, to_float, arange. now rewrite !length_map, length_seq. Qed.

Lemma nth_logs (n j : nat) : (j < n)%nat -> nth j (logs n) 0 = ln (INR (S j)).
Proof.
  intros Hj. unfold logs, to_float, arange.
  rewrite (nth_indep _ 0 (ln (INR 0 + 1)))
    by (rewrite !length_map, length_seq; exact Hj).
  rewrite (map_nth ln), (map_nth (fun k => k + 1)), (map_nth INR).
  rewrite seq_nth by exact Hj. simpl Nat.add. now rewrite S_INR.
Qed.

Lemma sum_logs (n j : nat) :
  (j <= n)%nat -> sum (firstn j (logs n)) = ln (INR (fact j)).
Proof.
  induction j as [|j IH]; intros Hj.
  - simpl. now rewrite ln_1.
  - rewrite sum_firstn_S by (rewrite length_logs; lia).
    rewrite IH by lia. rewrite nth_logs by lia.
    change (fact (S j)) with (S j * fact j)%nat.
    rewrite mult_INR, ln_mult.
    + ring.
    + apply lt_0_INR; lia.
    + apply INR_fact_lt_0.
Qed.

Lemma length_csl (n : nat) : List.length (Chooser.csl n) = S n.
Proof.
  unfold Chooser.csl. fold (logs n). unfold cumsum. simpl List.length.
  now rewrite length_cumsum_from, length_logs.
Qed.

Lemma nth_csl (n j : nat) :
  (j <= n)%nat -> nth j (Chooser.csl n) 0 = ln (INR (fact j)).
Proof.
  intros Hj. unfold Chooser.csl. destruct j as [|j].
  - simpl. now rewrite ln_1.
  - fold (logs n). simpl nth. unfold cumsum.
    rewrite nth_cumsum_from by (rewrite length_logs; lia).
    rewrite sum_logs by lia. ring.
Qed.

Lemma exp_ln_pow (x : R) (k : nat) : 0 < x -> exp (ln x * INR k) = x ^ k.
Proof.
  intros Hx. rewrite Rmult_comm, <- ln_pow by exact Hx.
  apply exp_ln. now apply pow_lt.
Qed.

Lemma length_tmp (n : nat) (lp lq : R) : List.length (Chooser.tmp n lp lq) = S n.
Proof.
  unfold Chooser.tmp, add, sub, scalar_sub, to_float, arange.
  rewrite !length_map2, !length_scal, !length_rev, !length_map, length_csl, length_seq.
  lia.
Qed.

Lemma nth_tmp (n j : nat) (lp lq : R) :
  (j <= n)%nat ->
  nth j (Chooser.tmp n lp lq) 0
  = ln (INR (fact n)) - ln (INR (fact j)) - ln (INR (fact (n - j)))
    + lp * INR j + lq * INR (n - j).
Proof.
  intros Hj.
  assert (Hseq : forall i, (i <= n)%nat -> nth i (to_float (arange (n + 1))) 0 = INR i).
  { intros i Hi. unfold to_float, arange.
    change 0 with (INR 0). rewrite map_nth, seq_nth by lia. reflexivity. }
  assert (Hlen : List.length (to_float (arange (n + 1))) = S n).
  { unfold to_float, arange. rewrite length_map, length_seq. lia. }
  unfold Chooser.tmp, add, sub.
  rewrite (nth_map2 Rplus _ _ j 0 0 0).
  2:{ rewrite length_map2, length_map2, length_scal, length_rev, length_csl.
      unfold scalar_sub. rewrite length_map, length_csl, Hlen. lia. }
  2:{ rewrite length_scal, length_rev, Hlen. lia. }
  rewrite (nth_map2 Rplus _ _ j 0 0 0).
  2:{ rewrite length_map2, length_rev, length_csl.
      unfold scalar_sub. rewrite length_map, length_csl. lia. }
  2:{ rewrite length_scal, Hlen. lia. }
  rewrite (nth_map2 Rminus _ _ j 0 0 0).
  2:{ unfold scalar_sub. rewrite length_map, length_csl. lia. }
  2:{ rewrite length_rev, length_csl. lia. }
  rewrite !nth_scal.
  rewrite !rev_nth by (rewrite ?length_csl, ?Hlen; lia).
  rewrite length_csl, Hlen.
  replace (S n - S j)%nat with (n - j)%nat by lia.
  rewrite Hseq by lia. rewrite Hseq by lia.
  unfold scalar_sub.
  rewrite (nth_indep _ 0 (nth n (Chooser.csl n) 0 - 0))
    by (rewrite length_map, length_csl; lia).
  rewrite (map_nth (fun x => nth n (Chooser.csl n) 0 - x)).
  rewrite !nth_csl by lia. reflexivity.
Qed.

(** With both logarithms finite, [exp(tmp)] is the binomial weights. *)
Lemma exp_tmp (sp : LT) (n : nat) :
  0 < p sp < 1 -> map exp (Chooser.tmp n (ln (p sp)) (ln (1 - p sp))) = bw sp n.
Proof.
  intros [Hp0 Hp1].
  apply sum_ext_nth.
  - now rewrite length_map, length_tmp, length_bw.
  - intros j Hj. rewrite length_map, length_tmp in Hj.
    rewrite (nth_indep _ 0 (exp 0)) by (rewrite length_map, length_tmp; exact Hj).
    rewrite map_nth, nth_tmp, nth_bw by lia.
    unfold Rminus at 1 2. rewrite !exp_plus, !exp_Ropp.
    rewrite !exp_ln by apply INR_fact_lt_0.
    rewrite !exp_ln_pow by lra.
    unfold C. field. split; apply INR_fact_neq_0.
Qed.

Lemma closed_form_binomial (sp : LT) (n : nat) (O1 : vec) :
  0 < p sp < 1 ->
  Chooser.closed_form sp n O1 = Fin (df_T sp * dot (bw sp n) O1).
Proof.
  intros Hp. unfold Chooser.closed_form, Chooser.np_log.
  destruct (Rlt_dec 0 (p sp)) as [_|H]; [|lra].
  destruct (Rlt_dec 0 (1 - p sp)) as [_|H]; [|lra].
  now rewrite exp_tmp.
Qed.

Lemma closed_form_not_finite (sp : LT) (n : nat) (O1 : vec) :
  p sp <= 0 \/ 1 <= p sp -> Chooser.closed_form sp n O1 = NonFinite.
Proof.
  intros Hp. unfold Chooser.closed_form, Chooser.np_log.
  destruct (Rlt_dec 0 (p sp)); destruct (Rlt_dec 0 (1 - p sp)); auto; lra.
Qed.

(** The loop of the [keep_hist] branch. *)
Lemma chooser_loop_O (sp : LT) (i : nat) (l : lattice) :
  O_ (Chooser.loop sp i l) = back sp i (O_ l).
Proof.
  revert l; induction i as [|i IH]; intros l; [reflexivity|].
  change (Chooser.loop sp (S i) l) with (Chooser.loop sp i (Chooser.step sp (S i) l)).
  now rewrite IH.
Qed.

Lemma chooser_loop_head (sp : LT) (i : nat) (l : lattice) :
  nth 0 (O_tree l) [] = O_ l ->
  nth 0 (O_tree (Chooser.loop sp i l)) [] = O_ (Chooser.loop sp i l).
Proof.
  revert l; induction i as [|i IH]; intros l H; [exact H|].
  change (Chooser.loop sp (S i) l) with (Chooser.loop sp i (Chooser.step sp (S i) l)).
  apply IH. reflexivity.
Qed.

(** The root value of the [keep_hist] branch. *)
Lemma chooser_hist_root (self : OptionValuation) (sp : LT) (n : nat) :
  nth 0 (nth 0 (O_tree (Chooser.loop sp n (init_lattice self sp n))) []) 0
  = df_dt sp ^ n * dot (bw sp n) (payout self (terminal_S self sp n)).
Proof.
  rewrite chooser_loop_head by reflexivity.
  rewrite chooser_loop_O. simpl O_.
  rewrite back_binomial; [reflexivity|].
  now rewrite length_payout, length_terminal_S.
Qed.

End ChooserFacts.

(** ** The vanilla European lattice price, as the specification words it *)

(** Section 4.2: [S_j = S0 * d^(n-j) * u^j] for [j = 0..n], and the
    payout [max(sign * (S_j - K), 0)]. *)
Definition spec_terminal_S (self : OptionValuation) (sp : LT) (n : nat) : Np.vec :=
  map (fun j => S0 (ref self) * d sp ^ (n - j) * u sp ^ j) (seq 0 (n + 1)).

Definition spec_payout (self : OptionValuation) (S1 : Np.vec) : Np.vec :=
  map (fun s => Rmax (signCP self * (s - K self)) 0) S1.

(** Section 4.3: for step [i] from [n] down to 1 the continuation value
    [C = df_dt * ((1-p) * O[0:i] + p * O[1:i+1])], the asset prices one
    step earlier, and [adjust (i-1) S C] as the new option values. *)
Fixpoint spec_engine (adjust : nat -> Np.vec -> Np.vec -> Np.vec) (sp : LT)
    (i : nat) (S1 O1 : Np.vec) : Np.vec :=
  match i with
  | O => O1
  | S i' =>
      let C1 := Np.scal (df_dt sp)
                  (Np.add (Np.scal (1 - p sp) (firstn i O1))
                          (Np.scal (p sp) (firstn i (skipn 1 O1)))) in
      let S' := Np.scal (d sp) (firstn i (skipn 1 S1)) in
      spec_engine adjust sp i' S' (adjust i' S' C1)
  end.

(** The vanilla European price: the engine with the identity adjustment. *)
Definition spec_European_price (self : OptionValuation) (sp : LT) (n : nat) : R :=
  let S1 := spec_terminal_S self sp n in
  nth 0 (spec_engine (fun _ _ C1 => C1) sp n S1 (spec_payout self S1)) 0.

Section EuropeanFacts.

Import Np.

Lemma terminal_S_spec (self : OptionValuation) (sp : LT) (n : nat) :
  terminal_S self sp n = spec_terminal_S self sp n.
Proof.
  apply sum_ext_nth.
  - unfold spec_terminal_S. rewrite length_terminal_S, length_map, length_seq. lia.
  - intros j Hj. rewrite length_terminal_S in Hj.
    unfold terminal_S, mul, pow_arr, arange, spec_terminal_S.
    rewrite (nth_map2 Rmult _ _ j 0 0 0)
      by (rewrite ?length_scal, !length_map, ?length_rev, length_seq; lia).
    rewrite nth_scal.
    rewrite (nth_indep (map (pow (d sp)) _) 0 (d sp ^ 0))
      by (rewrite length_map, length_rev, length_seq; lia).
    rewrite (nth_indep (map (pow (u sp)) _) 0 (u sp ^ 0))
      by (rewrite length_map, length_seq; lia).
    rewrite !(map_nth (pow _)).
    rewrite rev_nth by (rewrite length_seq; lia).
    rewrite length_seq, !seq_nth by lia.
    rewrite (nth_indep _ 0 (S0 (ref self) * d sp ^ (n - 0) * u sp ^ 0))
      by (rewrite length_map, length_seq; lia).
    rewrite (map_nth (fun j => S0 (ref self) * d sp ^ (n - j) * u sp ^ j)).
    rewrite seq_nth by lia. simpl Nat.add.
    replace (n + 1 - S j)%nat with (n - j)%nat by lia. reflexivity.
Qed.

Lemma payout_spec (self : OptionValuation) (S1 : vec) :
  payout self S1 = spec_payout self S1.
Proof.
  unfold payout, spec_payout, maximum_scalar, scal, sub_scalar.
  now rewrite !map_map.
Qed.

Lemma spec_engine_S (adjust : nat -> vec -> vec -> vec) (sp : LT) (i : nat)
    (S1 O1 : vec) :
  spec_engine adjust sp (S i) S1 O1
  = spec_engine adjust sp i (scal (d sp) (firstn (S i) (skipn 1 S1)))
      (adjust i (scal (d sp) (firstn (S i) (skipn 1 S1)))
         (scal (df_dt sp)
            (add (scal (1 - p sp) (firstn (S i) O1))
                 (scal (p sp) (firstn (S i) (skipn 1 O1)))))).
Proof. reflexivity. Qed.

Lemma spec_engine_identity (sp : LT) (i : nat) (S1 O1 : vec) :
  List.length O1 = S i ->
  spec_engine (fun _ _ C1 => C1) sp i S1 O1 = back sp i O1.
Proof.
  revert S1 O1; induction i as [|i IH]; intros S1 O1 HO; [reflexivity|].
  change (back sp (S i) O1) with (back sp i (prior_O sp (S i) O1)).
  rewrite spec_engine_S.
  assert (Hsk : firstn (S i) (skipn 1 O1) = skipn 1 O1).
  { apply firstn_all2. rewrite length_skipn. lia. }
  rewrite Hsk. fold (prior_O sp (S i) O1).
  apply IH. apply length_prior_O. exact HO.
Qed.

Lemma spec_European_price_binomial (self : OptionValuation) (sp : LT) (n : nat) :
  spec_European_price self sp n
  = df_dt sp ^ n * dot (bw sp n) (payout self (terminal_S self sp n)).
Proof.
  unfold spec_European_price.
  rewrite <- terminal_S_spec, <- payout_spec.
  rewrite spec_engine_identity by now rewrite length_payout, length_terminal_S.
  rewrite back_binomial by now rewrite length_payout, length_terminal_S.
  reflexivity.
Qed.

End EuropeanFacts.

(** The binomial sum [sum_j C(n,j) p^j (1-p)^(n-j) payout_j]. *)
Definition binomial_sum (sp : LT) (n : nat) (O1 : Np.vec) : R :=
  Np.sum (map (fun j => C n j * p sp ^ j * (1 - p sp) ^ (n - j) * nth j O1 0)
              (seq 0 (n + 1))).

Lemma dot_as_sum (a b : Np.vec) :
  List.length a = List.length b ->
  dot a b = Np.sum (map (fun j => nth j a 0 * nth j b 0) (seq 0 (List.length a))).
Proof.
  revert b; induction a as [|x a IH]; intros [|y b] H; simpl in H;
    try discriminate; [reflexivity|].
  rewrite dot_cons. simpl List.length.
  change (seq 0 (S (List.length a))) with (0%nat :: seq 1 (List.length a)).
  rewrite <- seq_shift. simpl map. rewrite sum_cons, map_map.
  rewrite IH by lia. reflexivity.
Qed.

Lemma dot_bw_binomial_sum (sp : LT) (n : nat) (O1 : Np.vec) :
  List.length O1 = S n -> dot (bw sp n) O1 = binomial_sum sp n O1.
Proof.
  intros HO. rewrite dot_as_sum by now rewrite length_bw.
  rewrite length_bw. unfold binomial_sum.
  replace (n + 1)%nat with (S n) by lia.
  f_equal. apply map_ext_in. intros j Hj. apply in_seq in Hj.
  rewrite nth_bw by lia. reflexivity.
Qed.

(** ** Chooser: the lattice method *)
Section ChooserLT.

Variable LTm : OptionValuation -> Z -> result LT.
Variable BSm : OptionValuation -> Chooser.state -> result Chooser.state.

(** What an LT call with [n] steps leaves behind when the lattice
    parameters are [sp]. *)
Lemma chooser_calc_px_LT (self : OptionValuation) (tau : option R) (np : option nat)
    (kh : bool) (st : Chooser.state) (n : nat) (sp : LT) :
  LTm self (Z.of_nat n) = Ok sp ->
  Chooser.calc_px LTm BSm self tau "LT" (Some (Z.of_nat n)) np kh st
  = let '(out, rt, ot) := Chooser.LT_out self sp n kh in
    Ok (Chooser.mkState tau
          (add_LT (new_PriceSpec "LT" (Some (Z.of_nat n)) np kh None None)
                  out "binomial tree; Hull Ch.135" sp rt ot)).
Proof.
  intros Hsp.
  unfold Chooser.calc_px, Chooser.dispatch.
  cbn [Chooser.px_spec method new_PriceSpec].
  change (upper "LT") with "LT"%string.
  change (String.eqb "LT" "BS") with false.
  change (String.eqb "LT" "LT") with true.
  cbv iota.
  unfold Chooser._calc_LT.
  cbn [Chooser.px_spec Chooser.tau get_nsteps nsteps keep_hist new_PriceSpec].
  rewrite Hsp. cbn [bind].
  replace (Z.of_nat n <? 0)%Z with false by (symmetry; apply Z.ltb_ge; lia).
  rewrite Nat2Z.id. reflexivity.
Qed.

Lemma chooser_LT_out_hist (self : OptionValuation) (sp : LT) (n : nat) :
  fst (fst (Chooser.LT_out self sp n true))
  = Fin (df_dt sp ^ n * dot (bw sp n) (payout self (terminal_S self sp n))).
Proof. unfold Chooser.LT_out. simpl fst. now rewrite chooser_hist_root. Qed.

Lemma chooser_LT_out_closed (self : OptionValuation) (sp : LT) (n : nat) :
  0 < p sp < 1 ->
  fst (fst (Chooser.LT_out self sp n false))
  = Fin (df_T sp * dot (bw sp n) (payout self (terminal_S self sp n))).
Proof.
  intros Hp. unfold Chooser.LT_out. simpl fst.
  now rewrite closed_form_binomial.
Qed.

Lemma chooser_px_after_LT (self : OptionValuation) (tau : option R) (np : option nat)
    (kh : bool) (st : Chooser.state) (n : nat) (sp : LT) :
  LTm self (Z.of_nat n) = Ok sp ->
  exists s,
    Chooser.calc_px LTm BSm self tau "LT" (Some (Z.of_nat n)) np kh st = Ok s
    /\ px (Chooser.px_spec s) = Some (fst (fst (Chooser.LT_out self sp n kh)))
    /\ forall tau' st',
         exists s',
           Chooser.calc_px LTm BSm self tau' "LT" (Some (Z.of_nat n)) np kh st' = Ok s'
           /\ Chooser.px_spec s' = Chooser.px_spec s.
Proof.
  intros Hsp.
  rewrite (chooser_calc_px_LT self tau np kh st n sp Hsp).
  destruct (Chooser.LT_out self sp n kh) as [[out rt] ot] eqn:E.
  eexists; split; [reflexivity|]. split; [reflexivity|].
  intros tau' st'.
  rewrite (chooser_calc_px_LT self tau' np kh st' n sp Hsp), E.
  eexists; split; reflexivity.
Qed.

(** Where the two branches of [Chooser._calc_LT] do agree: when the
    risk-neutral probability lies strictly between 0 and 1 and
    [df_T = df_dt ^ n], the backward induction of the [keep_hist]
    branch and the sum through logarithms of the other branch both give
    [df_T * sum_j C(n,j) p^j (1-p)^(n-j) payout_j]. *)
Lemma chooser_LT_branches_agree (self : OptionValuation) (tau : option R)
    (np : option nat) (st : Chooser.state) (n : nat) (sp : LT) :
  LTm self (Z.of_nat n) = Ok sp ->
  0 < p sp < 1 ->
  df_T sp = df_dt sp ^ n ->
  exists v s_hist s_closed,
    Chooser.calc_px LTm BSm self tau "LT" (Some (Z.of_nat n)) np true st = Ok s_hist
    /\ Chooser.calc_px LTm BSm self tau "LT" (Some (Z.of_nat n)) np false st
       = Ok s_closed
    /\ px (Chooser.px_spec s_hist) = Some (Fin v)
    /\ px (Chooser.px_spec s_closed) = Some (Fin v)
    /\ v = df_T sp * binomial_sum sp n (payout self (terminal_S self sp n)).
Proof.
  intros Hsp Hp Hdf.
  destruct (chooser_px_after_LT self tau np true st n sp Hsp) as (s1 & E1 & P1 & _).
  destruct (chooser_px_after_LT self tau np false st n sp Hsp) as (s2 & E2 & P2 & _).
  exists (df_T sp * binomial_sum sp n (payout self (terminal_S self sp n))), s1, s2.
  rewrite chooser_LT_out_hist in P1.
  rewrite chooser_LT_out_closed in P2 by exact Hp.
  rewrite dot_bw_binomial_sum in P1, P2
    by now rewrite length_payout, length_terminal_S.
  rewrite <- Hdf in P1. auto.
Qed.

(** Where the Chooser LT method does give the European price: with
    [keep_hist] set, and without it when the risk-neutral probability
    lies strictly between 0 and 1 and [df_T = df_dt ^ n], its price is
    the vanilla European lattice price (the backward induction engine
    with the identity adjustment); whatever the decision time [tau],
    the call records the same [px_spec]. *)
Lemma chooser_LT_is_vanilla_European (self : OptionValuation) (tau : option R)
    (np : option nat) (kh : bool) (st : Chooser.state) (n : nat) (sp : LT) :
  LTm self (Z.of_nat n) = Ok sp ->
  kh = true \/ (0 < p sp < 1 /\ df_T sp = df_dt sp ^ n) ->
  exists s,
    Chooser.calc_px LTm BSm self tau "LT" (Some (Z.of_nat n)) np kh st = Ok s
    /\ px (Chooser.px_spec s) = Some (Fin (spec_European_price self sp n))
    /\ forall tau' st',
         exists s',
           Chooser.calc_px LTm BSm self tau' "LT" (Some (Z.of_nat n)) np kh st' = Ok s'
           /\ Chooser.px_spec s' = Chooser.px_spec s.
Proof.
  intros Hsp Hcase.
  destruct (chooser_px_after_LT self tau np kh st n sp Hsp) as (s & E & P & Htau).
  exists s. split; [exact E|]. split; [|exact Htau].
  rewrite P, spec_European_price_binomial.
  destruct Hcase as [-> | [Hp Hdf]].
  - now rewrite chooser_LT_out_hist.
  - destruct kh.
    + now rewrite chooser_LT_out_hist.
    + rewrite chooser_LT_out_closed by exact Hp. now rewrite Hdf.
Qed.

End ChooserLT.

(** ** Lattices the builder produces *)

Lemma LT_specs_unit (self : OptionValuation) :
  T self = 1 ->
  LT_specs self 1
  = mkLT 1 (exp (vol (ref self))) (1 / exp (vol (ref self)))
         (exp (rf_r self - q (ref self)))
         ((exp (rf_r self - q (ref self)) - 1 / exp (vol (ref self)))
          / (exp (vol (ref self)) - 1 / exp (vol (ref self))))
         (exp (- rf_r self)) (exp (- rf_r self)).
Proof.
  intros HT. unfold LT_specs. rewrite HT. change (INR 1) with 1.
  replace (1 / 1) with 1 by field.
  rewrite sqrt_1, !Rmult_1_r. reflexivity.
Qed.

Lemma exp_gt_1 (x : R) : 0 < x -> 1 < exp x.
Proof. intros H. rewrite <- exp_0. now apply exp_increasing. Qed.

Lemma up_minus_down_pos (x : R) : 0 < x -> 0 < exp x - 1 / exp x.
Proof.
  intros H. pose proof (exp_gt_1 x H) as Hu.
  assert (1 / exp x < 1).
  { apply (Rmult_lt_reg_r (exp x)); [lra|]. field_simplify; lra. }
  lra.
Qed.

(** A call with a 20% volatility on a stock that pays a 25% yield,
    with a 5% rate, over one step of one year: the growth factor [a]
    equals [d], so [p = 0]. *)
Definition call_p0 : OptionValuation :=
  mkOption (mkStock 50 (1 / 5) (1 / 4)) call 52 1 (1 / 20).

(** The same call on a stock without yield and a 20% rate: [a] equals
    [u], so [p = 1]. *)
Definition call_p1 : OptionValuation :=
  mkOption (mkStock 50 (1 / 5) 0) call 52 1 (1 / 5).

Lemma p_call_p0 : p (LT_specs call_p0 1) = 0.
Proof.
  rewrite LT_specs_unit by reflexivity. cbn [p call_p0 rf_r q vol ref].
  replace (1 / 20 - 1 / 4) with (- (1 / 5)) by lra.
  rewrite exp_Ropp.
  replace (/ exp (1 / 5) - 1 / exp (1 / 5)) with 0 by (unfold Rdiv; ring).
  unfold Rdiv; ring.
Qed.

Lemma p_call_p1 : p (LT_specs call_p1 1) = 1.
Proof.
  rewrite LT_specs_unit by reflexivity. cbn [p call_p1 rf_r q vol ref].
  replace (1 / 5 - 0) with (1 / 5) by lra.
  pose proof (exp_gt_1 (1 / 5) ltac:(lra)).
  field. split; nra.
Qed.

Lemma LT_specs_checked_call_p0 :
  LT_specs_checked call_p0 1 = Ok (LT_specs call_p0 1).
Proof.
  unfold LT_specs_checked. change (Z.to_nat 1) with 1%nat.
  cbv zeta. rewrite p_call_p0. cbn [call_p0 vol ref T].
  destruct (Rle_dec (1 / 5) 0); [lra|].
  destruct (Rle_dec 1 0); [lra|].
  change (1 <? 1)%Z with false. cbv iota.
  destruct (Rlt_dec 0 0); [lra|].
  destruct (Rlt_dec 1 0); [lra|]. reflexivity.
Qed.

Lemma LT_specs_checked_call_p1 :
  LT_specs_checked call_p1 1 = Ok (LT_specs call_p1 1).
Proof.
  unfold LT_specs_checked. change (Z.to_nat 1) with 1%nat.
  cbv zeta. rewrite p_call_p1. cbn [call_p1 vol ref T].
  destruct (Rle_dec (1 / 5) 0); [lra|].
  destruct (Rle_dec 1 0); [lra|].
  change (1 <? 1)%Z with false. cbv iota.
  destruct (Rlt_dec 1 0); [lra|].
  destruct (Rlt_dec 1 1); [lra|]. reflexivity.
Qed.

(** A put over two steps of one year, with volatility [ln 2] and rate
    [ln (5/4)]: the lattice has [u = 2], [d = 1/2], [p = 1/2] and a
    discount factor of [4/5] a step. *)
Definition put_two_steps : OptionValuation :=
  mkOption (mkStock 50 (ln 2) 0) put 100 2 (ln (5 / 4)).

Definition lattice_two_steps : LT :=
  mkLT 1 2 (1 / 2) (5 / 4) (1 / 2) (16 / 25) (4 / 5).

Lemma LT_specs_put_two_steps : LT_specs put_two_steps 2 = lattice_two_steps.
Proof.
  unfold LT_specs, lattice_two_steps. cbn [put_two_steps T rf_r q vol ref].
  change (INR 2) with (1 + 1). replace (2 / (1 + 1)) with 1 by field.
  rewrite sqrt_1, !Rmult_1_r.
  replace (ln (5 / 4) - 0) with (ln (5 / 4)) by lra.
  replace (- ln (5 / 4) * 2) with (- ln (5 / 4) + - ln (5 / 4)) by lra.
  rewrite exp_plus, !exp_Ropp, !exp_ln by lra.
  f_equal; field.
Qed.

Lemma LT_specs_checked_put_two_steps :
  LT_specs_checked put_two_steps 2 = Ok lattice_two_steps.
Proof.
  unfold LT_specs_checked. change (Z.to_nat 2) with 2%nat.
  cbv zeta. rewrite LT_specs_put_two_steps.
  cbn [put_two_steps vol ref T p lattice_two_steps].
  pose proof ln_lt_2.
  destruct (Rle_dec (ln 2) 0); [lra|].
  destruct (Rle_dec 2 0); [lra|].
  change (2 <? 1)%Z with false. cbv iota.
  destruct (Rlt_dec (1 / 2) 0); [lra|].
  destruct (Rlt_dec 1 (1 / 2)); [lra|]. reflexivity.
Qed.

(** The closed form plays no part in the lattice method: a Chooser
    whose [_calc_BS] leaves the object as it is. *)
Definition BS_skipped (self : OptionValuation) (st : Chooser.state)
    : result Chooser.state := Ok st.

Definition chooser_fresh : Chooser.state :=
  Chooser.mkState None (new_PriceSpec "BS" None None false None None).

(** ** Chooser: instances *)

(** The hypotheses of [chooser_LT_branches_agree] hold for the two-step
    put. *)
Lemma chooser_LT_branches_agree_witness :
  LT_specs_checked put_two_steps 2 = Ok lattice_two_steps
  /\ 0 < p lattice_two_steps < 1
  /\ df_T lattice_two_steps = df_dt lattice_two_steps ^ 2
  /\ exists v s_hist s_closed,
       Chooser.calc_px LT_specs_checked BS_skipped put_two_steps None "LT"
         (Some 2%Z) None true chooser_fresh = Ok s_hist
       /\ Chooser.calc_px LT_specs_checked BS_skipped put_two_steps None "LT"
            (Some 2%Z) None false chooser_fresh = Ok s_closed
       /\ px (Chooser.px_spec s_hist) = Some (Fin v)
       /\ px (Chooser.px_spec s_closed) = Some (Fin v)
       /\ v = df_T lattice_two_steps
              * binomial_sum lattice_two_steps 2
                  (payout put_two_steps (terminal_S put_two_steps lattice_two_steps 2)).
Proof.
  assert (Hp : 0 < p lattice_two_steps < 1) by (simpl; lra).
  assert (Hdf : df_T lattice_two_steps = df_dt lattice_two_steps ^ 2) by (simpl; lra).
  split; [exact LT_specs_checked_put_two_steps|].
  split; [exact Hp|]. split; [exact Hdf|].
  exact (chooser_LT_branches_agree LT_specs_checked BS_skipped put_two_steps None None
           chooser_fresh 2 lattice_two_steps LT_specs_checked_put_two_steps Hp Hdf).
Defined.

(** C10 (the code at an input where its two branches part): a call on
    a stock without yield and a rate of 20%, over one step of one year,
    has [p = 1].  The backward induction of the [keep_hist] branch
    gives a number; the sum through logarithms of the other branch
    takes [log(1 - p) = -inf], multiplies it by 0 and returns nan. *)
Theorem chooser_LT_branches_differ_at_p1 :
  exists sp v s_hist s_closed,
    LT_specs_checked call_p1 1 = Ok sp
    /\ p sp = 1
    /\ Chooser.calc_px LT_specs_checked BS_skipped call_p1 None "LT"
         (Some 1%Z) None true chooser_fresh = Ok s_hist
    /\ Chooser.calc_px LT_specs_checked BS_skipped call_p1 None "LT"
         (Some 1%Z) None false chooser_fresh = Ok s_closed
    /\ px (Chooser.px_spec s_hist) = Some (Fin v)
    /\ px (Chooser.px_spec s_closed) = Some NonFinite.
Proof.
  pose proof LT_specs_checked_call_p1 as Hsp.
  destruct (chooser_px_after_LT LT_specs_checked BS_skipped call_p1 None None true
              chooser_fresh 1 _ Hsp) as (s1 & E1 & P1 & _).
  destruct (chooser_px_after_LT LT_specs_checked BS_skipped call_p1 None None false
              chooser_fresh 1 _ Hsp) as (s2 & E2 & P2 & _).
  rewrite chooser_LT_out_hist in P1.
  unfold Chooser.LT_out in P2. simpl fst in P2.
  rewrite closed_form_not_finite in P2 by (rewrite p_call_p1; lra).
  eexists _, _, s1, s2.
  repeat split; [exact Hsp | exact p_call_p1 | exact E1 | exact E2 | exact P1 | exact P2].
Qed.

(** The hypotheses of [chooser_LT_is_vanilla_European] hold for the
    two-step put priced without history. *)
Lemma chooser_LT_is_vanilla_European_witness :
  LT_specs_checked put_two_steps 2 = Ok lattice_two_steps
  /\ (false = true
      \/ (0 < p lattice_two_steps < 1
          /\ df_T lattice_two_steps = df_dt lattice_two_steps ^ 2))
  /\ exists s,
       Chooser.calc_px LT_specs_checked BS_skipped put_two_steps (Some 1) "LT"
         (Some 2%Z) None false chooser_fresh = Ok s
       /\ px (Chooser.px_spec s)
          = Some (Fin (spec_European_price put_two_steps lattice_two_steps 2))
       /\ forall tau' st',
            exists s',
              Chooser.calc_px LT_specs_checked BS_skipped put_two_steps tau' "LT"
                (Some 2%Z) None false st' = Ok s'
              /\ Chooser.px_spec s' = Chooser.px_spec s.
Proof.
  assert (Hcase : false = true
                  \/ (0 < p lattice_two_steps < 1
                      /\ df_T lattice_two_steps = df_dt lattice_two_steps ^ 2))
    by (right; simpl; lra).
  split; [exact LT_specs_checked_put_two_steps|]. split; [exact Hcase|].
  exact (chooser_LT_is_vanilla_European LT_specs_checked BS_skipped put_two_steps
           (Some 1) None false chooser_fresh 2 lattice_two_steps
           LT_specs_checked_put_two_steps Hcase).
Defined.

(** C5 (the code at an input where it leaves the European price): a
    call on a stock whose yield exceeds the rate by the volatility has
    [p = 0] over one step of one year.  Without history the price
    [Chooser._calc_LT] records is nan, [log(p) * 0]; the vanilla
    European lattice price is a number, and it is the price the same
    call records with [keep_hist] set. *)
Theorem chooser_LT_not_European_at_p0 :
  exists sp s s_hist,
    LT_specs_checked call_p0 1 = Ok sp
    /\ p sp = 0
    /\ Chooser.calc_px LT_specs_checked BS_skipped call_p0 (Some (1 / 2)) "LT"
         (Some 1%Z) None false chooser_fresh = Ok s
    /\ px (Chooser.px_spec s) = Some NonFinite
    /\ px (Chooser.px_spec s) <> Some (Fin (spec_European_price call_p0 sp 1))
    /\ Chooser.calc_px LT_specs_checked BS_skipped call_p0 (Some (1 / 2)) "LT"
         (Some 1%Z) None true chooser_fresh = Ok s_hist
    /\ px (Chooser.px_spec s_hist) = Some (Fin (spec_European_price call_p0 sp 1)).
Proof.
  pose proof LT_specs_checked_call_p0 as Hsp.
  destruct (chooser_px_after_LT LT_specs_checked BS_skipped call_p0 (Some (1 / 2)) None
              false chooser_fresh 1 _ Hsp) as (s & E & P & _).
  destruct (chooser_px_after_LT LT_specs_checked BS_skipped call_p0 (Some (1 / 2)) None
              true chooser_fresh 1 _ Hsp) as (s1 & E1 & P1 & _).
  unfold Chooser.LT_out in P. simpl fst in P.
  rewrite closed_form_not_finite in P by (rewrite p_call_p0; lra).
  rewrite chooser_LT_out_hist in P1.
  eexists _, s, s1.
  split; [exact Hsp|]. split; [exact p_call_p0|]. split; [exact E|].
  split; [exact P|]. split; [rewrite P; discriminate|]. split; [exact E1|].
  rewrite P1, spec_European_price_binomial. reflexivity.
Qed.

(** ** Shout: the lattice method *)
Section ShoutFacts.

Import Np.

Variable Phi : R -> R.

Lemma Forall2_Rle_refl (a : vec) : Forall2 Rle a a.
Proof. induction a; constructor; auto. apply Rle_refl. Qed.

Lemma Forall2_firstn_Rle (i : nat) (a b : vec) :
  Forall2 Rle a b -> Forall2 Rle (firstn i a) (firstn i b).
Proof.
  intros H; revert i; induction H; intros [|i]; simpl; constructor; auto.
Qed.

Lemma Forall2_skipn_Rle (i : nat) (a b : vec) :
  Forall2 Rle a b -> Forall2 Rle (skipn i a) (skipn i b).
Proof.
  intros H; revert i; induction H; intros [|i]; simpl; auto.
Qed.

Lemma Forall2_scal_Rle (c : R) (a b : vec) :
  0 <= c -> Forall2 Rle a b -> Forall2 Rle (scal c a) (scal c b).
Proof.
  intros Hc H; induction H; simpl; constructor; auto.
  now apply Rmult_le_compat_l.
Qed.

Lemma Forall2_add_Rle (a b c e : vec) :
  Forall2 Rle a b -> Forall2 Rle c e -> Forall2 Rle (add a c) (add b e).
Proof.
  intros H; revert c e; induction H; intros c e H2; destruct H2;
    simpl; constructor; auto.
  now apply Rplus_le_compat.
Qed.

(** The discounted expectation is monotone in the option values. *)
Lemma prior_O_monotone (sp : LT) (i : nat) (a b : vec) :
  0 <= p sp <= 1 -> 0 <= df_dt sp ->
  Forall2 Rle a b -> Forall2 Rle (prior_O sp i a) (prior_O sp i b).
Proof.
  intros Hp Hdf H. unfold prior_O.
  apply Forall2_scal_Rle; [exact Hdf|].
  apply Forall2_add_Rle; apply Forall2_scal_Rle; try lra.
  - now apply Forall2_firstn_Rle.
  - now apply Forall2_skipn_Rle.
Qed.

Lemma maximum_ge_l (a b : vec) :
  List.length a = List.length b -> Forall2 Rle a (maximum a b).
Proof.
  revert b; induction a as [|x a IH]; intros [|y b] H; simpl in H;
    try discriminate; simpl; constructor.
  - apply Rmax_l.
  - apply IH; lia.
Qed.

Lemma Forall2_Rle_trans (a b c : vec) :
  Forall2 Rle a b -> Forall2 Rle b c -> Forall2 Rle a c.
Proof.
  intros H; revert c; induction H; intros c H2; inversion H2; subst;
    constructor; auto.
  eapply Rle_trans; eauto.
Qed.

(** With a positive volatility and a positive remaining time, [d1] is
    computed without an exception. *)
Lemma shout_d1_ok (self : OptionValuation) (tleft : R) :
  0 < vol (ref self) -> 0 < tleft ->
  Shout.d1_of self tleft
  = Ok ((0 + (rf_r self + vol (ref self) ^ 2 / 2) * tleft)
        / (vol (ref self) * sqrt tleft)).
Proof.
  intros Hv Ht. unfold Shout.d1_of, math_sqrt, py_div.
  destruct (Rlt_dec tleft 0); [lra|]. cbn [bind].
  pose proof (sqrt_lt_R0 tleft Ht).
  destruct (Req_dec_T (vol (ref self) * sqrt tleft) 0); [nra|reflexivity].
Qed.

Lemma shout_step_ok (self : OptionValuation) (sp : LT) (n i : nat) (l : lattice) :
  0 < vol (ref self) -> 0 < dt sp ->
  exists d1 d2,
    Shout.step Phi self sp n i l
    = Ok (let O2 := maximum (prior_O sp i (O_ l))
                      (maximum_scalar
                         (map (Shout.shout_value Phi self (INR (n - i + 1) * dt sp) d1 d2)
                              (prior_S sp i (S_ l))) 0) in
          mkLattice (prior_S sp i (S_ l)) O2
                    (prior_S sp i (S_ l) :: S_tree l) (O2 :: O_tree l)).
Proof.
  intros Hv Hdt. unfold Shout.step.
  assert (Ht : 0 < INR (n - i + 1) * dt sp).
  { apply Rmult_lt_0_compat; [apply lt_0_INR; lia | exact Hdt]. }
  rewrite shout_d1_ok by assumption. cbn [bind].
  eexists _, _. reflexivity.
Qed.

(** The Shout values dominate the values of the plain backward
    induction, layer by layer, from loop index [i] down to the root. *)
Lemma shout_loop_dominates (self : OptionValuation) (sp : LT) (n : nat) :
  0 < vol (ref self) -> 0 < dt sp -> 0 <= p sp <= 1 -> 0 <= df_dt sp ->
  forall (i : nat) (le ls : lattice),
    List.length (S_ ls) = S i -> List.length (O_ ls) = S i ->
    Forall2 Rle (O_ le) (O_ ls) ->
    Forall2 (Forall2 Rle) (O_tree le) (O_tree ls) ->
    exists ls',
      Shout.loop Phi self sp n i ls = Ok ls'
      /\ Forall2 Rle (O_ (Chooser.loop sp i le)) (O_ ls')
      /\ Forall2 (Forall2 Rle) (O_tree (Chooser.loop sp i le)) (O_tree ls')
      /\ List.length (O_ ls') = 1%nat.
Proof.
  intros Hv Hdt Hp Hdf.
  induction i as [|i IH]; intros le ls HS HO HOle Htree.
  - exists ls. simpl. auto.
  - change (Chooser.loop sp (S i) le)
      with (Chooser.loop sp i (Chooser.step sp (S i) le)).
    change (Shout.loop Phi self sp n (S i) ls)
      with (l' <- Shout.step Phi self sp n (S i) ls ;; Shout.loop Phi self sp n i l').
    destruct (shout_step_ok self sp n (S i) ls Hv Hdt) as (d1 & d2 & ->).
    cbn [bind]. cbv zeta.
    apply IH; cbn [S_ O_ O_tree Chooser.step].
    + now apply length_prior_S.
    + unfold maximum. rewrite length_map2, length_prior_O by exact HO.
      unfold maximum_scalar. rewrite !length_map, length_prior_S by exact HS. lia.
    + eapply Forall2_Rle_trans.
      * apply prior_O_monotone; eauto.
      * apply maximum_ge_l. rewrite length_prior_O by exact HO.
        unfold maximum_scalar. rewrite !length_map, length_prior_S by exact HS.
        reflexivity.
    + constructor; [|exact Htree].
      eapply Forall2_Rle_trans.
      * apply prior_O_monotone; eauto.
      * apply maximum_ge_l. rewrite length_prior_O by exact HO.
        unfold maximum_scalar. rewrite !length_map, length_prior_S by exact HS.
        reflexivity.
Qed.

End ShoutFacts.

Section ShoutLT.

Variable Phi : R -> R.
Variable LTm : OptionValuation -> Z -> result LT.

(** C3: for a valid parameter set (positive volatility and step
    length, [p] in [[0, 1]], a non-negative discount factor) the Shout
    LT call succeeds, and every node of its option tree holds a value
    greater than or equal to the one the vanilla European backward
    induction (the identity adjustment of the [keep_hist] branch of
    [chooser.py]) gives the same node; in particular the Shout price is
    at least the European one. *)
Theorem shout_LT_dominates_European (self : OptionValuation) (n : nat) (sp : LT)
    (ps : PriceSpec) (tau : option R) :
  nsteps ps = Some (Z.of_nat n) ->
  keep_hist ps = true ->
  LTm self (Z.of_nat n) = Ok sp ->
  0 < vol (ref self) -> 0 < dt sp -> 0 <= p sp <= 1 -> 0 <= df_dt sp ->
  exists s_shout s_eur tree_shout tree_eur v_shout v_eur,
    Shout._calc_LT Phi LTm self (Shout.mkState ps) = Ok s_shout
    /\ Chooser._calc_LT LTm self (Chooser.mkState tau ps) = Ok s_eur
    /\ opt_tree (Shout.px_spec s_shout) = Some tree_shout
    /\ opt_tree (Chooser.px_spec s_eur) = Some tree_eur
    /\ Forall2 (Forall2 Rle) tree_eur tree_shout
    /\ px (Shout.px_spec s_shout) = Some (Fin v_shout)
    /\ px (Chooser.px_spec s_eur) = Some (Fin v_eur)
    /\ v_eur <= v_shout.
Proof.
  intros Hn Hk Hsp Hv Hdt Hp Hdf.
  set (l0 := init_lattice self sp n).
  destruct (shout_loop_dominates Phi self sp n Hv Hdt Hp Hdf n l0 l0)
    as (ls & Hloop & HO & Htree & Hlen).
  { unfold l0. cbn [S_ init_lattice]. apply length_terminal_S. }
  { unfold l0. cbn [O_ init_lattice]. rewrite length_payout. apply length_terminal_S. }
  { apply Forall2_Rle_refl. }
  { unfold l0. cbn [O_tree init_lattice]. constructor; [apply Forall2_Rle_refl|constructor]. }
  destruct (O_ ls) as [|x [|? ?]] eqn:EO; try discriminate.
  assert (Hhead : nth 0 (O_tree (Chooser.loop sp n l0)) [] = O_ (Chooser.loop sp n l0))
    by (apply chooser_loop_head; reflexivity).
  inversion HO as [|y ? ? ? Hyx Hrest Ey]; subst. inversion Hrest; subst.
  exists (Shout.mkState
            (add_method
               (add_LT ps (Fin x) "binomial tree; Hull Ch.13" sp
                       (Some (S_tree ls)) (Some (O_tree ls)))
               "LT")),
         (Chooser.mkState tau
            (add_LT ps (Fin y) "binomial tree; Hull Ch.135" sp
                    (Some (S_tree (Chooser.loop sp n l0)))
                    (Some (O_tree (Chooser.loop sp n l0))))),
         (O_tree ls), (O_tree (Chooser.loop sp n l0)), x, y.
  split.
  { unfold Shout._calc_LT, get_nsteps. cbn [Shout.px_spec]. rewrite Hn, Hsp, Hk.
    cbn [bind].
    replace (Z.of_nat n <? 0)%Z with false by (symmetry; apply Z.ltb_ge; lia).
    rewrite Nat2Z.id. unfold Shout.LT_lattice. fold l0. rewrite Hloop.
    cbn [bind]. rewrite EO. reflexivity. }
  split.
  { unfold Chooser._calc_LT, get_nsteps. cbn [Chooser.px_spec Chooser.tau].
    rewrite Hn, Hsp, Hk. cbn [bind].
    replace (Z.of_nat n <? 0)%Z with false by (symmetry; apply Z.ltb_ge; lia).
    rewrite Nat2Z.id. unfold Chooser.LT_out. fold l0.
    rewrite Hhead, <- Ey. reflexivity. }
  repeat split; auto.
Qed.

End ShoutLT.

(** ** Shout: instances *)

(** The theorem holds whatever function stands for the normal CDF;
    the instance takes a constant one. *)
Definition Phi_half (x : R) : R := 1 / 2.

Definition LT_hist_two_steps : PriceSpec :=
  new_PriceSpec "LT" (Some 2%Z) None true None None.

(** The hypotheses of [shout_LT_dominates_European] hold for the
    two-step put. *)
Lemma shout_LT_dominates_European_witness :
  LT_specs_checked put_two_steps 2 = Ok lattice_two_steps
  /\ 0 < vol (ref put_two_steps)
  /\ 0 < dt lattice_two_steps
  /\ 0 <= p lattice_two_steps <= 1
  /\ 0 <= df_dt lattice_two_steps
  /\ exists s_shout s_eur tree_shout tree_eur v_shout v_eur,
       Shout._calc_LT Phi_half LT_specs_checked put_two_steps
         (Shout.mkState LT_hist_two_steps) = Ok s_shout
       /\ Chooser._calc_LT LT_specs_checked put_two_steps
            (Chooser.mkState None LT_hist_two_steps) = Ok s_eur
       /\ opt_tree (Shout.px_spec s_shout) = Some tree_shout
       /\ opt_tree (Chooser.px_spec s_eur) = Some tree_eur
       /\ Forall2 (Forall2 Rle) tree_eur tree_shout
       /\ px (Shout.px_spec s_shout) = Some (Fin v_shout)
       /\ px (Chooser.px_spec s_eur) = Some (Fin v_eur)
       /\ v_eur <= v_shout.
Proof.
  assert (Hv : 0 < vol (ref put_two_steps)) by (pose proof ln_lt_2; simpl; lra).
  assert (Hdt : 0 < dt lattice_two_steps) by (simpl; lra).
  assert (Hp : 0 <= p lattice_two_steps <= 1) by (simpl; lra).
  assert (Hdf : 0 <= df_dt lattice_two_steps) by (simpl; lra).
  split; [exact LT_specs_checked_put_two_steps|].
  split; [exact Hv|]. split; [exact Hdt|]. split; [exact Hp|]. split; [exact Hdf|].
  exact (shout_LT_dominates_European Phi_half LT_specs_checked put_two_steps 2
           lattice_two_steps LT_hist_two_steps None eq_refl eq_refl
           LT_specs_checked_put_two_steps Hv Hdt Hp Hdf).
Defined.

(** The [d1] of the specification's Shout adjustment:
    [(r - q + sigma^2 / 2) * tleft / (sigma * sqrt tleft)]. *)
Definition spec_d1 (self : OptionValuation) (tleft : R) : R :=
  (rf_r self - q (ref self) + vol (ref self) ^ 2 / 2) * tleft
  / (vol (ref self) * sqrt tleft).

(** The locked shout value of the specification. *)
Definition spec_shout_value (Phi : R -> R) (self : OptionValuation)
    (tleft d1 d2 s : R) : R :=
  signCP self * s * exp (- q (ref self) * tleft) * Phi (signCP self * d1)
  - signCP self * s * exp (- rf_r self * tleft) * Phi (signCP self * d2)
  + signCP self * (s - K self) * exp (- rf_r self * tleft).

(** Given [d1] and [d2], the code's locked value is the specification's. *)
Lemma shout_value_spec (Phi : R -> R) (self : OptionValuation) (tleft d1 d2 s : R) :
  Shout.shout_value Phi self tleft d1 d2 s = spec_shout_value Phi self tleft d1 d2 s.
Proof.
  unfold Shout.shout_value, spec_shout_value.
  replace (- q (ref self) * tleft) with (- (q (ref self) * tleft)) by ring.
  replace (- rf_r self * tleft) with (- (rf_r self * tleft)) by ring.
  rewrite !exp_Ropp. unfold Rdiv. ring.
Qed.

(** Without a dividend yield the code's [d1] is the specification's. *)
Lemma shout_d1_spec_without_yield (self : OptionValuation) (tleft : R) :
  0 < vol (ref self) -> 0 < tleft -> q (ref self) = 0 ->
  Shout.d1_of self tleft = Ok (spec_d1 self tleft).
Proof.
  intros Hv Ht Hq. rewrite shout_d1_ok by assumption.
  unfold spec_d1. rewrite Hq. f_equal. f_equal. ring.
Qed.

(** The Shout call of the docstring, on a stock that pays a 2% yield. *)
Definition shout_call_with_yield : OptionValuation :=
  mkOption (mkStock 50 (3 / 10) (1 / 50)) call 52 2 (1 / 20).

(** C2 (the code at an input with a dividend yield): one step before
    maturity on a lattice with [dt = 1] the code computes
    [d1 = (r + sigma^2/2) / sigma = 19/60], with no [q] in it, where the
    specification's formula gives [(r - q + sigma^2/2) / sigma = 1/4]. *)
Theorem shout_d1_leaves_out_dividend_yield :
  Shout.d1_of shout_call_with_yield 1 = Ok (19 / 60)
  /\ spec_d1 shout_call_with_yield 1 = 1 / 4.
Proof.
  split.
  - rewrite shout_d1_ok by (simpl; lra).
    cbn [shout_call_with_yield rf_r vol ref]. rewrite sqrt_1. f_equal. field.
  - unfold spec_d1. cbn [shout_call_with_yield rf_r vol q ref].
    rewrite sqrt_1. field.
Qed.

(** ** Bermudan: the stored exercise schedule *)

Section BermudanSchedule.

Import Np.

Lemma fold_left_Rmax_ge_init (l : vec) (acc : R) : acc <= fold_left Rmax l acc.
Proof.
  revert acc; induction l as [|x l IH]; intros acc; simpl; [lra|].
  eapply Rle_trans; [apply (Rmax_l acc x)|apply IH].
Qed.

Lemma fold_left_Rmax_ge (l : vec) (acc : R) :
  Forall (fun y => y <= fold_left Rmax l acc) l.
Proof.
  revert acc; induction l as [|x l IH]; intros acc; simpl; constructor.
  - eapply Rle_trans; [apply (Rmax_r acc x)|apply fold_left_Rmax_ge_init].
  - apply IH.
Qed.

Lemma py_max_ge (t : vec) (m : R) :
  Bermudan.py_max t = Ok m -> Forall (fun y => y <= m) t.
Proof.
  destruct t as [|x t]; simpl; intros H; [discriminate|].
  injection H as <-. constructor.
  - apply fold_left_Rmax_ge_init.
  - apply fold_left_Rmax_ge.
Qed.

Lemma StronglySorted_filter_Rlt (f : R -> bool) (l : vec) :
  StronglySorted Rlt l -> StronglySorted Rlt (filter f l).
Proof.
  induction 1 as [|x l Hs IH Hx]; simpl; [constructor|].
  destruct (f x); [|exact IH].
  constructor; [exact IH|].
  rewrite Forall_forall in *. intros y Hy.
  apply filter_In in Hy. apply Hx, Hy.
Qed.

Lemma StronglySorted_snoc_Rlt (l : vec) (y : R) :
  StronglySorted Rlt l -> Forall (fun x => x < y) l -> StronglySorted Rlt (l ++ [y]).
Proof.
  induction 1 as [|x l Hs IH Hx]; intros Hy; simpl.
  - repeat constructor.
  - inversion Hy; subst. constructor; [apply IH; assumption|].
    apply Forall_app; split; [exact Hx|]. constructor; [assumption|constructor].
Qed.

Lemma Forall_removelast {A : Type} (P : A -> Prop) (l : list A) :
  Forall P l -> Forall P (removelast l).
Proof.
  induction 1 as [|x l Hx Hl IH]; simpl; [constructor|].
  destruct l; [constructor|]. constructor; assumption.
Qed.

Lemma StronglySorted_removelast_Rlt (l : vec) :
  StronglySorted Rlt l -> StronglySorted Rlt (removelast l).
Proof.
  induction 1 as [|x l Hs IH Hx]; simpl; [constructor|].
  destruct l as [|y l]; [constructor|].
  constructor; [exact IH|]. now apply (Forall_removelast _ (y :: l)).
Qed.

Lemma epsilon_pos : 0 < Bermudan.epsilon.
Proof. unfold Bermudan.epsilon. apply Rinv_0_lt_compat. apply pow_lt. lra. Qed.

(** A strictly increasing positive schedule is stored as a strictly
    increasing schedule in (0, T] that ends at [T], unless
    [self.T - max(tex)] is exactly [epsilon]. *)
Lemma normalize_sorted (self : OptionValuation) (Tmax : R) (t : vec) :
  Bermudan.py_max t = Ok Tmax ->
  StronglySorted Rlt t ->
  Forall (Rlt 0) t ->
  0 < T self ->
  T self - Tmax <> Bermudan.epsilon ->
  let t' := snd (Bermudan.normalize self Tmax t) in
  StronglySorted Rlt t'
  /\ Forall (fun x => 0 < x <= T self) t'
  /\ last t' 0 = T self.
Proof.
  intros Hmax Hs Hpos HT Hne. pose proof epsilon_pos as He.
  pose proof (py_max_ge t Tmax Hmax) as Hle.
  unfold Bermudan.normalize.
  destruct (Rlt_dec (T self - Tmax) Bermudan.epsilon) as [Hlt|Hnlt]; cbn [snd].
  - assert (Hf : Forall (fun x => x < T self) (filter (fun x => Bermudan.Rltb x (T self)) t)).
    { rewrite Forall_forall. intros x Hx. apply filter_In in Hx as [_ Hx].
      unfold Bermudan.Rltb in Hx. destruct (Rlt_dec x (T self)); [assumption|discriminate]. }
    split; [|split].
    + apply StronglySorted_snoc_Rlt; [now apply StronglySorted_filter_Rlt|exact Hf].
    + apply Forall_app; split.
      * rewrite Forall_forall in *. intros x Hx.
        specialize (Hf x Hx). apply filter_In in Hx as [Hx _].
        specialize (Hpos x Hx). lra.
      * constructor; [lra|constructor].
    + apply last_last.
  - destruct (Rlt_dec Bermudan.epsilon (T self - Tmax)) as [Hgt|Hngt]; cbn [snd]; [|lra].
    assert (Hf : Forall (fun x => x < T self) (removelast t)).
    { apply Forall_removelast. rewrite Forall_forall in *. intros x Hx.
      specialize (Hle x Hx). lra. }
    split; [|split].
    + apply StronglySorted_snoc_Rlt; [now apply StronglySorted_removelast_Rlt|exact Hf].
    + apply Forall_app; split.
      * pose proof (Forall_removelast _ t Hpos) as Hp'.
        rewrite Forall_forall in *. intros x Hx.
        specialize (Hf x Hx). specialize (Hp' x Hx). lra.
      * constructor; [lra|constructor].
    + apply last_last.
Qed.

End BermudanSchedule.

(** ** Bermudan: the calls *)
Section BermudanCalls.

Import Np.

Variable LTm : OptionValuation -> Z -> result LT.
Variable seedf : Z -> result Bermudan.generator.
Variable polyfit : nvec -> nvec -> Z -> result nvec.

(** A method that leaves [self.tex] alone. *)
Definition keeps_tex {A : Type} (c : Bermudan.M A) : Prop :=
  forall st, Bermudan.tex (fst (c st)) = Bermudan.tex st.

Lemma keeps_tex_bind {A B : Type} (c : Bermudan.M A) (k : A -> Bermudan.M B) :
  keeps_tex c -> (forall x, keeps_tex (k x)) -> keeps_tex (Bermudan.bindM c k).
Proof.
  intros Hc Hk st. unfold Bermudan.bindM.
  specialize (Hc st). destruct (c st) as [st' [x|e]]; cbn [fst] in *.
  - now rewrite Hk.
  - exact Hc.
Qed.

Lemma keeps_tex_lift {A : Type} (c : result A) : keeps_tex (Bermudan.lift c).
Proof. intros st. reflexivity. Qed.

Lemma keeps_tex_ret {A : Type} (x : A) : keeps_tex (Bermudan.ret x).
Proof. intros st. reflexivity. Qed.

Lemma keeps_tex_raise {A : Type} (e : exn) : keeps_tex (@Bermudan.raise A e).
Proof. intros st. reflexivity. Qed.

Lemma keeps_tex_get : keeps_tex Bermudan.get.
Proof. intros st. reflexivity. Qed.

Lemma keeps_tex_set_rng (g : Bermudan.generator) : keeps_tex (Bermudan.set_rng g).
Proof. intros st. reflexivity. Qed.

Lemma keeps_tex_set_px_spec (ps : PriceSpec) : keeps_tex (Bermudan.set_px_spec ps).
Proof. intros st. reflexivity. Qed.

Create HintDb keeps discriminated.
#[local] Hint Resolve keeps_tex_lift keeps_tex_ret keeps_tex_raise keeps_tex_get
  keeps_tex_set_rng keeps_tex_set_px_spec : keeps.

Ltac keeps_tex_step :=
  first [ apply keeps_tex_bind; [|intros ?] | solve [auto with keeps] ].

Lemma keeps_tex_calc_LT (self : OptionValuation) :
  keeps_tex (Bermudan._calc_LT LTm self).
Proof.
  unfold Bermudan._calc_LT. repeat keeps_tex_step.
  destruct (_ <? 0)%Z; repeat keeps_tex_step.
Qed.

Lemma keeps_tex_calc_MC (self : OptionValuation) :
  keeps_tex (Bermudan._calc_MC polyfit self).
Proof.
  unfold Bermudan._calc_MC. repeat keeps_tex_step.
  destruct (Bermudan.generate_stock_price_paths _ _ _ _) as [paths g].
  repeat keeps_tex_step.
  destruct (keep_hist _); repeat keeps_tex_step.
Qed.

Lemma keeps_tex_dispatch (self : OptionValuation) (method : string) :
  keeps_tex (Bermudan.dispatch LTm polyfit self method).
Proof.
  unfold Bermudan.dispatch.
  repeat match goal with |- keeps_tex (if ?b then _ else _) => destruct b end;
    auto using keeps_tex_calc_LT, keeps_tex_calc_MC with keeps.
Qed.

(** [calc_px] once the seed is accepted and the schedule is not empty:
    the generator and the schedule are replaced, then the step count is
    worked out and the method called. *)
Lemma bermudan_calc_px_unfold (self : OptionValuation) (method : string) (tex0 : vec)
    (nsteps : option Z) (npaths : option nat) (kh : bool) (deg : option Z) (seed : Z)
    (st : Bermudan.state) (g : Bermudan.generator) (Tmax : R) :
  seedf seed = Ok g ->
  Bermudan.py_max tex0 = Ok Tmax ->
  Bermudan.calc_px LTm seedf polyfit self method tex0 nsteps npaths kh deg seed st
  = Bermudan.bindM
      (Bermudan.lift
         (Bermudan.knsteps (fst (Bermudan.normalize self Tmax tex0)) Tmax
            (snd (Bermudan.normalize self Tmax tex0)) nsteps))
      (fun k =>
         Bermudan.bindM
           (Bermudan.set_px_spec
              (new_PriceSpec method (Some k) npaths kh deg (Some seed)))
           (fun _ => Bermudan.dispatch LTm polyfit self method))
      (Bermudan.mkState g (snd (Bermudan.normalize self Tmax tex0))
                        (Bermudan.px_spec st)).
Proof.
  intros Hs Hm.
  unfold Bermudan.calc_px.
  unfold Bermudan.bindM at 1. unfold Bermudan.lift at 1. rewrite Hs.
  unfold Bermudan.bindM at 1. unfold Bermudan.set_rng at 1. cbn [Bermudan.tex Bermudan.px_spec].
  unfold Bermudan.bindM at 1. unfold Bermudan.lift at 1. rewrite Hm.
  destruct (Bermudan.normalize self Tmax tex0) as [numpy tex'].
  unfold Bermudan.bindM at 1. unfold Bermudan.set_tex at 1.
  cbn [Bermudan.rng Bermudan.px_spec fst snd]. reflexivity.
Qed.

Lemma bermudan_calc_px_tex (self : OptionValuation) (method : string) (tex0 : vec)
    (nsteps : option Z) (npaths : option nat) (kh : bool) (deg : option Z) (seed : Z)
    (st : Bermudan.state) (g : Bermudan.generator) (Tmax : R) :
  seedf seed = Ok g ->
  Bermudan.py_max tex0 = Ok Tmax ->
  Bermudan.tex
    (fst (Bermudan.calc_px LTm seedf polyfit self method tex0 nsteps npaths kh deg
            seed st))
  = snd (Bermudan.normalize self Tmax tex0).
Proof.
  intros Hs Hm. rewrite (bermudan_calc_px_unfold _ _ _ _ _ _ _ _ _ g Tmax Hs Hm).
  rewrite keeps_tex_bind; [reflexivity|apply keeps_tex_lift|].
  intros k. apply keeps_tex_bind; [apply keeps_tex_set_px_spec|].
  intros _. apply keeps_tex_dispatch.
Qed.

(** C6 (amended): when the caller's schedule is strictly increasing
    with positive times, the maturity is positive and
    [self.T - max(tex)] is not exactly 1e-11, the schedule [calc_px]
    stores is strictly increasing, lies in (0, T] and ends at [T];
    this holds whether or not the rest of the call succeeds. *)
Theorem bermudan_stored_schedule (self : OptionValuation) (method : string)
    (tex0 : vec) (nsteps : option Z) (npaths : option nat) (kh : bool)
    (deg : option Z) (seed : Z) (st : Bermudan.state) (g : Bermudan.generator)
    (Tmax : R) :
  seedf seed = Ok g ->
  Bermudan.py_max tex0 = Ok Tmax ->
  StronglySorted Rlt tex0 ->
  Forall (Rlt 0) tex0 ->
  0 < T self ->
  T self - Tmax <> Bermudan.epsilon ->
  let st' := fst (Bermudan.calc_px LTm seedf polyfit self method tex0 nsteps npaths
                    kh deg seed st) in
  StronglySorted Rlt (Bermudan.tex st')
  /\ Forall (fun x => 0 < x <= T self) (Bermudan.tex st')
  /\ last (Bermudan.tex st') 0 = T self.
Proof.
  intros Hs Hm Hsorted Hpos HT Hne st'. unfold st'.
  rewrite (bermudan_calc_px_tex _ _ _ _ _ _ _ _ _ g Tmax Hs Hm).
  now apply normalize_sorted.
Qed.

End BermudanCalls.

(** ** Bermudan: Monte Carlo *)

(** The simulated prices at the first exercise date [t0], path by
    path: [paths[:, 1]]. *)
Definition first_date_prices (self : OptionValuation) (m : nat) (t0 : R)
    (g : Bermudan.generator) : Np.nvec :=
  map (fun j => Np.nmul (Fin (S0 (ref self))) (Bermudan.discount self (t0 - 0) (g j)))
      (seq 0 m).

(** The same prices as reals, for a first date that is not negative. *)
Definition first_date_reals (self : OptionValuation) (m : nat) (t0 : R)
    (g : Bermudan.generator) : Np.vec :=
  map (fun j => S0 (ref self)
                * exp ((rf_r self - q (ref self) - 0.5 * vol (ref self) ^ 2) * t0
                       + vol (ref self) * g j * sqrt t0))
      (seq 0 m).

Lemma first_date_prices_finite (self : OptionValuation) (m : nat) (t0 : R)
    (g : Bermudan.generator) :
  0 <= t0 -> first_date_prices self m t0 g = map Fin (first_date_reals self m t0 g).
Proof.
  intros Ht. unfold first_date_prices, first_date_reals. rewrite map_map.
  apply map_ext. intros j. unfold Bermudan.discount, Bermudan.np_sqrt.
  rewrite Rminus_0_r. destruct (Rlt_dec t0 0) as [E|_]; [lra|]. reflexivity.
Qed.

Lemma first_date_prices_nan (self : OptionValuation) (m : nat) (t0 : R)
    (g : Bermudan.generator) :
  t0 < 0 -> first_date_prices self m t0 g = repeat NonFinite m.
Proof.
  intros Ht. unfold first_date_prices.
  assert (H : forall a, map (fun j => Np.nmul (Fin (S0 (ref self)))
                                       (Bermudan.discount self (t0 - 0) (g j)))
                            (seq a m) = repeat NonFinite m).
  { induction m as [|m IH]; intros a; [reflexivity|].
    cbn [seq map repeat]. rewrite IH. f_equal.
    unfold Bermudan.discount, Bermudan.np_sqrt. rewrite Rminus_0_r.
    destruct (Rlt_dec t0 0) as [_|N]; [reflexivity|contradiction]. }
  apply H.
Qed.

Lemma bermudan_payout_finite (self : OptionValuation) (v : Np.vec) :
  Bermudan.payout self (map Fin v) = map Fin (payout self v).
Proof.
  rewrite payout_spec. unfold Bermudan.payout, spec_payout. now rewrite !map_map.
Qed.

Lemma finite_map_Fin (v : Np.vec) : Np.finite (map Fin v) = Some v.
Proof. induction v as [|x v IH]; simpl; [reflexivity|]. now rewrite IH. Qed.

Lemma np_mean_finite (v : Np.vec) :
  v <> [] -> Bermudan.np_mean (map Fin v) = Fin (Np.mean v).
Proof.
  intros Hv. destruct v as [|x v]; [contradiction|].
  unfold Bermudan.np_mean. cbn [map Np.finite].
  change (map Fin v) with (map Fin v). now rewrite (finite_map_Fin v).
Qed.

Lemma np_mean_nan (self : OptionValuation) (m : nat) :
  Bermudan.np_mean (Bermudan.payout self (repeat NonFinite m)) = NonFinite.
Proof. destruct m; reflexivity. Qed.

Section BermudanMC.

Import Np.

Variable LTm : OptionValuation -> Z -> result LT.
Variable seedf : Z -> result Bermudan.generator.
Variable polyfit : nvec -> nvec -> Z -> result nvec.

Lemma bermudan_calc_px_seed_raise (self : OptionValuation) (method : string)
    (tex0 : vec) (nsteps : option Z) (npaths : option nat) (kh : bool)
    (deg : option Z) (seed : Z) (st : Bermudan.state) (e : exn) :
  seedf seed = Raise e ->
  Bermudan.calc_px LTm seedf polyfit self method tex0 nsteps npaths kh deg seed st
  = (st, Raise e).
Proof.
  intros Hs. unfold Bermudan.calc_px, Bermudan.bindM, Bermudan.lift.
  now rewrite Hs.
Qed.

Lemma bermudan_calc_px_max_raise (self : OptionValuation) (method : string)
    (tex0 : vec) (nsteps : option Z) (npaths : option nat) (kh : bool)
    (deg : option Z) (seed : Z) (st : Bermudan.state) (g : Bermudan.generator)
    (e : exn) :
  seedf seed = Ok g ->
  Bermudan.py_max tex0 = Raise e ->
  Bermudan.calc_px LTm seedf polyfit self method tex0 nsteps npaths kh deg seed st
  = (Bermudan.mkState g (Bermudan.tex st) (Bermudan.px_spec st), Raise e).
Proof.
  intros Hs Hm.
  unfold Bermudan.calc_px, Bermudan.bindM, Bermudan.lift, Bermudan.set_rng.
  rewrite Hs. cbv iota beta. now rewrite Hm.
Qed.

Lemma bermudan_after_knsteps (r : result Z) (ps : Z -> PriceSpec)
    (f : Bermudan.M unit) (st : Bermudan.state) :
  Bermudan.bindM (Bermudan.lift r)
    (fun k => Bermudan.bindM (Bermudan.set_px_spec (ps k)) (fun _ => f)) st
  = match r with
    | Ok k => f (Bermudan.mkState (Bermudan.rng st) (Bermudan.tex st) (ps k))
    | Raise e => (st, Raise e)
    end.
Proof. destruct r; reflexivity. Qed.

(** C9: two [calc_px] calls with the same arguments and seed, started
    from any two states of the object and of numpy's global generator,
    end the same way; when they succeed they leave the same generator,
    the same schedule and the same [px_spec] (the price and, with
    [keep_hist], the path matrices): the generator the call draws from
    is the one [np.random.seed(seed)] installs at its start. *)
Theorem bermudan_calc_px_deterministic (self : OptionValuation) (method : string)
    (tex0 : vec) (nsteps : option Z) (npaths : option nat) (kh : bool)
    (deg : option Z) (seed : Z) (st1 st2 : Bermudan.state) :
  let run := Bermudan.calc_px LTm seedf polyfit self method tex0 nsteps npaths kh
               deg seed in
  snd (run st1) = snd (run st2)
  /\ (snd (run st1) = Ok tt -> fst (run st1) = fst (run st2)).
Proof.
  intros run. unfold run.
  destruct (seedf seed) as [g|e] eqn:Hs.
  2:{ rewrite !(bermudan_calc_px_seed_raise _ _ _ _ _ _ _ _ _ e Hs).
      cbn [snd]. split; [reflexivity|discriminate]. }
  destruct (Bermudan.py_max tex0) as [Tmax|e] eqn:Hm.
  2:{ rewrite !(bermudan_calc_px_max_raise _ _ _ _ _ _ _ _ _ g e Hs Hm).
      cbn [snd]. split; [reflexivity|discriminate]. }
  rewrite !(bermudan_calc_px_unfold LTm seedf polyfit _ _ _ _ _ _ _ _ _ g Tmax Hs Hm).
  rewrite !bermudan_after_knsteps.
  destruct (Bermudan.knsteps _ Tmax _ nsteps) as [k|e]; cbn [Bermudan.rng Bermudan.tex].
  - split; [reflexivity|intros _; reflexivity].
  - cbn [snd]. split; [reflexivity|discriminate].
Qed.

Lemma backward_below_2 (deg : Z) (paths po : matrix) (i : nat) (tp : matrix) :
  (i < 2)%nat -> Bermudan.backward polyfit deg paths po i tp = Ok tp.
Proof.
  intros Hi. destruct i as [|[|i]]; try lia; reflexivity.
Qed.

Lemma backward_S (deg : Z) (paths po : matrix) (i : nat) (tp : matrix) :
  Bermudan.backward polyfit deg paths po (S i) tp
  = if (S i <? 2)%nat then Ok tp
    else tp1 <- Bermudan.regress polyfit deg paths po (S i) tp ;;
         Bermudan.backward polyfit deg paths po i tp1.
Proof. reflexivity. Qed.

Lemma nth_error_set_column_other (m : matrix) (k j : nat) (c : nvec) :
  k <> j -> nth_error (Bermudan.set_column m k c) j = nth_error m j.
Proof.
  revert k j; induction m as [|x m IH]; intros k j Hkj.
  - destruct k; reflexivity.
  - destruct k as [|k], j as [|j]; simpl; try reflexivity; try lia.
    apply IH. lia.
Qed.

(** The regression loop writes the columns from 2 on only. *)
Lemma backward_keeps_column_1 (deg : Z) (paths po : matrix) (i : nat) (tp tp' : matrix) :
  Bermudan.backward polyfit deg paths po i tp = Ok tp' ->
  nth_error tp' 1 = nth_error tp 1.
Proof.
  revert tp tp'; induction i as [|i IH]; intros tp tp' H.
  - simpl in H. now injection H as <-.
  - rewrite backward_S in H.
    destruct (S i <? 2)%nat eqn:E; [now injection H as <-|].
    apply Nat.ltb_ge in E.
    unfold Bermudan.regress in H.
    destruct (polyfit _ _ deg) as [c|e]; [|discriminate].
    cbn [bind] in H. apply IH in H. rewrite H.
    apply nth_error_set_column_other. lia.
Qed.

(** The loop fails only where [np.polyfit] does, and only when it is
    entered. *)
Lemma backward_raise (deg : Z) (paths po : matrix) (i : nat) (tp : matrix) (e : exn) :
  Bermudan.backward polyfit deg paths po i tp = Raise e ->
  (2 <= i)%nat /\ exists x y, polyfit x y deg = Raise e.
Proof.
  revert tp; induction i as [|i IH]; intros tp H.
  - discriminate.
  - rewrite backward_S in H.
    destruct (S i <? 2)%nat eqn:E; [discriminate|].
    apply Nat.ltb_ge in E. split; [exact E|].
    unfold Bermudan.regress in H.
    destruct (polyfit _ _ deg) as [c|e'] eqn:Ef.
    + cbn [bind] in H. apply IH in H. apply H.
    + cbn [bind] in H. injection H as <-. eauto.
Qed.

Lemma length_normal (g : Bermudan.generator) (k : nat) :
  List.length (fst (Bermudan.normal g k)) = k.
Proof. unfold Bermudan.normal. cbn [fst]. now rewrite length_map, length_seq. Qed.

Lemma map2_repeat {A B C : Type} (f : A -> B -> C) (a : A) (l : list B) :
  map2 f (repeat a (List.length l)) l = map (f a) l.
Proof. induction l as [|y l IH]; simpl; [reflexivity|]. now rewrite IH. Qed.

(** The matrix of paths when there is at least one exercise date. *)
Lemma generate_paths_cons (self : OptionValuation) (k : nat) (t0 : R)
    (rest : vec) (g : Bermudan.generator) :
  exists columns g',
    Bermudan.generate_stock_price_paths self k (Bermudan.delta_T_array (t0 :: rest)) g
    = (repeat (Fin (S0 (ref self))) k :: first_date_prices self k t0 g :: columns, g').
Proof.
  unfold Bermudan.generate_stock_price_paths, Bermudan.delta_T_array.
  cbn [Bermudan.delta_Ts_from Bermudan.propagate]. unfold Bermudan.normal.
  destruct (Bermudan.propagate self k _ _ _) as [cols g2].
  exists cols, g2. f_equal. f_equal. f_equal.
  unfold first_date_prices.
  pose proof (map2_repeat nmul (Fin (S0 (ref self)))
                (map (Bermudan.discount self (t0 - 0)) (map g (seq 0 k)))) as H.
  rewrite !length_map, length_seq in H. rewrite H, !map_map. reflexivity.
Qed.

(** What a Monte Carlo call does on a schedule that is not empty: it
    fails only where [np.polyfit] fails, which takes three dates or
    more, and leaves [px_spec] alone then; otherwise it records the
    mean of the payouts at the first exercise date. *)
Lemma calc_MC_outcome (self : OptionValuation) (st : Bermudan.state) (m : nat)
    (deg : Z) (t0 : R) (rest : vec) :
  npaths (Bermudan.px_spec st) = Some m ->
  deg_R (Bermudan.px_spec st) = Some deg ->
  Bermudan.tex st = t0 :: rest ->
  (exists st',
     Bermudan._calc_MC polyfit self st = (st', Ok tt)
     /\ px (Bermudan.px_spec st')
        = Some (Bermudan.np_mean
                  (Bermudan.payout self (first_date_prices self m t0 (Bermudan.rng st))))
     /\ npaths (Bermudan.px_spec st') = Some m
     /\ deg_R (Bermudan.px_spec st') = Some deg)
  \/ (exists st' e x y,
        Bermudan._calc_MC polyfit self st = (st', Raise e)
        /\ polyfit x y deg = Raise e
        /\ Bermudan.px_spec st' = Bermudan.px_spec st
        /\ (3 <= List.length (Bermudan.tex st))%nat).
Proof.
  intros Hn Hd Et.
  remember (Bermudan._calc_MC polyfit self st) as r eqn:Hr.
  unfold Bermudan._calc_MC in Hr.
  unfold Bermudan.bindM at 1 in Hr. unfold Bermudan.get at 1 in Hr.
  rewrite Hn, Hd in Hr.
  unfold Bermudan.bindM at 1 in Hr. unfold Bermudan.lift at 1 in Hr.
  unfold Bermudan.bindM at 1 in Hr. unfold Bermudan.lift at 1 in Hr.
  rewrite Et in Hr |- *.
  destruct (generate_paths_cons self m t0 rest (Bermudan.rng st))
    as (cols & g' & E).
  rewrite E in Hr.
  unfold Bermudan.bindM at 1 in Hr. unfold Bermudan.set_rng at 1 in Hr.
  unfold Bermudan.bindM at 1 in Hr. unfold Bermudan.lift at 1 in Hr.
  cbn [Bermudan.px_spec Bermudan.tex Bermudan.rng] in Hr.
  destruct (Bermudan.backward polyfit deg _ _ _ _) as [tp|e] eqn:Eb.
  - left. apply backward_keeps_column_1 in Eb.
    assert (Eb1 : nth_error tp 1
                  = Some (Bermudan.payout self
                            (first_date_prices self m t0 (Bermudan.rng st))))
      by (rewrite Eb; reflexivity).
    unfold Bermudan.bindM at 1 in Hr. unfold Bermudan.lift at 1 in Hr.
    unfold Bermudan.get_column in Hr. rewrite Eb1 in Hr.
    assert (Hcol : Bermudan.column
                     (Bermudan.set_column tp 0
                        (Bermudan.payout self
                           (first_date_prices self m t0 (Bermudan.rng st)))) 0
                   = Bermudan.payout self
                       (first_date_prices self m t0 (Bermudan.rng st))).
    { destruct tp as [|c0 tp]; [discriminate|reflexivity]. }
    unfold Bermudan.bindM at 1 in Hr. unfold Bermudan.get at 1 in Hr.
    rewrite Hcol in Hr.
    unfold Bermudan.bindM, Bermudan.get, Bermudan.set_px_spec, Bermudan.ret in Hr.
    cbn [Bermudan.px_spec Bermudan.rng Bermudan.tex] in Hr.
    destruct (keep_hist (Bermudan.px_spec st)) eqn:Ek; subst r;
      cbn [keep_hist Bermudan.add_px] in *; try rewrite Ek;
      eexists; (split; [reflexivity|]); cbn; auto.
  - right. apply backward_raise in Eb as (Hi & x & y & Hf).
    subst r. eexists _, e, x, y.
    split; [reflexivity|]. split; [exact Hf|]. split; [reflexivity|].
    simpl in Hi |- *. lia.
Qed.



End BermudanMC.

(** ** Bermudan: the lattice on the two-step put *)
Section BermudanLattice.

Import Np.

Lemma length_bermudan_step (self : OptionValuation) (sp : LT) (t : vec) (i : nat)
    (l : lattice) :
  List.length (S_ l) = S i -> List.length (O_ l) = S i ->
  List.length (S_ (Bermudan.step self sp t i l)) = i
  /\ List.length (O_ (Bermudan.step self sp t i l)) = i.
Proof.
  intros HS HO. unfold Bermudan.step. cbn [S_ O_].
  split; [now apply length_prior_S|].
  destruct (contains t (INR i * dt sp)).
  - unfold maximum. rewrite length_map2, length_payout.
    rewrite length_prior_O, length_prior_S by assumption. lia.
  - now apply length_prior_O.
Qed.

Lemma length_bermudan_loop (self : OptionValuation) (sp : LT) (t : vec) (i : nat)
    (l : lattice) :
  List.length (S_ l) = S i -> List.length (O_ l) = S i ->
  List.length (O_ (Bermudan.loop self sp t i l)) = 1%nat.
Proof.
  revert l; induction i as [|i IH]; intros l HS HO; [exact HO|].
  change (Bermudan.loop self sp t (S i) l)
    with (Bermudan.loop self sp t i (Bermudan.step self sp t (S i) l)).
  destruct (length_bermudan_step self sp t (S i) l HS HO) as [HS' HO'].
  now apply IH.
Qed.

Ltac eval_Rmax :=
  unfold Rmax; repeat (destruct (Rle_dec _ _)); try lra.

Ltac eval_contains :=
  unfold contains, Reqb; cbn [existsb];
  repeat (destruct (Req_dec_T _ _)); cbn [orb]; try lra; try reflexivity.

Lemma terminal_S_two_steps :
  terminal_S put_two_steps lattice_two_steps 2 = [25 / 2; 50; 200].
Proof.
  unfold terminal_S, mul, scal, pow_arr, arange. simpl.
  repeat (f_equal; try lra).
Qed.

Lemma payout_two_steps_terminal : payout put_two_steps [25 / 2; 50; 200] = [175 / 2; 50; 0].
Proof.
  unfold payout, maximum_scalar, scal, sub_scalar, signCP. simpl.
  repeat (f_equal; try (eval_Rmax; fail)).
Qed.

Lemma prior_O_2 (sp : LT) (x y z : R) :
  prior_O sp 2 [x; y; z]
  = [df_dt sp * ((1 - p sp) * x + p sp * y); df_dt sp * ((1 - p sp) * y + p sp * z)].
Proof. reflexivity. Qed.

Lemma prior_O_1 (sp : LT) (x y : R) :
  prior_O sp 1 [x; y] = [df_dt sp * ((1 - p sp) * x + p sp * y)].
Proof. reflexivity. Qed.

Lemma prior_S_2 (sp : LT) (x y z : R) : prior_S sp 2 [x; y; z] = [d sp * y; d sp * z].
Proof. reflexivity. Qed.

Lemma prior_S_1 (sp : LT) (x y : R) : prior_S sp 1 [x; y] = [d sp * y].
Proof. reflexivity. Qed.

Lemma put_payout (self : OptionValuation) (s : R) :
  right self = put -> s <= K self -> payout self [s] = [K self - s].
Proof.
  intros Hr Hs. unfold payout, maximum_scalar, scal, sub_scalar, signCP.
  rewrite Hr. simpl. f_equal. eval_Rmax.
Qed.

Lemma put_payout_out (self : OptionValuation) (s : R) :
  right self = put -> K self <= s -> payout self [s] = [0].
Proof.
  intros Hr Hs. unfold payout, maximum_scalar, scal, sub_scalar, signCP.
  rewrite Hr. simpl. f_equal. eval_Rmax.
Qed.

Lemma payout_cons (self : OptionValuation) (s : R) (S1 : vec) :
  payout self (s :: S1) = payout self [s] ++ payout self S1.
Proof. reflexivity. Qed.

Lemma bermudan_step_2_scheduled (t : vec) (ST OT : tree) :
  contains t (INR 2 * dt lattice_two_steps) = true ->
  Bermudan.step put_two_steps lattice_two_steps t 2
    (mkLattice [25 / 2; 50; 200] [175 / 2; 50; 0] ST OT)
  = mkLattice [25; 100] [75; 20] ([25; 100] :: ST) ([75; 20] :: OT).
Proof.
  intros Hc. unfold Bermudan.step. rewrite Hc. cbn [S_ O_ S_tree O_tree].
  rewrite prior_O_2, prior_S_2. cbn [df_dt p d lattice_two_steps].
  replace (4 / 5 * ((1 - 1 / 2) * (175 / 2) + 1 / 2 * 50)) with 55 by lra.
  replace (4 / 5 * ((1 - 1 / 2) * 50 + 1 / 2 * 0)) with 20 by lra.
  replace (1 / 2 * 50) with 25 by lra.
  replace (1 / 2 * 200) with 100 by lra.
  rewrite (payout_cons _ 25), (put_payout _ 25), (put_payout_out _ 100)
    by (try reflexivity; simpl; lra).
  cbn [K put_two_steps app maximum map2].
  replace (Rmax 55 (100 - 25)) with 75 by eval_Rmax.
  replace (Rmax 20 0) with 20 by eval_Rmax.
  reflexivity.
Qed.

Lemma bermudan_step_2_unscheduled (t : vec) (ST OT : tree) :
  contains t (INR 2 * dt lattice_two_steps) = false ->
  Bermudan.step put_two_steps lattice_two_steps t 2
    (mkLattice [25 / 2; 50; 200] [175 / 2; 50; 0] ST OT)
  = mkLattice [25; 100] [55; 20] ([25; 100] :: ST) ([55; 20] :: OT).
Proof.
  intros Hc. unfold Bermudan.step. rewrite Hc. cbn [S_ O_ S_tree O_tree].
  rewrite prior_O_2, prior_S_2. cbn [df_dt p d lattice_two_steps].
  replace (4 / 5 * ((1 - 1 / 2) * (175 / 2) + 1 / 2 * 50)) with 55 by lra.
  replace (4 / 5 * ((1 - 1 / 2) * 50 + 1 / 2 * 0)) with 20 by lra.
  replace (1 / 2 * 50) with 25 by lra.
  replace (1 / 2 * 200) with 100 by lra.
  reflexivity.
Qed.

(** The root pass from the values [x], [y] of the two nodes above it. *)
Lemma bermudan_step_1 (t : vec) (x y : R) (ST OT : tree) :
  Bermudan.step put_two_steps lattice_two_steps t 1 (mkLattice [25; 100] [x; y] ST OT)
  = let c := 4 / 5 * ((1 - 1 / 2) * x + 1 / 2 * y) in
    let o := if contains t (INR 1 * dt lattice_two_steps) then Rmax c 50 else c in
    mkLattice [50] [o] ([50] :: ST) ([o] :: OT).
Proof.
  unfold Bermudan.step. cbn [S_ O_ S_tree O_tree].
  rewrite prior_O_1, prior_S_1. cbn [df_dt p d lattice_two_steps].
  replace (1 / 2 * 100) with 50 by lra.
  rewrite (put_payout _ 50) by (try reflexivity; simpl; lra).
  cbn [K put_two_steps]. replace (100 - 50) with 50 by lra.
  cbv zeta. destruct (contains t _); reflexivity.
Qed.

(** With exercise dates 1 and 2 on a lattice of two steps of length 1:
    the pass for the nodes at time 1 tests time 2, the pass for the
    root (time 0) tests time 1, and both find a scheduled date. *)
Lemma bermudan_lattice_two_steps :
  Bermudan.LT_lattice put_two_steps lattice_two_steps [1; 2] 2
  = mkLattice [50] [50]
      [[50]; [25; 100]; [25 / 2; 50; 200]]
      [[50]; [75; 20]; [175 / 2; 50; 0]].
Proof.
  unfold Bermudan.LT_lattice, init_lattice.
  rewrite terminal_S_two_steps, payout_two_steps_terminal.
  cbn [Bermudan.loop].
  rewrite bermudan_step_2_scheduled by (cbn [dt lattice_two_steps INR]; eval_contains).
  rewrite bermudan_step_1. cbv zeta.
  replace (contains [1; 2] (INR 1 * dt lattice_two_steps)) with true
    by (symmetry; cbn [dt lattice_two_steps INR]; eval_contains).
  replace (Rmax (4 / 5 * ((1 - 1 / 2) * 75 + 1 / 2 * 20)) 50) with 50 by eval_Rmax.
  reflexivity.
Qed.

(** With the maturity as the only exercise date the pass for the nodes
    at time 1 still tests time 2, which is scheduled. *)
Lemma bermudan_lattice_maturity_only :
  Bermudan.LT_lattice put_two_steps lattice_two_steps [2] 2
  = mkLattice [50] [38]
      [[50]; [25; 100]; [25 / 2; 50; 200]]
      [[38]; [75; 20]; [175 / 2; 50; 0]].
Proof.
  unfold Bermudan.LT_lattice, init_lattice.
  rewrite terminal_S_two_steps, payout_two_steps_terminal.
  cbn [Bermudan.loop].
  rewrite bermudan_step_2_scheduled by (cbn [dt lattice_two_steps INR]; eval_contains).
  rewrite bermudan_step_1. cbv zeta.
  replace (contains [2] (INR 1 * dt lattice_two_steps)) with false
    by (symmetry; cbn [dt lattice_two_steps INR]; eval_contains).
  replace (4 / 5 * ((1 - 1 / 2) * 75 + 1 / 2 * 20)) with 38 by lra.
  reflexivity.
Qed.

(** The plain backward induction of [chooser.py] on the same lattice. *)
Lemma european_lattice_two_steps :
  O_tree (Chooser.loop lattice_two_steps 2 (init_lattice put_two_steps lattice_two_steps 2))
  = [[30]; [55; 20]; [175 / 2; 50; 0]].
Proof.
  unfold init_lattice.
  rewrite terminal_S_two_steps, payout_two_steps_terminal.
  cbn [Chooser.loop]. unfold Chooser.step. cbn [S_ O_ S_tree O_tree].
  rewrite prior_O_2. cbn [df_dt p d lattice_two_steps].
  replace (4 / 5 * ((1 - 1 / 2) * (175 / 2) + 1 / 2 * 50)) with 55 by lra.
  replace (4 / 5 * ((1 - 1 / 2) * 50 + 1 / 2 * 0)) with 20 by lra.
  rewrite prior_O_1. cbn [df_dt p d lattice_two_steps].
  replace (4 / 5 * ((1 - 1 / 2) * 55 + 1 / 2 * 20)) with 30 by lra.
  reflexivity.
Qed.

End BermudanLattice.

(** ** Bermudan: what the entry point calls *)
Section BermudanDispatch.

Import Np.

Variable LTm : OptionValuation -> Z -> result LT.
Variable polyfit : nvec -> nvec -> Z -> result nvec.



Lemma bermudan_dispatch_LT (self : OptionValuation) (st : Bermudan.state) (n : nat)
    (sp : LT) :
  nsteps (Bermudan.px_spec st) = Some (Z.of_nat n) ->
  LTm self (Z.of_nat n) = Ok sp ->
  Bermudan.dispatch LTm polyfit self "LT" st
  = let l := Bermudan.LT_lattice self sp (Bermudan.tex st) n in
    let hist := keep_hist (Bermudan.px_spec st) in
    (Bermudan.mkState (Bermudan.rng st) (Bermudan.tex st)
       (add_method
          (add_LT (Bermudan.px_spec st) (Fin (nth 0 (O_ l) 0))
                  "binomial tree; Hull Ch.13" sp
                  (if hist then Some (S_tree l) else None)
                  (if hist then Some (O_tree l) else None))
          "LT"),
     Ok tt).
Proof.
  intros Hn Hsp.
  change (Bermudan.dispatch LTm polyfit self "LT" st)
    with (Bermudan._calc_LT LTm self st).
  unfold Bermudan._calc_LT.
  unfold Bermudan.bindM at 1. unfold Bermudan.get at 1.
  unfold get_nsteps. rewrite Hn.
  unfold Bermudan.bindM at 1. unfold Bermudan.lift at 1. rewrite Hsp.
  replace (Z.of_nat n <? 0)%Z with false by (symmetry; apply Z.ltb_ge; lia).
  rewrite Nat2Z.id. cbv zeta.
  pose proof (length_bermudan_loop self sp (Bermudan.tex st) n
                (init_lattice self sp n)) as Hlen.
  unfold Bermudan.LT_lattice.
  destruct (O_ (Bermudan.loop self sp (Bermudan.tex st) n (init_lattice self sp n)))
    as [|v [|? ?]] eqn:EO.
  - exfalso. simpl in Hlen.
    assert (0 = 1)%nat; [|discriminate].
    apply Hlen; cbn [S_ O_ init_lattice];
      rewrite ?length_payout; apply length_terminal_S.
  - reflexivity.
  - exfalso. simpl in Hlen.
    assert (S (S (List.length l)) = 1)%nat; [|discriminate].
    apply Hlen; cbn [S_ O_ init_lattice];
      rewrite ?length_payout; apply length_terminal_S.
Qed.

End BermudanDispatch.

(** ** Bermudan: instances *)

(** The collaborators of the instances: numpy's generator stands for
    one whose draws are all 0, whatever the seed, and [np.polyfit] for
    one that refuses every fit (the instances never reach it). *)
Definition seed_zeros (seed : Z) : result Bermudan.generator := Ok (fun _ => 0).

Definition polyfit_refused (x y : Np.nvec) (deg : Z) : result Np.nvec :=
  Raise ValueError.

Definition bermudan_fresh : Bermudan.state :=
  Bermudan.mkState (fun _ => 0) [] (new_PriceSpec "LT" None None false None None).

Lemma py_int_IZR (z : Z) : py_int (IZR z) = z.
Proof.
  unfold py_int. destruct (Rle_dec 0 (IZR z)).
  - apply ZfloorZ.
  - unfold Zceil. replace (- IZR z) with (IZR (- z)) by apply opp_IZR.
    rewrite ZfloorZ. lia.
Qed.

Lemma py_max_1_2 : Bermudan.py_max [1; 2] = Ok 2.
Proof.
  unfold Bermudan.py_max. simpl. f_equal.
  unfold Rmax. destruct (Rle_dec 1 2); lra.
Qed.

Lemma normalize_1_2 : Bermudan.normalize put_two_steps 2 [1; 2] = (true, [1; 2]).
Proof.
  unfold Bermudan.normalize. cbn [T put_two_steps].
  pose proof epsilon_pos.
  destruct (Rlt_dec (2 - 2) Bermudan.epsilon); [|lra].
  cbn [filter]. unfold Bermudan.Rltb.
  destruct (Rlt_dec 1 2); [|lra]. destruct (Rlt_dec 2 2); [lra|]. reflexivity.
Qed.

Lemma knsteps_1_2 : Bermudan.knsteps true 2 [1; 2] None = Ok 2%Z.
Proof.
  unfold Bermudan.knsteps. cbn [Bermudan.steps_of_gaps].
  unfold Bermudan.steps_of_gap.
  destruct (Req_dec_T (2 - 1) 0); [lra|].
  replace (2 / (2 - 1)) with (IZR 2) by (simpl; field).
  rewrite py_int_IZR. reflexivity.
Qed.

(** The specification's Bermudan rule (section 4.3): at a node whose
    time, its step index times [dt], is a scheduled exercise date the
    held value is [max(continuation, intrinsic)]; elsewhere it is the
    continuation. *)
Definition spec_bermudan_adjust (self : OptionValuation) (sp : LT) (t : Np.vec)
    (step_index : nat) (S1 C1 : Np.vec) : Np.vec :=
  if Np.contains t (INR step_index * dt sp)
  then Np.maximum C1 (spec_payout self S1)
  else C1.

(** The root value under the specification's rule. *)
Definition spec_Bermudan_price (self : OptionValuation) (sp : LT) (t : Np.vec)
    (n : nat) : R :=
  let S1 := spec_terminal_S self sp n in
  nth 0 (spec_engine (spec_bermudan_adjust self sp t) sp n S1 (spec_payout self S1)) 0.

Lemma spec_Bermudan_price_two_steps :
  spec_Bermudan_price put_two_steps lattice_two_steps [1; 2] 2 = 38.
Proof.
  unfold spec_Bermudan_price.
  rewrite <- terminal_S_spec, <- payout_spec.
  rewrite terminal_S_two_steps, payout_two_steps_terminal.
  rewrite spec_engine_S. cbn [firstn skipn].
  change (Np.scal (d lattice_two_steps) [50; 200])
    with (prior_S lattice_two_steps 2 [25 / 2; 50; 200]).
  change (Np.scal (df_dt lattice_two_steps)
            (Np.add (Np.scal (1 - p lattice_two_steps) [175 / 2; 50])
                    (Np.scal (p lattice_two_steps) [50; 0])))
    with (prior_O lattice_two_steps 2 [175 / 2; 50; 0]).
  rewrite prior_O_2, prior_S_2. cbn [df_dt p d lattice_two_steps].
  replace (4 / 5 * ((1 - 1 / 2) * (175 / 2) + 1 / 2 * 50)) with 55 by lra.
  replace (4 / 5 * ((1 - 1 / 2) * 50 + 1 / 2 * 0)) with 20 by lra.
  replace (1 / 2 * 50) with 25 by lra.
  replace (1 / 2 * 200) with 100 by lra.
  unfold spec_bermudan_adjust at 2.
  replace (Np.contains [1; 2] (INR 1 * dt lattice_two_steps)) with true.
  2:{ symmetry. cbn [dt lattice_two_steps INR]. unfold Np.contains, Np.Reqb.
      cbn [existsb]. destruct (Req_dec_T (1 * 1) 1); [reflexivity|lra]. }
  rewrite <- payout_spec.
  rewrite (payout_cons _ 25), (put_payout _ 25), (put_payout_out _ 100)
    by (try reflexivity; simpl; lra).
  cbn [K put_two_steps app Np.maximum Np.map2].
  replace (Rmax 55 (100 - 25)) with 75 by (unfold Rmax; destruct (Rle_dec _ _); lra).
  replace (Rmax 20 0) with 20 by (unfold Rmax; destruct (Rle_dec _ _); lra).
  rewrite spec_engine_S. cbn [firstn skipn spec_engine].
  unfold spec_bermudan_adjust.
  replace (Np.contains [1; 2] (INR 0 * dt lattice_two_steps)) with false.
  2:{ symmetry. cbn [dt lattice_two_steps INR]. unfold Np.contains, Np.Reqb.
      cbn [existsb].
      destruct (Req_dec_T (0 * 1) 1); [lra|]. destruct (Req_dec_T (0 * 1) 2); [lra|].
      reflexivity. }
  simpl. lra.
Qed.

Definition default_seed : Z := 4294967295%Z.

(** The state an LT call leaves behind for the two-step put with
    exercise dates 1 and 2. *)
Lemma bermudan_two_steps_run :
  Bermudan.calc_px LT_specs_checked seed_zeros polyfit_refused put_two_steps "LT"
    [1; 2] None None true (Some 3%Z) default_seed bermudan_fresh
  = (Bermudan.mkState (fun _ => 0) [1; 2]
       (add_LT (new_PriceSpec "LT" (Some 2%Z) None true (Some 3%Z) (Some default_seed))
               (Fin 50) "binomial tree; Hull Ch.13" lattice_two_steps
               (Some [[50]; [25; 100]; [25 / 2; 50; 200]])
               (Some [[50]; [75; 20]; [175 / 2; 50; 0]])),
     Ok tt).
Proof.
  rewrite (bermudan_calc_px_unfold _ _ _ _ _ _ _ _ _ _ _ _ (fun _ => 0) 2 eq_refl py_max_1_2).
  rewrite normalize_1_2. cbn [fst snd]. rewrite knsteps_1_2.
  rewrite bermudan_after_knsteps. cbn [Bermudan.rng Bermudan.tex].
  rewrite (bermudan_dispatch_LT _ _ _ _ 2 lattice_two_steps);
    [|reflexivity|exact LT_specs_checked_put_two_steps].
  cbn [Bermudan.tex Bermudan.rng Bermudan.px_spec]. cbv zeta.
  rewrite bermudan_lattice_two_steps. reflexivity.
Qed.

(** C1 (the code at an input where a node's time and the tested time
    part): a put with exercise dates 1 and 2 on a lattice of two steps
    of length 1.  The pass that values the root, a node at time 0 and
    so at no exercise date, tests [1 * dt = 1], finds it scheduled and
    takes [max(continuation, intrinsic) = max(38, 50)]: the call records
    the price 50, where the continuation alone, which is what the rule
    of the specification gives an unscheduled node, is 38. *)
Theorem bermudan_LT_exercises_one_step_early :
  let run := Bermudan.calc_px LT_specs_checked seed_zeros polyfit_refused
               put_two_steps "LT" [1; 2] None None true (Some 3%Z) default_seed
               bermudan_fresh in
  snd run = Ok tt
  /\ Bermudan.tex (fst run) = [1; 2]
  /\ nsteps (Bermudan.px_spec (fst run)) = Some 2%Z
  /\ opt_tree (Bermudan.px_spec (fst run)) = Some [[50]; [75; 20]; [175 / 2; 50; 0]]
  /\ px (Bermudan.px_spec (fst run)) = Some (Fin 50)
  /\ prior_O lattice_two_steps 1 [75; 20] = [38]
  /\ Np.contains [1; 2] 0 = false
  /\ spec_Bermudan_price put_two_steps lattice_two_steps [1; 2] 2 = 38.
Proof.
  cbv zeta. rewrite bermudan_two_steps_run. cbn [fst snd Bermudan.tex Bermudan.px_spec].
  repeat split.
  - rewrite prior_O_1. cbn [df_dt p lattice_two_steps]. f_equal. lra.
  - unfold Np.contains, Np.Reqb. cbn [existsb].
    destruct (Req_dec_T 0 1); [lra|]. destruct (Req_dec_T 0 2); [lra|]. reflexivity.
  - exact spec_Bermudan_price_two_steps.
Qed.

(** C4 (the code at a schedule that holds the maturity alone):
    [calc_px] keeps [(T,)] as the schedule, finds no gap between two
    dates and raises the [ValueError] of [max] on an empty sequence,
    whatever the option and the method; and the lattice loop itself,
    entered with that schedule on the two-step put, exercises at time
    1, so its root value is 38 where the European one is 30. *)
Theorem bermudan_maturity_only_schedule_fails :
  (forall LTm polyfit self method nsteps npaths kh deg seed st,
     snd (Bermudan.calc_px LTm seed_zeros polyfit self method [T self] nsteps npaths
            kh deg seed st) = Raise ValueError)
  /\ O_ (Bermudan.LT_lattice put_two_steps lattice_two_steps [2] 2) = [38]
  /\ O_tree (Bermudan.LT_lattice put_two_steps lattice_two_steps [2] 2)
     = [[38]; [75; 20]; [175 / 2; 50; 0]]
  /\ O_tree (Chooser.loop lattice_two_steps 2
               (init_lattice put_two_steps lattice_two_steps 2))
     = [[30]; [55; 20]; [175 / 2; 50; 0]].
Proof.
  split; [|rewrite bermudan_lattice_maturity_only; repeat split;
           exact european_lattice_two_steps].
  intros LTm polyfit self method nsteps npaths kh deg seed st.
  rewrite (bermudan_calc_px_unfold LTm seed_zeros polyfit self method [T self] nsteps
             npaths kh deg seed st (fun _ => 0) (T self) eq_refl eq_refl).
  assert (Hn : Bermudan.normalize self (T self) [T self] = (true, [T self])).
  { unfold Bermudan.normalize. pose proof epsilon_pos.
    destruct (Rlt_dec (T self - T self) Bermudan.epsilon); [|lra].
    cbn [filter]. unfold Bermudan.Rltb.
    destruct (Rlt_dec (T self) (T self)); [lra|]. reflexivity. }
  rewrite Hn. cbn [fst snd]. rewrite bermudan_after_knsteps.
  unfold Bermudan.knsteps. cbn [Bermudan.steps_of_gaps bind Bermudan.py_max_int].
  reflexivity.
Qed.

(** The hypotheses of [bermudan_stored_schedule] hold for the two-step
    put with exercise dates 1 and 2. *)
Lemma bermudan_stored_schedule_witness :
  seed_zeros default_seed = Ok (fun _ => 0)
  /\ Bermudan.py_max [1; 2] = Ok 2
  /\ StronglySorted Rlt [1; 2]
  /\ Forall (Rlt 0) [1; 2]
  /\ 0 < T put_two_steps
  /\ T put_two_steps - 2 <> Bermudan.epsilon
  /\ (let st' := fst (Bermudan.calc_px LT_specs_checked seed_zeros polyfit_refused
                        put_two_steps "LT" [1; 2] None None true (Some 3%Z)
                        default_seed bermudan_fresh) in
      StronglySorted Rlt (Bermudan.tex st')
      /\ Forall (fun x => 0 < x <= T put_two_steps) (Bermudan.tex st')
      /\ last (Bermudan.tex st') 0 = T put_two_steps).
Proof.
  assert (Hs : StronglySorted Rlt [1; 2]).
  { repeat constructor. lra. }
  assert (Hpos : Forall (Rlt 0) [1; 2]).
  { repeat constructor; lra. }
  assert (HT : 0 < T put_two_steps) by (simpl; lra).
  assert (Hne : T put_two_steps - 2 <> Bermudan.epsilon).
  { pose proof epsilon_pos. simpl. lra. }
  split; [reflexivity|]. split; [exact py_max_1_2|].
  split; [exact Hs|]. split; [exact Hpos|]. split; [exact HT|]. split; [exact Hne|].
  exact (bermudan_stored_schedule LT_specs_checked seed_zeros polyfit_refused
           put_two_steps "LT" [1; 2] None None true (Some 3%Z) default_seed
           bermudan_fresh (fun _ => 0) 2 eq_refl py_max_1_2 Hs Hpos HT Hne).
Defined.

Lemma py_max_unsorted : Bermudan.py_max [1 / 2; 1 / 4; 1] = Ok 1.
Proof.
  unfold Bermudan.py_max. simpl. f_equal.
  unfold Rmax. repeat (destruct (Rle_dec _ _)); lra.
Qed.

Lemma normalize_unsorted :
  Bermudan.normalize call_p1 1 [1 / 2; 1 / 4; 1] = (true, [1 / 2; 1 / 4; 1]).
Proof.
  unfold Bermudan.normalize. cbn [T call_p1].
  pose proof epsilon_pos.
  destruct (Rlt_dec (1 - 1) Bermudan.epsilon); [|lra].
  cbn [filter]. unfold Bermudan.Rltb.
  destruct (Rlt_dec (1 / 2) 1); [|lra].
  destruct (Rlt_dec (1 / 4) 1); [|lra].
  destruct (Rlt_dec 1 1); [lra|]. reflexivity.
Qed.

Lemma knsteps_unsorted :
  Bermudan.knsteps true 1 [1 / 2; 1 / 4; 1] None = Ok 1%Z.
Proof.
  unfold Bermudan.knsteps. cbn [Bermudan.steps_of_gaps].
  unfold Bermudan.steps_of_gap.
  destruct (Req_dec_T (1 / 4 - 1 / 2) 0); [lra|].
  destruct (Req_dec_T (1 - 1 / 4) 0); [lra|].
  replace (1 / (1 / 4 - 1 / 2)) with (IZR (-4)) by (simpl; field).
  rewrite py_int_IZR.
  assert (H43 : py_int (1 / (1 - 1 / 4)) = 1%Z).
  { unfold py_int. destruct (Rle_dec 0 (1 / (1 - 1 / 4))) as [_|Hn].
    - apply Zfloor_eq. simpl. split.
      + apply (Rmult_le_reg_r (1 - 1 / 4)); [lra|]. field_simplify; lra.
      + apply (Rmult_lt_reg_r (1 - 1 / 4)); [lra|]. field_simplify; lra.
    - exfalso. apply Hn. apply Rlt_le. apply Rdiv_lt_0_compat; lra. }
  rewrite H43. reflexivity.
Qed.

(** A caller's unsorted schedule, of the kind the docstring example
    builds from random numbers, is stored unsorted by a call that
    succeeds. *)
Lemma bermudan_stored_schedule_unsorted :
  let run := Bermudan.calc_px LT_specs_checked seed_zeros polyfit_refused call_p1
               "LT" [1 / 2; 1 / 4; 1] None None false (Some 3%Z) default_seed
               bermudan_fresh in
  snd run = Ok tt
  /\ Bermudan.tex (fst run) = [1 / 2; 1 / 4; 1]
  /\ ~ StronglySorted Rlt (Bermudan.tex (fst run)).
Proof.
  cbv zeta.
  rewrite (bermudan_calc_px_unfold LT_specs_checked seed_zeros polyfit_refused call_p1
             "LT" [1 / 2; 1 / 4; 1] None None false (Some 3%Z) default_seed
             bermudan_fresh (fun _ => 0) 1 eq_refl py_max_unsorted).
  rewrite normalize_unsorted. cbn [fst snd]. rewrite knsteps_unsorted.
  rewrite bermudan_after_knsteps. cbn [Bermudan.rng Bermudan.tex].
  rewrite (bermudan_dispatch_LT _ _ _ _ 1 (LT_specs call_p1 1));
    [|reflexivity|exact LT_specs_checked_call_p1].
  cbn [fst snd Bermudan.tex Bermudan.rng Bermudan.px_spec]. cbv zeta.
  cbn [fst snd Bermudan.tex].
  split; [reflexivity|]. split; [reflexivity|].
  intros Hs. inversion Hs as [|? ? _ Hall]; subst.
  inversion Hall as [|? ? Hlt _]; subst. lra.
Qed.

(** A Monte Carlo state with one path and a fit of degree 7. *)
Definition MC_one_path_degree_7 : Bermudan.state :=
  Bermudan.mkState (fun _ => 0) [1; 2]
    (new_PriceSpec "MC" (Some 2%Z) (Some 1%nat) false (Some 7%Z) (Some default_seed)).





(** ** The finite-difference stubs *)




(** * Further properties of the three files *)

(** ** Bermudan: the schedule and the lattice *)
Section BermudanBetween.

Import Np.

Lemma contains_In (t : vec) (x : R) : contains t x = true <-> In x t.
Proof.
  unfold contains. rewrite existsb_exists. split.
  - intros (y & Hy & E). unfold Reqb in E.
    destruct (Req_dec_T x y); [subst; exact Hy|discriminate].
  - intros H. exists x. split; [exact H|].
    unfold Reqb. destruct (Req_dec_T x x); [reflexivity|contradiction].
Qed.

Lemma Forall2_maximum_Rle (a b c : vec) :
  Forall2 Rle a b -> Forall2 Rle (maximum a c) (maximum b c).
Proof.
  intros H; revert c; induction H; intros [|z c]; simpl; constructor; auto.
  unfold Rmax. repeat destruct (Rle_dec _ _); lra.
Qed.

(** Scheduling more dates never lowers a node's value. *)
Lemma bermudan_loop_monotone (self : OptionValuation) (sp : LT) (t1 t2 : vec) :
  0 <= p sp <= 1 -> 0 <= df_dt sp -> incl t1 t2 ->
  forall (i : nat) (l1 l2 : lattice),
    S_ l1 = S_ l2 ->
    List.length (S_ l1) = S i -> List.length (O_ l1) = S i ->
    Forall2 Rle (O_ l1) (O_ l2) ->
    Forall2 (Forall2 Rle) (O_tree l1) (O_tree l2) ->
    Forall2 Rle (O_ (Bermudan.loop self sp t1 i l1)) (O_ (Bermudan.loop self sp t2 i l2))
    /\ Forall2 (Forall2 Rle) (O_tree (Bermudan.loop self sp t1 i l1))
                             (O_tree (Bermudan.loop self sp t2 i l2)).
Proof.
  intros Hp Hdf Hincl.
  induction i as [|i IH]; intros l1 l2 HS HlS HlO HO Htree; [split; assumption|].
  change (Bermudan.loop self sp t1 (S i) l1)
    with (Bermudan.loop self sp t1 i (Bermudan.step self sp t1 (S i) l1)).
  change (Bermudan.loop self sp t2 (S i) l2)
    with (Bermudan.loop self sp t2 i (Bermudan.step self sp t2 (S i) l2)).
  assert (HlO2 : List.length (O_ l2) = S (S i))
    by (rewrite <- (Forall2_length HO); exact HlO).
  destruct (length_bermudan_step self sp t1 (S i) l1 HlS HlO) as [HS1 HO1].
  assert (Hstep : Forall2 Rle (O_ (Bermudan.step self sp t1 (S i) l1))
                              (O_ (Bermudan.step self sp t2 (S i) l2))).
  { unfold Bermudan.step. cbn [O_]. rewrite <- HS.
    pose proof (prior_O_monotone sp (S i) _ _ Hp Hdf HO) as Hm.
    assert (Hlen : List.length (prior_O sp (S i) (O_ l2))
                   = List.length (payout self (prior_S sp (S i) (S_ l1)))).
    { rewrite length_payout, length_prior_O, length_prior_S by assumption.
      reflexivity. }
    destruct (contains t1 (INR (S i) * dt sp)) eqn:E1.
    - assert (E2 : contains t2 (INR (S i) * dt sp) = true).
      { apply contains_In. apply Hincl. now apply contains_In. }
      rewrite E2. now apply Forall2_maximum_Rle.
    - destruct (contains t2 (INR (S i) * dt sp)); [|exact Hm].
      eapply Forall2_Rle_trans; [exact Hm|]. now apply maximum_ge_l. }
  apply IH.
  - unfold Bermudan.step. cbn [S_]. now rewrite HS.
  - exact HS1.
  - exact HO1.
  - exact Hstep.
  - change (O_tree (Bermudan.step self sp t1 (S i) l1))
      with (O_ (Bermudan.step self sp t1 (S i) l1) :: O_tree l1).
    change (O_tree (Bermudan.step self sp t2 (S i) l2))
      with (O_ (Bermudan.step self sp t2 (S i) l2) :: O_tree l2).
    constructor; [exact Hstep|exact Htree].
Qed.

(** With no tested time in the schedule the loop is the plain backward
    induction of [chooser.py]. *)
Lemma bermudan_loop_unscheduled (self : OptionValuation) (sp : LT) (t : vec) (n : nat) :
  (forall i, (1 <= i <= n)%nat -> contains t (INR i * dt sp) = false) ->
  forall (i : nat) (l : lattice),
    (i <= n)%nat -> Bermudan.loop self sp t i l = Chooser.loop sp i l.
Proof.
  intros Hc. induction i as [|i IH]; intros l Hi; [reflexivity|].
  change (Bermudan.loop self sp t (S i) l)
    with (Bermudan.loop self sp t i (Bermudan.step self sp t (S i) l)).
  change (Chooser.loop sp (S i) l) with (Chooser.loop sp i (Chooser.step sp (S i) l)).
  rewrite IH by lia. f_equal.
  unfold Bermudan.step, Chooser.step. rewrite Hc by lia. reflexivity.
Qed.

(** X1: the Bermudan lattice value grows with the schedule.  For a
    lattice with [p] in [[0, 1]] and a non-negative discount factor,
    every node of the option tree under a schedule [t1] is at most the
    same node under a schedule [t2] that holds all the dates of [t1],
    and at least the node of the plain European backward induction: the
    Bermudan lies between the European and the American value, as the
    class docstring says. *)
Theorem bermudan_LT_between (self : OptionValuation) (sp : LT) (t1 t2 : vec) (n : nat) :
  0 <= p sp <= 1 -> 0 <= df_dt sp -> incl t1 t2 ->
  Forall2 (Forall2 Rle)
    (O_tree (Chooser.loop sp n (init_lattice self sp n)))
    (O_tree (Bermudan.LT_lattice self sp t1 n))
  /\ Forall2 (Forall2 Rle)
       (O_tree (Bermudan.LT_lattice self sp t1 n))
       (O_tree (Bermudan.LT_lattice self sp t2 n)).
Proof.
  intros Hp Hdf Hincl. unfold Bermudan.LT_lattice.
  set (l0 := init_lattice self sp n).
  assert (HlS : List.length (S_ l0) = S n) by apply length_terminal_S.
  assert (HlO : List.length (O_ l0) = S n).
  { unfold l0. cbn [O_ init_lattice]. rewrite length_payout. apply length_terminal_S. }
  assert (Hrefl : Forall2 (Forall2 Rle) (O_tree l0) (O_tree l0)).
  { unfold l0. cbn [O_tree init_lattice].
    constructor; [apply Forall2_Rle_refl|constructor]. }
  split.
  - rewrite <- (bermudan_loop_unscheduled self sp [] n (fun _ _ => eq_refl) n l0)
      by lia.
    apply (bermudan_loop_monotone self sp [] t1 Hp Hdf); auto.
    + intros x Hx. destruct Hx.
    + apply Forall2_Rle_refl.
  - apply (bermudan_loop_monotone self sp t1 t2 Hp Hdf Hincl); auto.
    apply Forall2_Rle_refl.
Qed.



End BermudanBetween.

(** ** The history trees *)
Section TreeShape.

Import Np.

(** Layer [k] of a tree holds [base + k] values. *)
Definition layered (base : nat) (t : tree) : Prop :=
  forall k, (k < List.length t)%nat -> List.length (nth k t []) = (base + k)%nat.

Lemma layered_cons (base : nat) (layer : vec) (t : tree) :
  List.length layer = base -> layered (S base) t -> layered base (layer :: t).
Proof.
  intros Hl Ht [|k] Hk; simpl in *; [lia|].
  rewrite Ht by lia. lia.
Qed.

Lemma bermudan_loop_shape (self : OptionValuation) (sp : LT) (t : vec) (i : nat)
    (l : lattice) :
  List.length (S_ l) = S i -> List.length (O_ l) = S i ->
  layered (S i) (S_tree l) -> layered (S i) (O_tree l) ->
  let l' := Bermudan.loop self sp t i l in
  layered 1 (S_tree l') /\ layered 1 (O_tree l')
  /\ List.length (S_tree l') = (i + List.length (S_tree l))%nat
  /\ List.length (O_tree l') = (i + List.length (O_tree l))%nat.
Proof.
  revert l; induction i as [|i IH]; intros l HS HO HtS HtO; cbv zeta.
  - simpl. auto.
  - change (Bermudan.loop self sp t (S i) l)
      with (Bermudan.loop self sp t i (Bermudan.step self sp t (S i) l)).
    destruct (length_bermudan_step self sp t (S i) l HS HO) as [HS' HO'].
    specialize (IH (Bermudan.step self sp t (S i) l) HS' HO').
    cbv zeta in IH.
    assert (HtS' : layered (S i) (S_tree (Bermudan.step self sp t (S i) l))).
    { change (S_tree (Bermudan.step self sp t (S i) l))
        with (S_ (Bermudan.step self sp t (S i) l) :: S_tree l).
      now apply layered_cons. }
    assert (HtO' : layered (S i) (O_tree (Bermudan.step self sp t (S i) l))).
    { change (O_tree (Bermudan.step self sp t (S i) l))
        with (O_ (Bermudan.step self sp t (S i) l) :: O_tree l).
      now apply layered_cons. }
    destruct (IH HtS' HtO') as (A & B & C & D).
    split; [exact A|]. split; [exact B|].
    change (S_tree (Bermudan.step self sp t (S i) l))
      with (S_ (Bermudan.step self sp t (S i) l) :: S_tree l) in C.
    change (O_tree (Bermudan.step self sp t (S i) l))
      with (O_ (Bermudan.step self sp t (S i) l) :: O_tree l) in D.
    simpl List.length in C, D. split; lia.
Qed.

(** X3: the two trees a Bermudan LT call keeps have [n + 1] layers, and
    layer [k] (the root is layer 0) holds [k + 1] values, whatever the
    schedule and the lattice parameters. *)
Theorem bermudan_LT_tree_shape (self : OptionValuation) (sp : LT) (t : vec) (n : nat) :
  let l := Bermudan.LT_lattice self sp t n in
  List.length (S_tree l) = S n
  /\ List.length (O_tree l) = S n
  /\ (forall k, (k <= n)%nat -> List.length (nth k (S_tree l) []) = S k)
  /\ (forall k, (k <= n)%nat -> List.length (nth k (O_tree l) []) = S k).
Proof.
  cbv zeta. unfold Bermudan.LT_lattice.
  assert (HS : List.length (S_ (init_lattice self sp n)) = S n)
    by apply length_terminal_S.
  assert (HO : List.length (O_ (init_lattice self sp n)) = S n).
  { cbn [O_ init_lattice]. rewrite length_payout. apply length_terminal_S. }
  destruct (bermudan_loop_shape self sp t n (init_lattice self sp n) HS HO)
    as (A & B & C & D).
  - intros [|k] Hk; simpl in Hk; [|lia]. cbn [S_tree init_lattice nth].
    rewrite length_terminal_S. lia.
  - intros [|k] Hk; simpl in Hk; [|lia]. cbn [O_tree init_lattice nth].
    rewrite length_payout, length_terminal_S. lia.
  - cbn [S_tree O_tree init_lattice] in C, D. simpl List.length in C, D.
    split; [lia|]. split; [lia|]. split; intros k Hk.
    + rewrite A by lia. reflexivity.
    + rewrite B by lia. reflexivity.
Qed.

(** Going one step back on a recombining lattice ([u * d = 1]) gives
    the terminal prices of the lattice with one step less. *)
Lemma prior_S_terminal (self : OptionValuation) (sp : LT) (i : nat) :
  u sp * d sp = 1 ->
  prior_S sp (S i) (terminal_S self sp (S i)) = terminal_S self sp i.
Proof.
  intros Hud. apply sum_ext_nth.
  - rewrite length_prior_S, length_terminal_S by apply length_terminal_S. reflexivity.
  - intros j Hj.
    rewrite length_prior_S in Hj by apply length_terminal_S.
    unfold prior_S. rewrite nth_scal.
    rewrite nth_firstn. replace (j <? S i)%nat with true by (symmetry; apply Nat.ltb_lt; lia).
    rewrite nth_skipn. rewrite !terminal_S_spec. unfold spec_terminal_S.
    rewrite (nth_indep _ 0 ((fun j => S0 (ref self) * d sp ^ (S i - j) * u sp ^ j) 0%nat))
      by (rewrite length_map, length_seq; lia).
    rewrite (map_nth (fun j => S0 (ref self) * d sp ^ (S i - j) * u sp ^ j)).
    rewrite (nth_indep _ 0 ((fun j => S0 (ref self) * d sp ^ (i - j) * u sp ^ j) 0%nat))
      by (rewrite length_map, length_seq; lia).
    rewrite (map_nth (fun j => S0 (ref self) * d sp ^ (i - j) * u sp ^ j)).
    rewrite !seq_nth by lia. simpl Nat.add.
    replace (S i - S j)%nat with (i - j)%nat by lia.
    simpl pow.
    replace (d sp * (S0 (ref self) * d sp ^ (i - j) * (u sp * u sp ^ j)))
      with (S0 (ref self) * d sp ^ (i - j) * u sp ^ j * (u sp * d sp)) by ring.
    rewrite Hud. ring.
Qed.

Lemma bermudan_loop_S_tree (self : OptionValuation) (sp : LT) (t : vec) (i : nat)
    (l : lattice) :
  u sp * d sp = 1 ->
  S_ l = terminal_S self sp i ->
  S_tree (Bermudan.loop self sp t i l)
  = map (terminal_S self sp) (seq 0 i) ++ S_tree l.
Proof.
  intros Hud. revert l; induction i as [|i IH]; intros l HS; [reflexivity|].
  change (Bermudan.loop self sp t (S i) l)
    with (Bermudan.loop self sp t i (Bermudan.step self sp t (S i) l)).
  rewrite IH.
  - change (S_tree (Bermudan.step self sp t (S i) l))
      with (prior_S sp (S i) (S_ l) :: S_tree l).
    rewrite HS, prior_S_terminal by exact Hud.
    rewrite seq_S, map_app, <- app_assoc. reflexivity.
  - change (S_ (Bermudan.step self sp t (S i) l)) with (prior_S sp (S i) (S_ l)).
    rewrite HS. now apply prior_S_terminal.
Qed.

(** X4: on a recombining lattice ([u * d = 1]) the asset tree a
    Bermudan LT call keeps is the binomial tree: layer [k] holds the
    prices [S0 * d^(k-j) * u^j] for [j = 0..k], and the root holds
    [S0]. *)
Theorem bermudan_LT_asset_tree (self : OptionValuation) (sp : LT) (t : vec) (n : nat) :
  u sp * d sp = 1 ->
  S_tree (Bermudan.LT_lattice self sp t n)
  = map (spec_terminal_S self sp) (seq 0 (n + 1))
  /\ nth 0 (S_tree (Bermudan.LT_lattice self sp t n)) [] = [S0 (ref self)].
Proof.
  intros Hud.
  assert (E : S_tree (Bermudan.LT_lattice self sp t n)
              = map (spec_terminal_S self sp) (seq 0 (n + 1))).
  { unfold Bermudan.LT_lattice.
    rewrite (bermudan_loop_S_tree self sp t n (init_lattice self sp n) Hud eq_refl).
    cbn [S_tree init_lattice].
    replace (n + 1)%nat with (S n) by lia. rewrite seq_S, map_app. simpl.
    rewrite terminal_S_spec. f_equal.
    apply map_ext. intros k. apply terminal_S_spec. }
  split; [exact E|]. rewrite E.
  replace (n + 1)%nat with (S n) by lia. simpl.
  unfold spec_terminal_S. simpl. f_equal. ring.
Qed.

End TreeShape.

(** ** Shout: values and failures *)
Section ShoutMore.

Import Np.

Variable Phi : R -> R.

Lemma payout_nonneg (self : OptionValuation) (S1 : vec) :
  Forall (Rle 0) (payout self S1).
Proof.
  unfold payout, maximum_scalar. apply Forall_forall. intros x Hx.
  apply in_map_iff in Hx as (y & <- & _). apply Rmax_r.
Qed.

Lemma maximum_nonneg_r (a b : vec) : Forall (Rle 0) b -> Forall (Rle 0) (maximum a b).
Proof.
  intros H; revert a; induction H; intros [|z a]; simpl; constructor; auto.
  eapply Rle_trans; [eassumption|apply Rmax_r].
Qed.

Lemma shout_loop_nonneg (self : OptionValuation) (sp : LT) (n : nat) :
  0 < vol (ref self) -> 0 < dt sp ->
  forall (i : nat) (l : lattice),
    Forall (Forall (Rle 0)) (O_tree l) ->
    exists l',
      Shout.loop Phi self sp n i l = Ok l'
      /\ Forall (Forall (Rle 0)) (O_tree l').
Proof.
  intros Hv Hdt. induction i as [|i IH]; intros l Ht.
  - exists l. split; [reflexivity|exact Ht].
  - change (Shout.loop Phi self sp n (S i) l)
      with (l' <- Shout.step Phi self sp n (S i) l ;; Shout.loop Phi self sp n i l').
    destruct (shout_step_ok Phi self sp n (S i) l Hv Hdt) as (d1 & d2 & ->).
    cbn [bind]. cbv zeta. apply IH. cbn [O_tree].
    constructor; [|exact Ht].
    apply maximum_nonneg_r. unfold maximum_scalar.
    apply Forall_forall. intros x Hx.
    apply in_map_iff in Hx as (y & <- & _). apply Rmax_r.
Qed.

(** X5: with a positive volatility and step length the Shout lattice
    is built without an exception and no node of its option tree is
    negative, whatever the risk-neutral probability, the discount
    factor and the normal CDF: every interior value is floored by
    [maximum(Shout, 0)]. *)
Theorem shout_LT_values_nonneg (self : OptionValuation) (sp : LT) (n : nat) :
  0 < vol (ref self) -> 0 < dt sp ->
  exists l,
    Shout.LT_lattice Phi self sp n = Ok l
    /\ Forall (Forall (Rle 0)) (O_tree l).
Proof.
  intros Hv Hdt. unfold Shout.LT_lattice.
  apply shout_loop_nonneg; try assumption.
  cbn [O_tree init_lattice]. constructor; [apply payout_nonneg|constructor].
Qed.

End ShoutMore.

(** ** Bermudan: more on the Monte Carlo method *)
Section MonteCarloMore.

Import Np.

Variable polyfit : nvec -> nvec -> Z -> result nvec.

(** X7: the regression never reaches the Monte Carlo price.  With
    [npaths >= 1], a degree and a schedule that is not empty,
    [_calc_MC] either fails inside the regression loop, leaving
    [px_spec] as it was, or records a price that the degree, the fitted
    polynomials and the later dates play no part in: when the first
    exercise date [t0] is not negative, the mean over the paths of the
    payout at [S0 * exp((r - q - vol^2/2) * t0 + vol * z * sqrt(t0))],
    which is not discounted; when it is negative, nan. *)
Theorem bermudan_MC_price_is_first_date_mean (self : OptionValuation)
    (st : Bermudan.state) (k : nat) (deg : Z) (t0 : R) (rest : vec) :
  npaths (Bermudan.px_spec st) = Some (S k) ->
  deg_R (Bermudan.px_spec st) = Some deg ->
  Bermudan.tex st = t0 :: rest ->
  (exists st',
     Bermudan._calc_MC polyfit self st = (st', Ok tt)
     /\ (0 <= t0 ->
         px (Bermudan.px_spec st')
         = Some (Fin (mean (payout self
                              (first_date_reals self (S k) t0 (Bermudan.rng st))))))
     /\ (t0 < 0 -> px (Bermudan.px_spec st') = Some NonFinite))
  \/ (exists st' e,
        Bermudan._calc_MC polyfit self st = (st', Raise e)
        /\ Bermudan.px_spec st' = Bermudan.px_spec st).
Proof.
  intros Hn Hd Et.
  destruct (calc_MC_outcome polyfit self st (S k) deg t0 rest Hn Hd Et)
    as [(st' & E & P & _) | (st' & e & x & y & E & _ & Hps & _)].
  - left. exists st'. split; [exact E|]. split.
    + intros Ht. rewrite P, first_date_prices_finite by exact Ht.
      rewrite bermudan_payout_finite, np_mean_finite; [reflexivity|].
      intros H. apply (f_equal (@List.length R)) in H.
      rewrite length_payout in H. unfold first_date_reals in H.
      rewrite length_map, length_seq in H. discriminate.
    + intros Ht. rewrite P, first_date_prices_nan by exact Ht.
      now rewrite np_mean_nan.
  - right. exists st', e. split; assumption.
Qed.

Lemma propagate_generator (self : OptionValuation) (m : nat) (delta_Ts : vec)
    (col : nvec) (g : Bermudan.generator) (j : nat) :
  snd (Bermudan.propagate self m delta_Ts col g) j
  = g (m * List.length delta_Ts + j)%nat.
Proof.
  revert col g j; induction delta_Ts as [|x rest IH]; intros col g j.
  - simpl. f_equal. lia.
  - cbn [Bermudan.propagate]. unfold Bermudan.normal.
    destruct (Bermudan.propagate self m rest _ _) as [cols g2] eqn:E.
    cbn [snd].
    pose proof (IH (map2 nmul col (map (Bermudan.discount self x) (map g (seq 0 m))))
                   (fun j0 => g (m + j0)%nat) j) as H.
    rewrite E in H. cbn [snd] in H. rewrite H.
    f_equal. simpl List.length. lia.
Qed.

Lemma length_delta_Ts_from (prev : R) (t : vec) :
  List.length (Bermudan.delta_Ts_from prev t) = List.length t.
Proof. revert prev; induction t; intros; simpl; auto. Qed.

(** X8: a Monte Carlo call takes exactly [npaths * len(tex)] draws
    from the generator, and takes them whether or not the regression
    fails afterwards: the generator it leaves is the one it found,
    moved on by that many draws. *)
Theorem bermudan_MC_draws (self : OptionValuation) (st : Bermudan.state) (m : nat)
    (deg : Z) :
  npaths (Bermudan.px_spec st) = Some m ->
  deg_R (Bermudan.px_spec st) = Some deg ->
  forall j,
    Bermudan.rng (fst (Bermudan._calc_MC polyfit self st)) j
    = Bermudan.rng st (m * List.length (Bermudan.tex st) + j)%nat.
Proof.
  intros Hn Hd j.
  unfold Bermudan._calc_MC.
  unfold Bermudan.bindM at 1. unfold Bermudan.get at 1.
  rewrite Hn, Hd.
  unfold Bermudan.bindM at 1. unfold Bermudan.lift at 1.
  unfold Bermudan.bindM at 1. unfold Bermudan.lift at 1.
  unfold Bermudan.generate_stock_price_paths.
  pose proof (propagate_generator self m (Bermudan.delta_T_array (Bermudan.tex st))
                (repeat (Fin (S0 (ref self))) m) (Bermudan.rng st) j) as Hg.
  destruct (Bermudan.propagate self m _ _ _) as [cols g'].
  cbn [snd] in Hg. unfold Bermudan.delta_T_array in Hg.
  rewrite length_delta_Ts_from in Hg.
  unfold Bermudan.bindM at 1. unfold Bermudan.set_rng at 1.
  unfold Bermudan.bindM at 1. unfold Bermudan.lift at 1.
  destruct (Bermudan.backward polyfit deg _ _ _ _) as [tp|e]; [|exact Hg].
  unfold Bermudan.bindM at 1. unfold Bermudan.lift at 1.
  destruct (Bermudan.get_column tp 1) as [first|e]; [|exact Hg].
  unfold Bermudan.bindM, Bermudan.get, Bermudan.set_px_spec, Bermudan.ret.
  cbn [Bermudan.px_spec Bermudan.rng Bermudan.tex].
  destruct (keep_hist _); exact Hg.
Qed.

(** An entry that is a positive real. *)
Definition positive (a : npfloat) : Prop := exists x, a = Fin x /\ 0 < x.

Lemma next_column_pos (self : OptionValuation) (delta_T : R) (col : nvec) (zs : vec) :
  0 <= delta_T -> Forall positive col ->
  Forall positive (map2 nmul col (map (Bermudan.discount self delta_T) zs)).
Proof.
  intros Hd H; revert zs; induction H as [|c col Hc Hcol IH]; intros [|z zs]; simpl;
    constructor.
  - destruct Hc as (x & -> & Hx).
    unfold Bermudan.discount, Bermudan.np_sqrt.
    destruct (Rlt_dec delta_T 0) as [E|_]; [lra|].
    eexists. split; [reflexivity|].
    apply Rmult_lt_0_compat; [exact Hx|apply exp_pos].
  - apply IH.
Qed.

Lemma propagate_shape (self : OptionValuation) (m : nat) (delta_Ts : vec) (col : nvec)
    (g : Bermudan.generator) :
  List.length col = m ->
  List.length (fst (Bermudan.propagate self m delta_Ts col g)) = List.length delta_Ts
  /\ Forall (fun c => List.length c = m) (fst (Bermudan.propagate self m delta_Ts col g))
  /\ (Forall (Rle 0) delta_Ts -> Forall positive col ->
      Forall (Forall positive) (fst (Bermudan.propagate self m delta_Ts col g))).
Proof.
  revert col g; induction delta_Ts as [|x rest IH]; intros col g Hc.
  - simpl. repeat split; constructor.
  - cbn [Bermudan.propagate]. unfold Bermudan.normal.
    set (next := map2 nmul col (map (Bermudan.discount self x) (map g (seq 0 m)))).
    assert (Hn : List.length next = m).
    { unfold next. rewrite length_map2, !length_map, length_seq. lia. }
    specialize (IH next (fun j => g (m + j)%nat) Hn).
    destruct (Bermudan.propagate self m rest next _) as [cols g2].
    cbn [fst] in *. destruct IH as (A & B & C).
    split; [simpl; lia|]. split; [constructor; assumption|].
    intros Hd Hpos. inversion Hd as [|? ? Hx Hrest]; subst.
    assert (Hnext : Forall positive next) by now apply next_column_pos.
    constructor; [exact Hnext|]. now apply C.
Qed.

(** X9: the matrix of simulated prices has one column for the start
    and one for each exercise date, every column holds [npaths]
    prices and the first column holds the spot price; with a positive
    spot price and time differences that are not negative (a first
    date that is not negative and dates that do not decrease) every
    simulated price is a positive real. *)
Theorem bermudan_MC_path_matrix (self : OptionValuation) (m : nat) (t : vec)
    (g : Bermudan.generator) :
  0 < S0 (ref self) ->
  Forall (Rle 0) (Bermudan.delta_T_array t) ->
  let paths := fst (Bermudan.generate_stock_price_paths self m
                      (Bermudan.delta_T_array t) g) in
  List.length paths = S (List.length t)
  /\ Forall (fun c => List.length c = m) paths
  /\ Bermudan.column paths 0 = repeat (Fin (S0 (ref self))) m
  /\ Forall (Forall positive) paths.
Proof.
  intros HS0 Hgaps. cbv zeta. unfold Bermudan.generate_stock_price_paths.
  destruct (propagate_shape self m (Bermudan.delta_T_array t)
              (repeat (Fin (S0 (ref self))) m) g (repeat_length _ _)) as (A & B & C).
  destruct (Bermudan.propagate self m _ _ g) as [cols g'].
  cbn [fst] in *.
  assert (Hstart : Forall positive (repeat (Fin (S0 (ref self))) m)).
  { apply Forall_forall. intros x Hx. apply repeat_spec in Hx. subst.
    eexists. split; [reflexivity|exact HS0]. }
  split.
  { simpl. rewrite A. unfold Bermudan.delta_T_array.
    now rewrite length_delta_Ts_from. }
  split; [constructor; [apply repeat_length|exact B]|].
  split; [reflexivity|].
  constructor; [exact Hstart|now apply C].
Qed.

Lemma cumsum_delta_Ts (prev : R) (t : vec) :
  cumsum_from prev (Bermudan.delta_Ts_from prev t) = t.
Proof.
  revert prev; induction t as [|x t IH]; intros prev; [reflexivity|].
  cbn [Bermudan.delta_Ts_from cumsum_from].
  replace (prev + (x - prev)) with x by ring. now rewrite IH.
Qed.

(** X10: the time differences of [delta_T_array] add back up to the
    exercise dates: their running sum is the schedule itself, so they
    sum to the last date. *)
Theorem delta_T_array_cumsum (t : vec) :
  cumsum (Bermudan.delta_T_array t) = t
  /\ sum (Bermudan.delta_T_array t) = last t 0.
Proof.
  split; [apply cumsum_delta_Ts|].
  unfold Bermudan.delta_T_array.
  assert (L : forall (l : vec) (x a : R), last (x :: l) a = last l x).
  { induction l as [|y l IHl]; intros x a; [reflexivity|].
    change (last (x :: y :: l) a) with (last (y :: l) a).
    change (last (y :: l) x) with (last (y :: l) x).
    rewrite !IHl. reflexivity. }
  assert (H : forall prev, prev + sum (Bermudan.delta_Ts_from prev t) = last t prev).
  { induction t as [|x t IH]; intros prev; [simpl; ring|].
    rewrite L, <- (IH x). cbn [Bermudan.delta_Ts_from]. rewrite sum_cons. ring. }
  specialize (H 0). rewrite Rplus_0_l in H. exact H.
Qed.

End MonteCarloMore.

(** ** Chooser: put-call parity on the lattice *)
Section LatticeParity.

Import Np.

Variable sp : LT.

(** The binomial weights applied to a geometric row plus a constant. *)
Lemma dot_bw_geometric (n : nat) (c x y k : R) :
  dot (bw sp n) (map (fun j => c * x ^ (n - j) * y ^ j + k) (seq 0 (S n)))
  = c * ((1 - p sp) * x + p sp * y) ^ n + k.
Proof.
  revert c; induction n as [|n IH]; intros c.
  - unfold dot. simpl. ring.
  - change (bw sp (S n))
      with (add (scal (1 - p sp) (bw sp n ++ [0])) (scal (p sp) (0 :: bw sp n))).
    rewrite dot_add_l
      by (rewrite !length_scal, length_app; simpl List.length; lia).
    rewrite !dot_scal_l, dot_snoc_zero.
    set (f := fun j : nat => c * x ^ (S n - j) * y ^ j + k).
    assert (E1 : dot (bw sp n) (map f (seq 0 (S (S n))))
                 = dot (bw sp n)
                     (map (fun j => (c * x) * x ^ (n - j) * y ^ j + k) (seq 0 (S n)))).
    { rewrite <- (dot_firstn (bw sp n) (map f (seq 0 (S (S n))))).
      rewrite length_bw, firstn_map.
      replace (firstn (S n) (seq 0 (S (S n)))) with (seq 0 (S n)).
      2:{ rewrite (seq_S (S n) 0), firstn_app, length_seq, Nat.sub_diag.
          simpl firstn at 2. rewrite app_nil_r.
          now rewrite firstn_all2 by (rewrite length_seq; lia). }
      f_equal. apply map_ext_in. intros j Hj. apply in_seq in Hj. unfold f.
      replace (S n - j)%nat with (S (n - j)) by lia. simpl. ring. }
    assert (E2 : dot (0 :: bw sp n) (map f (seq 0 (S (S n))))
                 = dot (bw sp n)
                     (map (fun j => (c * y) * x ^ (n - j) * y ^ j + k) (seq 0 (S n)))).
    { change (seq 0 (S (S n))) with (0%nat :: seq 1 (S n)).
      cbn [map]. rewrite dot_cons, <- seq_shift, map_map.
      replace (0 * f 0%nat) with 0 by ring. rewrite Rplus_0_l.
      f_equal. apply map_ext_in. intros j Hj. unfold f.
      replace (S n - S j)%nat with (n - j)%nat by lia. simpl. ring. }
    rewrite E1, E2, !IH. simpl. ring.
Qed.

Lemma payout_call_minus_put (c pt : OptionValuation) (S1 : vec) :
  right c = call -> right pt = put -> K c = K pt ->
  sub (payout c S1) (payout pt S1) = sub_scalar S1 (K c).
Proof.
  intros Hc Hp HK. rewrite !payout_spec. unfold spec_payout, signCP, sub, sub_scalar.
  rewrite Hc, Hp, <- HK.
  induction S1 as [|s S1 IH]; [reflexivity|].
  cbn [map map2]. f_equal; [|exact IH].
  unfold Rmax.
  destruct (Rle_dec (1 * (s - K c)) 0), (Rle_dec (-1 * (s - K c)) 0); lra.
Qed.

Lemma dot_sub_r (a b c : vec) :
  List.length b = List.length c -> dot a (sub b c) = dot a b - dot a c.
Proof.
  revert b c; induction a as [|x a IH]; intros [|y b] [|z c] H; simpl in H;
    try discriminate; try (unfold dot; simpl; ring).
  change (sub (y :: b) (z :: c)) with ((y - z) :: sub b c).
  rewrite !dot_cons, IH by lia. ring.
Qed.

(** X11: put-call parity holds on the lattice.  For a call and a put
    on the same stock with the same strike, the root values of the
    [keep_hist] backward induction differ by the discounted forward
    minus the discounted strike, whatever the lattice parameters:
    [call - put = df_dt^n * (S0 * ((1-p)*d + p*u)^n - K)]. *)
Theorem chooser_LT_put_call_parity (c pt : OptionValuation) (n : nat) :
  right c = call -> right pt = put -> ref c = ref pt -> K c = K pt ->
  nth 0 (nth 0 (O_tree (Chooser.loop sp n (init_lattice c sp n))) []) 0
  - nth 0 (nth 0 (O_tree (Chooser.loop sp n (init_lattice pt sp n))) []) 0
  = df_dt sp ^ n
    * (S0 (ref c) * ((1 - p sp) * d sp + p sp * u sp) ^ n - K c).
Proof.
  intros Hc Hp Href HK.
  rewrite !chooser_hist_root.
  assert (HS : terminal_S pt sp n = terminal_S c sp n).
  { unfold terminal_S. now rewrite Href. }
  rewrite HS, <- Rmult_minus_distr_l. f_equal.
  rewrite <- dot_sub_r by now rewrite !length_payout.
  rewrite (payout_call_minus_put c pt _ Hc Hp HK).
  rewrite terminal_S_spec. unfold spec_terminal_S, sub_scalar.
  rewrite map_map. replace (n + 1)%nat with (S n) by lia.
  replace (S0 (ref c) * ((1 - p sp) * d sp + p sp * u sp) ^ n - K c)
    with (S0 (ref c) * ((1 - p sp) * d sp + p sp * u sp) ^ n + - K c) by ring.
  rewrite <- (dot_bw_geometric n (S0 (ref c)) (d sp) (u sp) (- K c)).
  reflexivity.
Qed.

End LatticeParity.

(** ** Bermudan: more on the schedule and the step count *)
Section ScheduleMore.

Import Np.

Lemma fold_left_Rmax_le (l : vec) (x m : R) :
  x <= m -> Forall (fun y => y <= m) l -> fold_left Rmax l x <= m.
Proof.
  revert x; induction l as [|y l IH]; intros x Hx Hl; [exact Hx|].
  inversion Hl; subst. simpl. apply IH; [|assumption].
  now apply Rmax_lub.
Qed.

Lemma py_max_snoc (l : vec) (m : R) :
  Forall (fun y => y <= m) l -> Bermudan.py_max (l ++ [m]) = Ok m.
Proof.
  intros Hl. destruct l as [|x l]; [reflexivity|].
  inversion Hl; subst. cbn [app Bermudan.py_max]. f_equal.
  rewrite fold_left_app. cbn [fold_left].
  apply Rmax_right. now apply fold_left_Rmax_le.
Qed.

Lemma filter_all (f : R -> bool) (l : vec) :
  Forall (fun x => f x = true) l -> filter f l = l.
Proof.
  induction 1 as [|x l Hx Hl IH]; [reflexivity|].
  simpl. now rewrite Hx, IH.
Qed.

Lemma Rltb_true (x y : R) : x < y -> Bermudan.Rltb x y = true.
Proof. intros H. unfold Bermudan.Rltb. now destruct (Rlt_dec x y). Qed.

Lemma Rltb_irrefl (x : R) : Bermudan.Rltb x x = false.
Proof. unfold Bermudan.Rltb. destruct (Rlt_dec x x); [lra|reflexivity]. Qed.

Lemma Forall_filter_Rltb (y : R) (l : vec) :
  Forall (fun x => x < y) (filter (fun x => Bermudan.Rltb x y) l).
Proof.
  apply Forall_forall. intros x Hx. apply filter_In in Hx as [_ Hx].
  unfold Bermudan.Rltb in Hx. now destruct (Rlt_dec x y).
Qed.

(** The schedule with an end date appended, all earlier dates below
    it, is what [calc_px] stores for itself. *)
Lemma normalize_fixed (self : OptionValuation) (l : vec) :
  Forall (fun x => x < T self) l ->
  Bermudan.py_max (l ++ [T self]) = Ok (T self)
  /\ snd (Bermudan.normalize self (T self) (l ++ [T self])) = l ++ [T self].
Proof.
  intros Hl. split.
  - apply py_max_snoc. eapply Forall_impl; [|exact Hl]. intros; cbv beta in *; lra.
  - unfold Bermudan.normalize. pose proof epsilon_pos.
    destruct (Rlt_dec (T self - T self) Bermudan.epsilon) as [_|Hn]; [|lra].
    cbn [snd]. rewrite filter_app. cbn [filter]. rewrite Rltb_irrefl, app_nil_r.
    f_equal. apply filter_all.
    eapply Forall_impl; [|exact Hl]. intros x Hx. now apply Rltb_true.
Qed.

(** X12: the schedule [calc_px] stores is a fixed point of its own
    normalization: fed back as [tex], it has a maximum and is stored
    again unchanged.  No order of the dates is needed for this. *)
Theorem bermudan_normalize_idempotent (self : OptionValuation) (t : vec) (Tmax : R) :
  Bermudan.py_max t = Ok Tmax ->
  let t' := snd (Bermudan.normalize self Tmax t) in
  exists Tmax',
    Bermudan.py_max t' = Ok Tmax'
    /\ snd (Bermudan.normalize self Tmax' t') = t'.
Proof.
  intros Hmax. cbv zeta. pose proof (py_max_ge t Tmax Hmax) as Hle.
  pose proof epsilon_pos as He.
  remember (snd (Bermudan.normalize self Tmax t)) as t' eqn:Et.
  unfold Bermudan.normalize in Et.
  destruct (Rlt_dec (T self - Tmax) Bermudan.epsilon) as [Hlt|Hnlt].
  - cbn [snd] in Et. subst t'. exists (T self).
    apply normalize_fixed, Forall_filter_Rltb.
  - destruct (Rlt_dec Bermudan.epsilon (T self - Tmax)) as [Hgt|Hngt].
    + cbn [snd] in Et. subst t'. exists (T self). apply normalize_fixed.
      apply Forall_removelast. eapply Forall_impl; [|exact Hle].
      intros x Hx. cbv beta in *. lra.
    + cbn [snd] in Et. subst t'. exists Tmax. split; [exact Hmax|].
      unfold Bermudan.normalize.
      destruct (Rlt_dec (T self - Tmax) Bermudan.epsilon); [contradiction|].
      destruct (Rlt_dec Bermudan.epsilon (T self - Tmax)); [contradiction|].
      reflexivity.
Qed.

Lemma fold_left_Zmax_ge_init (l : list Z) (k : Z) : (k <= fold_left Z.max l k)%Z.
Proof.
  revert k; induction l as [|y l IH]; intros k; simpl; [lia|].
  specialize (IH (Z.max k y)). lia.
Qed.

Lemma py_int_quotient (Tmax g : R) :
  0 < Tmax -> 0 < g ->
  (0 <= py_int (Tmax / g))%Z /\ (g <= Tmax -> (1 <= py_int (Tmax / g))%Z).
Proof.
  intros HT Hg.
  assert (Hq : 0 < Tmax / g) by (apply Rdiv_lt_0_compat; assumption).
  unfold py_int. destruct (Rle_dec 0 (Tmax / g)) as [_|Hn]; [|lra].
  split.
  - apply Zfloor_lub. simpl. lra.
  - intros Hle. apply Zfloor_lub. simpl.
    apply (Rmult_le_reg_r g); [exact Hg|].
    unfold Rdiv. rewrite Rmult_assoc, Rinv_l by lra. lra.
Qed.

Lemma steps_of_gaps_increasing (numpy : bool) (Tmax : R) (t : vec) :
  0 < Tmax -> StronglySorted Rlt t ->
  exists ks,
    Bermudan.steps_of_gaps numpy Tmax t = Ok ks
    /\ List.length ks = (List.length t - 1)%nat
    /\ Forall (fun k => (0 <= k)%Z) ks
    /\ (Forall (fun x => 0 < x <= Tmax) t -> Forall (fun k => (1 <= k)%Z) ks).
Proof.
  intros HT Hs. induction Hs as [|x t Hs IH Hx].
  - exists []. repeat split; constructor.
  - destruct t as [|y t].
    + exists []. repeat split; constructor.
    + destruct IH as (ks & E & Hlen & H0 & H1).
      assert (Hxy : x < y) by now inversion Hx.
      change (Bermudan.steps_of_gaps numpy Tmax (x :: y :: t))
        with (k <- Bermudan.steps_of_gap numpy Tmax x y ;;
              ks <- Bermudan.steps_of_gaps numpy Tmax (y :: t) ;;
              Ok (k :: ks)).
      unfold Bermudan.steps_of_gap.
      destruct (Req_dec_T (y - x) 0) as [Hz|_]; [lra|].
      cbn [bind]. rewrite E. cbn [bind].
      destruct (py_int_quotient Tmax (y - x) HT) as [Hq0 Hq1]; [lra|].
      exists (py_int (Tmax / (y - x)) :: ks).
      split; [reflexivity|]. split; [simpl in *; lia|].
      split; [now constructor|].
      intros Hb. inversion Hb as [|? ? Hbx Hbt]; subst.
      constructor; [|now apply H1].
      apply Hq1. inversion Hbt; subst. lra.
Qed.

(** X13: for a strictly increasing schedule of two or more dates and a
    positive latest date the step count is computed without an error,
    whichever of the two divisions is used; it is never negative, it is
    at least 1 (at least [nsteps] when that is given and positive)
    when the dates lie in (0, max], and it is a multiple of [nsteps]. *)
Theorem knsteps_increasing_schedule (numpy : bool) (Tmax : R) (t : vec) :
  0 < Tmax -> StronglySorted Rlt t -> (2 <= List.length t)%nat ->
  exists k,
    (0 <= k)%Z
    /\ Bermudan.knsteps numpy Tmax t None = Ok k
    /\ (forall n, Bermudan.knsteps numpy Tmax t (Some n) = Ok (k * n)%Z)
    /\ (Forall (fun x => 0 < x <= Tmax) t -> (1 <= k)%Z).
Proof.
  intros HT Hs Hlen.
  destruct (steps_of_gaps_increasing numpy Tmax t HT Hs) as (ks & E & Hl & H0 & H1).
  destruct ks as [|k0 ks]; [simpl in Hl; lia|].
  exists (fold_left Z.max ks k0).
  pose proof (fold_left_Zmax_ge_init ks k0) as Hge.
  inversion H0; subst.
  split; [lia|]. unfold Bermudan.knsteps. rewrite E. cbn [bind Bermudan.py_max_int].
  split; [reflexivity|]. split; [reflexivity|].
  intros Hb. specialize (H1 Hb). inversion H1; subst. lia.
Qed.

End ScheduleMore.

(** ** Bermudan: what a failing call leaves behind *)
Section BermudanFailure.

Import Np.

Variable LTm : OptionValuation -> Z -> result LT.
Variable seedf : Z -> result Bermudan.generator.
Variable polyfit : nvec -> nvec -> Z -> result nvec.

Lemma calc_MC_raise_frame (self : OptionValuation) (st st' : Bermudan.state) (e : exn) :
  Bermudan._calc_MC polyfit self st = (st', Raise e) ->
  Bermudan.px_spec st' = Bermudan.px_spec st.
Proof.
  unfold Bermudan._calc_MC, Bermudan.bindM, Bermudan.get, Bermudan.lift.
  destruct (npaths (Bermudan.px_spec st)) as [m|]; [|now intros [= <- _]].
  destruct (deg_R (Bermudan.px_spec st)) as [dg|]; [|now intros [= <- _]].
  destruct (Bermudan.generate_stock_price_paths self m _ _) as [paths g].
  unfold Bermudan.set_rng.
  destruct (Bermudan.backward polyfit dg paths _ _ _) as [tp|e']; [|now intros [= <- _]].
  destruct (Bermudan.get_column tp 1) as [first|e']; [|now intros [= <- _]].
  unfold Bermudan.set_px_spec, Bermudan.ret. cbn [Bermudan.px_spec].
  destruct (keep_hist (Bermudan.px_spec st)); discriminate.
Qed.

Lemma calc_LT_raise_frame (self : OptionValuation) (st st' : Bermudan.state) (e : exn) :
  Bermudan._calc_LT LTm self st = (st', Raise e) ->
  Bermudan.px_spec st' = Bermudan.px_spec st.
Proof.
  unfold Bermudan._calc_LT, Bermudan.bindM, Bermudan.get, Bermudan.lift, Bermudan.raise.
  destruct (LTm self _) as [sp|e']; [|now intros [= <- _]].
  destruct (get_nsteps (Bermudan.px_spec st) <? 0)%Z; [now intros [= <- _]|].
  destruct (demote _) as [v|e']; [|now intros [= <- _]].
  unfold Bermudan.set_px_spec. discriminate.
Qed.

Lemma dispatch_raise_frame (self : OptionValuation) (m : string)
    (st st' : Bermudan.state) (e : exn) :
  Bermudan.dispatch LTm polyfit self m st = (st', Raise e) ->
  Bermudan.px_spec st' = Bermudan.px_spec st.
Proof.
  unfold Bermudan.dispatch.
  destruct (String.eqb (upper m) "BS"); [discriminate|].
  destruct (String.eqb (upper m) "LT"); [apply calc_LT_raise_frame|].
  destruct (String.eqb (upper m) "MC"); [apply calc_MC_raise_frame|].
  destruct (String.eqb (upper m) "FD"); [discriminate|].
  unfold Bermudan.raise. now intros [= <- _].
Qed.

(** X14: a [calc_px] call that raises records no price.  Its
    [px_spec] is then either the one the object had before the call,
    untouched (the seed, the schedule or the step count failed), or the
    fresh one made from the arguments, which holds no [px] (the
    pricing method failed). *)
Theorem bermudan_failed_call_records_no_price (self : OptionValuation)
    (method : string) (tex0 : vec) (nsteps : option Z) (npaths : option nat)
    (kh : bool) (deg : option Z) (seed : Z) (st st' : Bermudan.state) (e : exn) :
  Bermudan.calc_px LTm seedf polyfit self method tex0 nsteps npaths kh deg seed st
  = (st', Raise e) ->
  Bermudan.px_spec st' = Bermudan.px_spec st
  \/ (px (Bermudan.px_spec st') = None
      /\ exists k, Bermudan.px_spec st'
                   = new_PriceSpec method (Some k) npaths kh deg (Some seed)).
Proof.
  destruct (seedf seed) as [g|e0] eqn:Es.
  2:{ rewrite (bermudan_calc_px_seed_raise LTm seedf polyfit _ _ _ _ _ _ _ _ _ e0 Es).
      intros [= <- _]. now left. }
  destruct (Bermudan.py_max tex0) as [Tmax|e0] eqn:Em.
  2:{ rewrite (bermudan_calc_px_max_raise LTm seedf polyfit _ _ _ _ _ _ _ _ _ g e0 Es Em).
      intros [= <- _]. now left. }
  rewrite (bermudan_calc_px_unfold LTm seedf polyfit _ _ _ _ _ _ _ _ _ g Tmax Es Em).
  rewrite bermudan_after_knsteps.
  destruct (Bermudan.knsteps _ Tmax _ nsteps) as [k|e0].
  - intros H. apply dispatch_raise_frame in H. cbn [Bermudan.px_spec] in H.
    right. rewrite H. split; [reflexivity|]. now exists k.
  - intros [= <- _]. now left.
Qed.

End BermudanFailure.

(** The hypothesis of [bermudan_failed_call_records_no_price] holds for
    a call with an empty schedule. *)
Lemma bermudan_failed_call_records_no_price_witness :
  Bermudan.calc_px LT_specs_checked seed_zeros polyfit_refused put_two_steps "LT"
    [] None None false None default_seed bermudan_fresh
  = (bermudan_fresh, Raise ValueError)
  /\ (Bermudan.px_spec bermudan_fresh = Bermudan.px_spec bermudan_fresh
      \/ (px (Bermudan.px_spec bermudan_fresh) = None
          /\ exists k, Bermudan.px_spec bermudan_fresh
                       = new_PriceSpec "LT" (Some k) None false None
                           (Some default_seed))).
Proof.
  assert (H : Bermudan.calc_px LT_specs_checked seed_zeros polyfit_refused
                put_two_steps "LT" [] None None false None default_seed
                bermudan_fresh
              = (bermudan_fresh, Raise ValueError)) by reflexivity.
  split; [exact H|].
  exact (bermudan_failed_call_records_no_price LT_specs_checked seed_zeros
           polyfit_refused put_two_steps "LT" [] None None false None default_seed
           bermudan_fresh bermudan_fresh ValueError H).
Defined.

(** * The closed forms of chooser.py *)

(** ** [Chooser._calc_BS] *)
Module ChooserBS.

(** [math.log]: a domain error at zero and below. *)
Definition math_log (x : R) : result R :=
  if Rlt_dec 0 x then Ok (ln x) else Raise ValueError.

(** [self.tau] in arithmetic: [None] is a [TypeError]. *)
Definition number (tau : option R) : result R :=
  match tau with
  | Some t => Ok t
  | None => Raise TypeError
  end.

Section Calls.

(** [scipy.stats.norm.cdf] *)
Variable Phi : R -> R.

(** The keyword arguments [px], [d1], [d2] that [_calc_BS] hands to
    [px_spec.add], in the order the source evaluates what can raise:
    [S0/K], [log], [sqrt(T)] and the division for [d2]; then, for
    [d2n], the product with [tau], [sqrt(tau)] and the division.
    ([log(S0/K)] and [sqrt(T)] are evaluated a second time, with the
    outcome they had the first time.) *)
Definition BS_out (self : OptionValuation) (tau : option R) : result (R * R * R) :=
  let S0 := S0 (ref self) in
  let vol := vol (ref self) in
  let q := q (ref self) in
  let K := K self in
  let T := T self in
  let rf_r := rf_r self in
  x <- py_div S0 K ;;
  lg <- math_log x ;;
  sqrt_T <- math_sqrt T ;;
  d2 <- py_div (lg + (rf_r - q - vol ^ 2 / 2) * T) (vol * sqrt_T) ;;
  let d1 := d2 + vol * sqrt_T in
  t <- number tau ;;
  sqrt_tau <- math_sqrt t ;;
  d2n <- py_div (lg + (rf_r - q) * T - vol ^ 2 * t / 2) (vol * sqrt_tau) ;;
  let d1n := d2n + vol * sqrt_tau in
  let px := S0 * exp (- q * T) * Phi d1 - K * exp (- rf_r * T) * Phi d2
            + K * exp (- rf_r * T) * Phi (- d2n) - S0 * exp (- q * T) * Phi (- d1n) in
  Ok (px, d1, d2).

(** [px_spec.add(px=px, d1=d1, d2=d2)]; the record of this development
    has no place for [d1] and [d2], which [BS_out] keeps. *)
Definition add_BS (ps : PriceSpec) (v : R) : PriceSpec :=
  mkPriceSpec (method ps) (nsteps ps) (npaths ps) (keep_hist ps) (deg_R ps) (seed ps)
              (Some (Fin v)) (sub_method ps) (LT_specs_used ps) (ref_tree ps)
              (opt_tree ps) (stock_price_paths ps) (payouts ps) (terminal_payouts ps).

Definition _calc_BS (self : OptionValuation) (st : Chooser.state)
    : result Chooser.state :=
  out <- BS_out self (Chooser.tau st) ;;
  let '(px, _, _) := out in
  Ok (Chooser.mkState (Chooser.tau st) (add_BS (Chooser.px_spec st) px)).

End Calls.

End ChooserBS.

(** ** The function [chooser] *)
Module ChooserFunction.

(** A numpy [float64]: the values the function computes can be
    infinite or nan, which numpy reports with a warning only. *)
Inductive float64 : Type :=
| Num (x : R)
| PInf
| MInf
| NaN.

(** What a call does: it returns the price or fails an [assert].  The
    arguments are taken as the floats and the string the docstring
    asks for, so the conversions of the [try] block succeed. *)
Inductive outcome : Type :=
| Returns (price : float64)
| AssertionError.

(** [right.lower()] on the ASCII letters. *)
Definition lower_ascii (c : ascii) : ascii :=
  let n := nat_of_ascii c in
  if andb (Nat.leb 65 n) (Nat.leb n 90) then ascii_of_nat (n + 32) else c.

Fixpoint lower (s : string) : string :=
  match s with
  | EmptyString => EmptyString
  | String c s' => String (lower_ascii c) (lower s')
  end.

(** [numpy.log] and [numpy.sqrt] of a Python float. *)
Definition np_log (x : R) : float64 :=
  if Rlt_dec 0 x then Num (ln x)
  else if Req_dec_T x 0 then MInf else NaN.

Definition np_sqrt (x : R) : float64 :=
  if Rlt_dec x 0 then NaN else Num (sqrt x).

Definition neg (a : float64) : float64 :=
  match a with
  | Num x => Num (- x)
  | PInf => MInf
  | MInf => PInf
  | NaN => NaN
  end.

Definition fadd (a b : float64) : float64 :=
  match a, b with
  | NaN, _ | _, NaN => NaN
  | Num x, Num y => Num (x + y)
  | PInf, MInf | MInf, PInf => NaN
  | PInf, _ | _, PInf => PInf
  | MInf, _ | _, MInf => MInf
  end.

Definition fsub (a b : float64) : float64 := fadd a (neg b).

(** The product of a Python float with a [float64]. *)
Definition scale (c : R) (a : float64) : float64 :=
  match a with
  | Num x => Num (c * x)
  | NaN => NaN
  | PInf => if Rlt_dec 0 c then PInf else if Rlt_dec c 0 then MInf else NaN
  | MInf => if Rlt_dec 0 c then MInf else if Rlt_dec c 0 then PInf else NaN
  end.

(** [a / b] on [float64]: a zero divisor gives an infinity, or nan for
    [0 / 0]. *)
Definition fdiv (a b : float64) : float64 :=
  match a, b with
  | NaN, _ | _, NaN => NaN
  | Num x, Num y =>
      if Req_dec_T y 0 then
        if Rlt_dec 0 x then PInf else if Rlt_dec x 0 then MInf else NaN
      else Num (x / y)
  | Num _, _ => Num 0
  | PInf, Num y => if Rlt_dec y 0 then MInf else PInf
  | MInf, Num y => if Rlt_dec y 0 then PInf else MInf
  | _, _ => NaN
  end.

Section Calls.

(** [scipy.stats.norm.cdf] on the finite values; it is 1 at inf, 0 at
    -inf and nan at nan. *)
Variable Phi : R -> R.

Definition cdf (a : float64) : float64 :=
  match a with
  | Num x => Num (Phi x)
  | PInf => Num 1
  | MInf => Num 0
  | NaN => NaN
  end.

Definition chooser (S K T vol rfr q : R) (right : string) (tau : R) : outcome :=
  let right := lower right in
  if negb (String.eqb right "call" || String.eqb right "put") then AssertionError
  else if negb (Bermudan.Rltb 0 vol) then AssertionError
  else if negb (Bermudan.Rltb 0 K) then AssertionError
  else if negb (Bermudan.Rltb 0 T) then AssertionError
  else if Bermudan.Rltb S 0 then AssertionError
  else if Bermudan.Rltb rfr 0 then AssertionError
  else if Bermudan.Rltb q 0 then AssertionError
  else
    let d2 := fdiv (fadd (np_log (S / K)) (Num ((rfr - q - vol ^ 2 / 2) * T)))
                   (scale vol (np_sqrt T)) in
    let d1 := fadd d2 (scale vol (np_sqrt T)) in
    let d2n := fdiv (fsub (fadd (np_log (S / K)) (Num ((rfr - q) * T)))
                          (Num (vol ^ 2 * tau / 2)))
                    (scale vol (np_sqrt tau)) in
    let d1n := fadd d2n (scale vol (np_sqrt tau)) in
    let price :=
      fsub (fadd (fsub (scale (S * exp (- q * T)) (cdf d1))
                       (scale (K * exp (- rfr * T)) (cdf d2)))
                 (scale (K * exp (- rfr * T)) (cdf (neg d2n))))
           (scale (S * exp (- q * T)) (cdf (neg d1n))) in
    Returns price.

End Calls.

End ChooserFunction.

(** ** The closed form of the method *)
Section ChooserClosedForm.

Variable Phi : R -> R.
Variable LTm : OptionValuation -> Z -> result LT.

(** The two arguments of the normal CDF in the Black-Scholes value of
    the underlying call, and the call and put value at given
    arguments, as [_calc_BS] and [chooser] write them. *)
Definition chooser_d2 (self : OptionValuation) : R :=
  (ln (S0 (ref self) / K self)
   + (rf_r self - q (ref self) - vol (ref self) ^ 2 / 2) * T self)
  / (vol (ref self) * sqrt (T self)).

Definition chooser_d1 (self : OptionValuation) : R :=
  chooser_d2 self + vol (ref self) * sqrt (T self).

Definition call_value (self : OptionValuation) (d1 d2 : R) : R :=
  S0 (ref self) * exp (- q (ref self) * T self) * Phi d1
  - K self * exp (- rf_r self * T self) * Phi d2.

Definition put_value (self : OptionValuation) (d1 d2 : R) : R :=
  K self * exp (- rf_r self * T self) * Phi (- d2)
  - S0 (ref self) * exp (- q (ref self) * T self) * Phi (- d1).

(** The second pair of arguments, for a decision time [t]. *)
Definition chooser_d2n (self : OptionValuation) (t : R) : R :=
  (ln (S0 (ref self) / K self) + (rf_r self - q (ref self)) * T self
   - vol (ref self) ^ 2 * t / 2)
  / (vol (ref self) * sqrt t).

Definition valid (self : OptionValuation) : Prop :=
  0 < S0 (ref self) /\ 0 < K self /\ 0 < T self /\ 0 < vol (ref self).

(** With a positive spot price, strike, expiry and volatility the
    first half of [_calc_BS] raises nothing. *)
Lemma BS_out_valid (self : OptionValuation) (tau : option R) :
  valid self ->
  ChooserBS.BS_out Phi self tau
  = (t <- ChooserBS.number tau ;;
     sqrt_tau <- math_sqrt t ;;
     d2n <- py_div (ln (S0 (ref self) / K self) + (rf_r self - q (ref self)) * T self
                    - vol (ref self) ^ 2 * t / 2) (vol (ref self) * sqrt_tau) ;;
     Ok (call_value self (chooser_d1 self) (chooser_d2 self)
         + put_value self (d2n + vol (ref self) * sqrt_tau) d2n,
         chooser_d1 self, chooser_d2 self)).
Proof.
  intros (HS & HK & HT & Hv).
  assert (Hq : 0 < S0 (ref self) / K self) by now apply Rdiv_lt_0_compat.
  assert (Hs : 0 < sqrt (T self)) by now apply sqrt_lt_R0.
  unfold ChooserBS.BS_out, py_div at 1.
  destruct (Req_dec_T (K self) 0) as [E|_]; [lra|]. cbn [bind].
  unfold ChooserBS.math_log.
  destruct (Rlt_dec 0 (S0 (ref self) / K self)) as [_|N]; [|contradiction].
  cbn [bind]. unfold math_sqrt at 1.
  destruct (Rlt_dec (T self) 0) as [E|_]; [lra|]. cbn [bind].
  unfold py_div at 1.
  destruct (Req_dec_T (vol (ref self) * sqrt (T self)) 0) as [E|_]; [nra|].
  cbn [bind].
  destruct (ChooserBS.number tau) as [t|e]; [|reflexivity]. cbn [bind].
  destruct (math_sqrt t) as [s|e]; [|reflexivity]. cbn [bind].
  destruct (py_div _ (vol (ref self) * s)) as [d2n|e]; [|reflexivity]. cbn [bind].
  unfold call_value, put_value, chooser_d1, chooser_d2. f_equal. f_equal. f_equal.
  ring.
Qed.

(** X15: which decision times the closed form of the method accepts.
    For an option with positive spot price, strike, expiry and
    volatility, [calc_px(method='BS')] records a price exactly when
    [tau] is a positive number: the default [tau=None] is a
    [TypeError], a negative [tau] a [ValueError] of [math.sqrt], and
    [tau=0] a [ZeroDivisionError]. *)
Theorem chooser_BS_decision_time (self : OptionValuation) (ns : option Z)
    (np : option nat) (kh : bool) (st : Chooser.state) :
  valid self ->
  let run := fun tau =>
    Chooser.calc_px LTm (ChooserBS._calc_BS Phi) self tau "BS" ns np kh st in
  run None = Raise TypeError
  /\ (forall t, t < 0 -> run (Some t) = Raise ValueError)
  /\ run (Some 0) = Raise ZeroDivisionError
  /\ (forall t, 0 < t ->
        exists s, run (Some t) = Ok s
                  /\ px (Chooser.px_spec s)
                     = Some (Fin (call_value self (chooser_d1 self) (chooser_d2 self)
                                  + put_value self
                                      (chooser_d2n self t + vol (ref self) * sqrt t)
                                      (chooser_d2n self t)))).
Proof.
  intros Hv. cbv zeta.
  assert (Hrun : forall tau,
            Chooser.calc_px LTm (ChooserBS._calc_BS Phi) self tau "BS" ns np kh st
            = (out <- ChooserBS.BS_out Phi self tau ;;
               let '(v, _, _) := out in
               Ok (Chooser.mkState tau
                     (ChooserBS.add_BS (new_PriceSpec "BS" ns np kh None None) v))))
    by reflexivity.
  destruct Hv as (HS & HK & HT & Hvol).
  assert (Hv : valid self) by (repeat split; assumption).
  repeat split.
  - rewrite Hrun, BS_out_valid by exact Hv. reflexivity.
  - intros t Ht. rewrite Hrun, BS_out_valid by exact Hv.
    cbn [ChooserBS.number bind]. unfold math_sqrt.
    destruct (Rlt_dec t 0); [reflexivity|contradiction].
  - rewrite Hrun, BS_out_valid by exact Hv.
    cbn [ChooserBS.number bind]. unfold math_sqrt.
    destruct (Rlt_dec 0 0) as [E|_]; [lra|]. cbn [bind].
    unfold py_div. rewrite sqrt_0.
    destruct (Req_dec_T (vol (ref self) * 0) 0) as [_|N]; [reflexivity|].
    exfalso. apply N. ring.
  - intros t Ht. rewrite Hrun, BS_out_valid by exact Hv.
    cbn [ChooserBS.number bind]. unfold math_sqrt.
    destruct (Rlt_dec t 0) as [E|_]; [lra|]. cbn [bind].
    assert (Hs : 0 < sqrt t) by now apply sqrt_lt_R0.
    unfold py_div.
    destruct (Req_dec_T (vol (ref self) * sqrt t) 0) as [E|_]; [nra|].
    cbn [bind]. eexists. split; reflexivity.
Qed.

(** X16: choosing at expiry is a straddle.  With [tau = T] the
    second pair of CDF arguments equals the first, and the price the
    method records is the Black-Scholes call plus the Black-Scholes
    put, both at [d1] and [d2]. *)
Theorem chooser_BS_at_expiry_is_straddle (self : OptionValuation) :
  valid self ->
  ChooserBS.BS_out Phi self (Some (T self))
  = Ok (call_value self (chooser_d1 self) (chooser_d2 self)
        + put_value self (chooser_d1 self) (chooser_d2 self),
        chooser_d1 self, chooser_d2 self).
Proof.
  intros Hv. rewrite BS_out_valid by exact Hv.
  destruct Hv as (HS & HK & HT & Hvol).
  cbn [ChooserBS.number bind]. unfold math_sqrt.
  destruct (Rlt_dec (T self) 0) as [E|_]; [lra|]. cbn [bind].
  assert (Hs : 0 < sqrt (T self)) by now apply sqrt_lt_R0.
  unfold py_div.
  destruct (Req_dec_T (vol (ref self) * sqrt (T self)) 0) as [E|_]; [nra|].
  cbn [bind].
  assert (E : (ln (S0 (ref self) / K self) + (rf_r self - q (ref self)) * T self
               - vol (ref self) ^ 2 * T self / 2)
              / (vol (ref self) * sqrt (T self)) = chooser_d2 self).
  { unfold chooser_d2. f_equal. field. }
  rewrite E. reflexivity.
Qed.

End ChooserClosedForm.

(** ** The closed form of the function *)
Section ChooserFunctionFacts.

Import ChooserFunction.

Variable Phi : R -> R.

(** The arguments of [chooser] read off an option object. *)
Definition chooser_of (self : OptionValuation) (right : string) (tau : R) : outcome :=
  chooser Phi (S0 (ref self)) (K self) (T self) (vol (ref self)) (rf_r self)
          (q (ref self)) right tau.

Definition right_name (s : string) : Prop := lower s = "call"%string \/ lower s = "put"%string.

Definition rates_ok (self : OptionValuation) : Prop :=
  0 <= rf_r self /\ 0 <= q (ref self).

Lemma Rltb_false (x y : R) : ~ x < y -> Bermudan.Rltb x y = false.
Proof. intros H. unfold Bermudan.Rltb. now destruct (Rlt_dec x y). Qed.

(** Past the assertions the function computes from these values. *)
Lemma chooser_of_valid (self : OptionValuation) (right : string) (tau : R) :
  valid self -> rates_ok self -> right_name right ->
  chooser_of self right tau
  = let d2n := fdiv (Num (ln (S0 (ref self) / K self)
                          + (rf_r self - q (ref self)) * T self
                          + - (vol (ref self) ^ 2 * tau / 2)))
                    (scale (vol (ref self)) (np_sqrt tau)) in
    let d1n := fadd d2n (scale (vol (ref self)) (np_sqrt tau)) in
    Returns
      (fsub (fadd (Num (call_value Phi self (chooser_d1 self) (chooser_d2 self)))
                  (scale (K self * exp (- rf_r self * T self)) (cdf Phi (neg d2n))))
            (scale (S0 (ref self) * exp (- q (ref self) * T self))
                   (cdf Phi (neg d1n)))).
Proof.
  intros (HS & HK & HT & Hv) (Hr & Hq) Hname.
  assert (Hquot : 0 < S0 (ref self) / K self) by now apply Rdiv_lt_0_compat.
  assert (Hs : 0 < sqrt (T self)) by now apply sqrt_lt_R0.
  unfold chooser_of, chooser.
  assert (En : (String.eqb (lower right) "call" || String.eqb (lower right) "put")%bool
               = true).
  { destruct Hname as [-> | ->]; reflexivity. }
  rewrite En. cbn [negb].
  rewrite !Rltb_true by assumption. cbn [negb].
  rewrite !Rltb_false by lra.
  assert (Hsq : scale (vol (ref self)) (np_sqrt (T self))
                = Num (vol (ref self) * sqrt (T self))).
  { unfold np_sqrt. destruct (Rlt_dec (T self) 0) as [E|_]; [lra|reflexivity]. }
  assert (Hlog : np_log (S0 (ref self) / K self) = Num (ln (S0 (ref self) / K self))).
  { unfold np_log.
    destruct (Rlt_dec 0 (S0 (ref self) / K self)) as [_|N]; [reflexivity|contradiction]. }
  rewrite Hsq, Hlog.
  assert (Hd2 : fdiv (fadd (Num (ln (S0 (ref self) / K self)))
                           (Num ((rf_r self - q (ref self) - vol (ref self) ^ 2 / 2)
                                 * T self)))
                     (Num (vol (ref self) * sqrt (T self)))
                = Num (chooser_d2 self)).
  { cbn [fadd]. unfold fdiv.
    destruct (Req_dec_T (vol (ref self) * sqrt (T self)) 0) as [E|_]; [nra|].
    reflexivity. }
  rewrite Hd2. cbv zeta.
  change (fadd (Num (chooser_d2 self)) (Num (vol (ref self) * sqrt (T self))))
    with (Num (chooser_d1 self)).
  reflexivity.
Qed.

(** X17: the function and the method agree.  For an option with
    positive spot price, strike, expiry and volatility, rates that are
    not negative and a positive decision time, [chooser] returns the
    price [Chooser._calc_BS] hands to [px_spec]; the argument [right]
    is checked ('call' or 'put' in any case) and plays no part in the
    price. *)
Theorem chooser_function_agrees_with_method (self : OptionValuation)
    (right : string) (tau : R) :
  valid self -> rates_ok self -> right_name right -> 0 < tau ->
  exists v d1 d2,
    ChooserBS.BS_out Phi self (Some tau) = Ok (v, d1, d2)
    /\ chooser_of self right tau = Returns (Num v).
Proof.
  intros Hv Hr Hname Htau.
  rewrite (chooser_of_valid self right tau Hv Hr Hname).
  rewrite BS_out_valid by exact Hv.
  destruct Hv as (HS & HK & HT & Hvol).
  assert (Hs : 0 < sqrt tau) by now apply sqrt_lt_R0.
  cbn [ChooserBS.number bind]. unfold math_sqrt, np_sqrt.
  destruct (Rlt_dec tau 0) as [E|_]; [lra|]. cbn [bind scale].
  unfold py_div, fdiv.
  destruct (Req_dec_T (vol (ref self) * sqrt tau) 0) as [E|_]; [nra|].
  cbn [bind]. cbv zeta. cbn [fadd neg cdf scale fsub].
  eexists _, _, _. split; [reflexivity|].
  unfold put_value. f_equal. f_equal.
  set (N1 := ln (S0 (ref self) / K self) + (rf_r self - q (ref self)) * T self
             + - (vol (ref self) ^ 2 * tau / 2)).
  set (N2 := ln (S0 (ref self) / K self) + (rf_r self - q (ref self)) * T self
             - vol (ref self) ^ 2 * tau / 2).
  assert (EN : N1 = N2) by (unfold N1, N2; ring).
  rewrite EN. ring.
Qed.

(** The discounted spot against the discounted strike. *)
Lemma forward_against_strike (self : OptionValuation) :
  0 < S0 (ref self) -> 0 < K self ->
  S0 (ref self) * exp (- q (ref self) * T self)
  = K self * exp (- rf_r self * T self)
    * exp (ln (S0 (ref self) / K self) + (rf_r self - q (ref self)) * T self).
Proof.
  intros HS HK.
  assert (Hquot : 0 < S0 (ref self) / K self) by now apply Rdiv_lt_0_compat.
  rewrite Rmult_assoc, <- exp_plus.
  replace (- rf_r self * T self
           + (ln (S0 (ref self) / K self) + (rf_r self - q (ref self)) * T self))
    with (ln (S0 (ref self) / K self) + - q (ref self) * T self) by ring.
  rewrite exp_plus, exp_ln by exact Hquot. field. lra.
Qed.

(** X18: choosing at once.  With [tau = 0], its default, the function
    divides by zero without an error: when the forward price differs
    from the strike it returns the Black-Scholes call plus the
    positive part of the discounted strike minus the discounted spot,
    which by put-call parity is the better of the call and the put;
    when the two are equal it returns nan.  The method raises a
    [ZeroDivisionError] on the same input. *)
Theorem chooser_function_at_once (self : OptionValuation) (right : string) :
  valid self -> rates_ok self -> right_name right ->
  let forward := ln (S0 (ref self) / K self) + (rf_r self - q (ref self)) * T self in
  let call_px := call_value Phi self (chooser_d1 self) (chooser_d2 self) in
  let parity := K self * exp (- rf_r self * T self)
                - S0 (ref self) * exp (- q (ref self) * T self) in
  (forward <> 0 -> chooser_of self right 0 = Returns (Num (call_px + Rmax parity 0)))
  /\ (forward = 0 -> chooser_of self right 0 = Returns NaN)
  /\ ChooserBS.BS_out Phi self (Some 0) = Raise ZeroDivisionError.
Proof.
  intros Hv Hr Hname. cbv zeta.
  rewrite (chooser_of_valid self right 0 Hv Hr Hname).
  rewrite BS_out_valid by exact Hv.
  destruct Hv as (HS & HK & HT & Hvol).
  pose proof (forward_against_strike self HS HK) as Hf.
  set (N := ln (S0 (ref self) / K self) + (rf_r self - q (ref self)) * T self) in *.
  assert (HKe : 0 < K self * exp (- rf_r self * T self))
    by (apply Rmult_lt_0_compat; [exact HK|apply exp_pos]).
  unfold np_sqrt. destruct (Rlt_dec 0 0) as [E|_]; [lra|].
  rewrite sqrt_0. cbn [scale]. unfold fdiv.
  destruct (Req_dec_T (vol (ref self) * 0) 0) as [_|E]; [|exfalso; apply E; ring].
  replace (N + - (vol (ref self) ^ 2 * 0 / 2)) with N by (unfold Rdiv; ring).
  cbv zeta. repeat split.
  - intros HN.
    destruct (Rlt_dec 0 N) as [Hpos|Hnpos].
    + cbn [fadd neg cdf scale fsub]. f_equal. f_equal.
      assert (1 < exp N) by (rewrite <- exp_0; now apply exp_increasing).
      rewrite Rmax_right by nra. ring.
    + destruct (Rlt_dec N 0) as [Hneg|Hnneg]; [|lra].
      cbn [fadd neg cdf scale fsub]. f_equal. f_equal.
      assert (exp N < 1) by (rewrite <- exp_0; now apply exp_increasing).
      rewrite Rmax_left by nra. ring.
  - intros HN. rewrite HN.
    destruct (Rlt_dec 0 0) as [E|_]; [lra|].
    destruct (Rlt_dec 0 0) as [E|_]; [lra|]. reflexivity.
  - cbn [ChooserBS.number bind]. unfold math_sqrt.
    destruct (Rlt_dec 0 0) as [E|_]; [lra|]. cbn [bind].
    unfold py_div. rewrite sqrt_0.
    destruct (Req_dec_T (vol (ref self) * 0) 0) as [_|E]; [reflexivity|].
    exfalso. apply E. ring.
Qed.

End ChooserFunctionFacts.

(** * Instances for the further properties *)

(** The call on the stock, strike, expiry and rate of the two-step
    put. *)
Definition call_two_steps : OptionValuation :=
  mkOption (ref put_two_steps) call (K put_two_steps) (T put_two_steps)
           (rf_r put_two_steps).

Lemma lattice_two_steps_p : 0 <= p lattice_two_steps <= 1.
Proof. simpl. lra. Qed.

Lemma lattice_two_steps_df : 0 <= df_dt lattice_two_steps.
Proof. simpl. lra. Qed.

Lemma sorted_1_2 : StronglySorted Rlt [1; 2].
Proof. repeat constructor. lra. Qed.

(** The hypotheses of [bermudan_LT_between] hold for the two-step put
    with the schedules (2) and (1, 2). *)
Lemma bermudan_LT_between_witness :
  0 <= p lattice_two_steps <= 1
  /\ 0 <= df_dt lattice_two_steps
  /\ incl [2] [1; 2]
  /\ Forall2 (Forall2 Rle)
       (O_tree (Chooser.loop lattice_two_steps 2
                  (init_lattice put_two_steps lattice_two_steps 2)))
       (O_tree (Bermudan.LT_lattice put_two_steps lattice_two_steps [2] 2))
  /\ Forall2 (Forall2 Rle)
       (O_tree (Bermudan.LT_lattice put_two_steps lattice_two_steps [2] 2))
       (O_tree (Bermudan.LT_lattice put_two_steps lattice_two_steps [1; 2] 2)).
Proof.
  assert (Hincl : incl [2] [1; 2]).
  { intros x [<-|[]]. right. now left. }
  split; [exact lattice_two_steps_p|]. split; [exact lattice_two_steps_df|].
  split; [exact Hincl|].
  exact (bermudan_LT_between put_two_steps lattice_two_steps [2] [1; 2] 2
           lattice_two_steps_p lattice_two_steps_df Hincl).
Defined.

Lemma py_max_off_grid : Bermudan.py_max [3 / 10; 1; 2] = Ok 2.
Proof.
  unfold Bermudan.py_max. simpl. f_equal.
  unfold Rmax. repeat (destruct (Rle_dec _ _)); lra.
Qed.





Lemma lattice_two_steps_recombines : u lattice_two_steps * d lattice_two_steps = 1.
Proof. simpl. lra. Qed.

(** The hypothesis of [bermudan_LT_asset_tree] holds for the lattice
    with [u = 2] and [d = 1/2]. *)
Lemma bermudan_LT_asset_tree_witness :
  u lattice_two_steps * d lattice_two_steps = 1
  /\ S_tree (Bermudan.LT_lattice put_two_steps lattice_two_steps [1; 2] 2)
     = map (spec_terminal_S put_two_steps lattice_two_steps) (seq 0 (2 + 1))
  /\ nth 0 (S_tree (Bermudan.LT_lattice put_two_steps lattice_two_steps [1; 2] 2)) []
     = [S0 (ref put_two_steps)].
Proof.
  split; [exact lattice_two_steps_recombines|].
  exact (bermudan_LT_asset_tree put_two_steps lattice_two_steps [1; 2] 2
           lattice_two_steps_recombines).
Defined.

Lemma call_p0_vol : 0 < vol (ref call_p0).
Proof. simpl. lra. Qed.

Lemma lattice_two_steps_dt : 0 < dt lattice_two_steps.
Proof. simpl. lra. Qed.

(** The hypotheses of [shout_LT_values_nonneg] hold for the call with
    volatility 1/5 on the lattice of two steps of length 1. *)
Lemma shout_LT_values_nonneg_witness :
  0 < vol (ref call_p0)
  /\ 0 < dt lattice_two_steps
  /\ exists l,
       Shout.LT_lattice Phi_half call_p0 lattice_two_steps 2 = Ok l
       /\ Forall (Forall (Rle 0)) (O_tree l).
Proof.
  split; [exact call_p0_vol|]. split; [exact lattice_two_steps_dt|].
  exact (shout_LT_values_nonneg Phi_half call_p0 lattice_two_steps 2
           call_p0_vol lattice_two_steps_dt).
Defined.

(** The state a call with the dates -1 and 2 reaches the method in:
    the schedule is stored as it is and gives no step. *)
Definition MC_negative_first_date : Bermudan.state :=
  Bermudan.mkState (fun _ => 0) [-1; 2]
    (new_PriceSpec "MC" (Some 0%Z) (Some 1%nat) false (Some 7%Z) (Some default_seed)).

(** The hypotheses of [bermudan_MC_price_is_first_date_mean] hold for
    the state with one path and degree 7, whose first date is 1, and
    for the one whose first date is -1. *)
Lemma bermudan_MC_price_is_first_date_mean_witness :
  npaths (Bermudan.px_spec MC_one_path_degree_7) = Some 1%nat
  /\ deg_R (Bermudan.px_spec MC_one_path_degree_7) = Some 7%Z
  /\ Bermudan.tex MC_one_path_degree_7 = [1; 2]
  /\ ((exists st',
         Bermudan._calc_MC polyfit_refused put_two_steps MC_one_path_degree_7
         = (st', Ok tt)
         /\ (0 <= 1 ->
             px (Bermudan.px_spec st')
             = Some (Fin (Np.mean
                            (payout put_two_steps
                               (first_date_reals put_two_steps 1 1
                                  (Bermudan.rng MC_one_path_degree_7))))))
         /\ (1 < 0 -> px (Bermudan.px_spec st') = Some NonFinite))
      \/ (exists st' e,
            Bermudan._calc_MC polyfit_refused put_two_steps MC_one_path_degree_7
            = (st', Raise e)
            /\ Bermudan.px_spec st' = Bermudan.px_spec MC_one_path_degree_7))
  /\ Bermudan.tex MC_negative_first_date = [-1; 2]
  /\ ((exists st',
         Bermudan._calc_MC polyfit_refused put_two_steps MC_negative_first_date
         = (st', Ok tt)
         /\ (0 <= -1 ->
             px (Bermudan.px_spec st')
             = Some (Fin (Np.mean
                            (payout put_two_steps
                               (first_date_reals put_two_steps 1 (-1)
                                  (Bermudan.rng MC_negative_first_date))))))
         /\ (-1 < 0 -> px (Bermudan.px_spec st') = Some NonFinite))
      \/ (exists st' e,
            Bermudan._calc_MC polyfit_refused put_two_steps MC_negative_first_date
            = (st', Raise e)
            /\ Bermudan.px_spec st' = Bermudan.px_spec MC_negative_first_date)).
Proof.
  split; [reflexivity|]. split; [reflexivity|]. split; [reflexivity|].
  split.
  - exact (bermudan_MC_price_is_first_date_mean polyfit_refused put_two_steps
             MC_one_path_degree_7 0 7 1 [2] eq_refl eq_refl eq_refl).
  - split; [reflexivity|].
    exact (bermudan_MC_price_is_first_date_mean polyfit_refused put_two_steps
             MC_negative_first_date 0 7 (-1) [2] eq_refl eq_refl eq_refl).
Defined.

(** The hypotheses of [bermudan_MC_draws] hold for the same state. *)
Lemma bermudan_MC_draws_witness :
  npaths (Bermudan.px_spec MC_one_path_degree_7) = Some 1%nat
  /\ deg_R (Bermudan.px_spec MC_one_path_degree_7) = Some 7%Z
  /\ forall j,
       Bermudan.rng
         (fst (Bermudan._calc_MC polyfit_refused put_two_steps MC_one_path_degree_7)) j
       = Bermudan.rng MC_one_path_degree_7
           (1 * List.length (Bermudan.tex MC_one_path_degree_7) + j)%nat.
Proof.
  split; [reflexivity|]. split; [reflexivity|].
  exact (bermudan_MC_draws polyfit_refused put_two_steps MC_one_path_degree_7 1 7
           eq_refl eq_refl).
Defined.

Lemma put_two_steps_spot : 0 < S0 (ref put_two_steps).
Proof. simpl. lra. Qed.

Lemma gaps_1_2 : Forall (Rle 0) (Bermudan.delta_T_array [1; 2]).
Proof. unfold Bermudan.delta_T_array. simpl. repeat constructor; lra. Qed.

(** The hypotheses of [bermudan_MC_path_matrix] hold for the two-step
    put, with three paths over the dates 1 and 2. *)
Lemma bermudan_MC_path_matrix_witness :
  0 < S0 (ref put_two_steps)
  /\ Forall (Rle 0) (Bermudan.delta_T_array [1; 2])
  /\ (let paths := fst (Bermudan.generate_stock_price_paths put_two_steps 3
                          (Bermudan.delta_T_array [1; 2]) (fun _ => 0)) in
      List.length paths = S (List.length [1; 2])
      /\ Forall (fun c => List.length c = 3%nat) paths
      /\ Bermudan.column paths 0 = repeat (Fin (S0 (ref put_two_steps))) 3
      /\ Forall (Forall positive) paths).
Proof.
  split; [exact put_two_steps_spot|]. split; [exact gaps_1_2|].
  exact (bermudan_MC_path_matrix put_two_steps 3 [1; 2] (fun _ => 0)
           put_two_steps_spot gaps_1_2).
Defined.

(** The hypotheses of [chooser_LT_put_call_parity] hold for the
    two-step put and the call on the same stock and strike. *)
Lemma chooser_LT_put_call_parity_witness :
  right call_two_steps = call
  /\ right put_two_steps = put
  /\ ref call_two_steps = ref put_two_steps
  /\ K call_two_steps = K put_two_steps
  /\ nth 0 (nth 0 (O_tree (Chooser.loop lattice_two_steps 2
                             (init_lattice call_two_steps lattice_two_steps 2))) []) 0
      - nth 0 (nth 0 (O_tree (Chooser.loop lattice_two_steps 2
                                (init_lattice put_two_steps lattice_two_steps 2))) []) 0
      = df_dt lattice_two_steps ^ 2
        * (S0 (ref call_two_steps)
           * ((1 - p lattice_two_steps) * d lattice_two_steps
              + p lattice_two_steps * u lattice_two_steps) ^ 2
           - K call_two_steps).
Proof.
  split; [reflexivity|]. split; [reflexivity|]. split; [reflexivity|].
  split; [reflexivity|].
  exact (chooser_LT_put_call_parity lattice_two_steps call_two_steps put_two_steps 2
           eq_refl eq_refl eq_refl eq_refl).
Defined.

(** The hypothesis of [bermudan_normalize_idempotent] holds for the
    two-step put with the dates 1 and 2. *)
Lemma bermudan_normalize_idempotent_witness :
  Bermudan.py_max [1; 2] = Ok 2
  /\ (let t' := snd (Bermudan.normalize put_two_steps 2 [1; 2]) in
      exists Tmax',
        Bermudan.py_max t' = Ok Tmax'
        /\ snd (Bermudan.normalize put_two_steps Tmax' t') = t').
Proof.
  split; [exact py_max_1_2|].
  exact (bermudan_normalize_idempotent put_two_steps [1; 2] 2 py_max_1_2).
Defined.

Lemma two_dates : (2 <= List.length [1; 2])%nat.
Proof. simpl. lia. Qed.

(** The hypotheses of [knsteps_increasing_schedule] hold for the dates
    1 and 2. *)
Lemma knsteps_increasing_schedule_witness :
  0 < 2
  /\ StronglySorted Rlt [1; 2]
  /\ (2 <= List.length [1; 2])%nat
  /\ exists k,
       (0 <= k)%Z
       /\ Bermudan.knsteps true 2 [1; 2] None = Ok k
       /\ (forall n, Bermudan.knsteps true 2 [1; 2] (Some n) = Ok (k * n)%Z)
       /\ (Forall (fun x => 0 < x <= 2) [1; 2] -> (1 <= k)%Z).
Proof.
  split; [exact Rlt_0_2|]. split; [exact sorted_1_2|]. split; [exact two_dates|].
  exact (knsteps_increasing_schedule true 2 [1; 2] Rlt_0_2 sorted_1_2 two_dates).
Defined.

Lemma call_p0_valid : valid call_p0.
Proof. unfold valid. simpl. repeat split; lra. Qed.

Lemma call_p0_rates : rates_ok call_p0.
Proof. unfold rates_ok. simpl. split; lra. Qed.

Lemma right_name_Call : right_name "Call".
Proof. left. reflexivity. Qed.

(** The hypothesis of [chooser_BS_decision_time] holds for the call
    with spot 50, strike 52, expiry 1 and volatility 1/5. *)
Lemma chooser_BS_decision_time_witness :
  valid call_p0
  /\ (let run := fun tau =>
        Chooser.calc_px LT_specs_checked (ChooserBS._calc_BS Phi_half) call_p0 tau
          "BS" None None false chooser_fresh in
      run None = Raise TypeError
      /\ (forall t, t < 0 -> run (Some t) = Raise ValueError)
      /\ run (Some 0) = Raise ZeroDivisionError
      /\ (forall t, 0 < t ->
            exists s, run (Some t) = Ok s
                      /\ px (Chooser.px_spec s)
                         = Some (Fin (call_value Phi_half call_p0 (chooser_d1 call_p0)
                                        (chooser_d2 call_p0)
                                      + put_value Phi_half call_p0
                                          (chooser_d2n call_p0 t
                                           + vol (ref call_p0) * sqrt t)
                                          (chooser_d2n call_p0 t))))).
Proof.
  split; [exact call_p0_valid|].
  exact (chooser_BS_decision_time Phi_half LT_specs_checked call_p0 None None false
           chooser_fresh call_p0_valid).
Defined.

(** The hypothesis of [chooser_BS_at_expiry_is_straddle] holds for the
    same call. *)
Lemma chooser_BS_at_expiry_is_straddle_witness :
  valid call_p0
  /\ ChooserBS.BS_out Phi_half call_p0 (Some (T call_p0))
     = Ok (call_value Phi_half call_p0 (chooser_d1 call_p0) (chooser_d2 call_p0)
           + put_value Phi_half call_p0 (chooser_d1 call_p0) (chooser_d2 call_p0),
           chooser_d1 call_p0, chooser_d2 call_p0).
Proof.
  split; [exact call_p0_valid|].
  exact (chooser_BS_at_expiry_is_straddle Phi_half call_p0 call_p0_valid).
Defined.

(** The hypotheses of [chooser_function_agrees_with_method] hold for
    the same call, the right 'Call' and the decision time 1/2. *)
Lemma chooser_function_agrees_with_method_witness :
  valid call_p0
  /\ rates_ok call_p0
  /\ right_name "Call"
  /\ 0 < / 2
  /\ exists v d1 d2,
       ChooserBS.BS_out Phi_half call_p0 (Some (/ 2)) = Ok (v, d1, d2)
       /\ chooser_of Phi_half call_p0 "Call" (/ 2) = ChooserFunction.Returns
                                                      (ChooserFunction.Num v).
Proof.
  assert (Ht : 0 < / 2) by lra.
  split; [exact call_p0_valid|]. split; [exact call_p0_rates|].
  split; [exact right_name_Call|]. split; [exact Ht|].
  exact (chooser_function_agrees_with_method Phi_half call_p0 "Call" (/ 2)
           call_p0_valid call_p0_rates right_name_Call Ht).
Defined.

(** A call at the money on a stock whose yield equals the rate: its
    forward price is the strike. *)
Definition call_at_forward : OptionValuation :=
  mkOption (mkStock 50 (1 / 5) (1 / 20)) call 50 1 (1 / 20).

Lemma call_at_forward_valid : valid call_at_forward.
Proof. unfold valid. simpl. repeat split; lra. Qed.

Lemma call_at_forward_rates : rates_ok call_at_forward.
Proof. unfold rates_ok. simpl. split; lra. Qed.

Lemma call_p0_forward :
  ln (S0 (ref call_p0) / K call_p0) + (rf_r call_p0 - q (ref call_p0)) * T call_p0 <> 0.
Proof.
  simpl. assert (H : ln (50 / 52) < ln 1) by (apply ln_increasing; lra).
  rewrite ln_1 in H. lra.
Qed.

Lemma call_at_forward_forward :
  ln (S0 (ref call_at_forward) / K call_at_forward)
  + (rf_r call_at_forward - q (ref call_at_forward)) * T call_at_forward = 0.
Proof.
  simpl. replace (50 / 50) with 1 by field. rewrite ln_1. ring.
Qed.

(** The hypotheses of [chooser_function_at_once] hold: for the call
    with strike 52 the forward differs from the strike, for the call at
    the money it equals it. *)
Lemma chooser_function_at_once_witness :
  valid call_p0
  /\ rates_ok call_p0
  /\ right_name "Call"
  /\ chooser_of Phi_half call_p0 "Call" 0
     = ChooserFunction.Returns
         (ChooserFunction.Num
            (call_value Phi_half call_p0 (chooser_d1 call_p0) (chooser_d2 call_p0)
             + Rmax (K call_p0 * exp (- rf_r call_p0 * T call_p0)
                     - S0 (ref call_p0) * exp (- q (ref call_p0) * T call_p0)) 0))
  /\ ChooserBS.BS_out Phi_half call_p0 (Some 0) = Raise ZeroDivisionError
  /\ valid call_at_forward
  /\ rates_ok call_at_forward
  /\ chooser_of Phi_half call_at_forward "Call" 0
     = ChooserFunction.Returns ChooserFunction.NaN.
Proof.
  pose proof (chooser_function_at_once Phi_half call_p0 "Call" call_p0_valid
                call_p0_rates right_name_Call) as H0.
  pose proof (chooser_function_at_once Phi_half call_at_forward "Call"
                call_at_forward_valid call_at_forward_rates right_name_Call) as H1.
  cbv zeta in H0, H1.
  split; [exact call_p0_valid|]. split; [exact call_p0_rates|].
  split; [exact right_name_Call|].
  split; [exact (proj1 H0 call_p0_forward)|].
  split; [exact (proj2 (proj2 H0))|].
  split; [exact call_at_forward_valid|]. split; [exact call_at_forward_rates|].
  exact (proj1 (proj2 H1) call_at_forward_forward).
Defined.
